(** * RetailScraper: the parallel store crawler, the proxy managers and
      the browser pools, embedded in Rocq.

    Sources:
    - src/crawlers/walmart_products_parallel_spider.py  (module [ParallelSpider])
    - src/helpers/enhanced_proxy_manager.py             (module [EnhancedPM])
    - src/helpers/adaptive_proxy_manager.py             (module [AdaptivePM])
    - src/enhanced_middleware.py, src/hybrid_browser_middleware.py
                                                        (module [BrowserPool])
    - src/scrapy_settings.py, with the two middlewares above
                                                        (module [RequestFlow])
    - src/helpers/helpers.py                            (module [HelpersPM])
    - src/middlewares.py                                (module [UnifiedMW])
    - the [_check_bot_detection] methods of the two middlewares above
                                                        (module [BotCheck])
    - the loader of src/helpers/enhanced_proxy_manager.py
                                                        (module [EnhancedLoad])
    - the loader of src/helpers/helpers.py              (module [HelpersLoad])
    - [get_optimal_request_interval] of src/helpers/adaptive_proxy_manager.py
                                                        (module [AdaptiveInterval])

    Conventions.  Python [datetime] values are seconds as [Z];
    [timedelta(minutes=m)] is [60 * m].  Python floats used in scores and
    rates are modelled as exact rationals [Q].  Every draw of the
    [random] module is an explicit input.  A Python [dict] keyed by
    strings is a [gmap string _]; a [defaultdict] lookup of a missing key
    reads the default entry. *)

From stdpp Require Import base gmap sets list strings sorting.
From Stdlib Require Import ZArith QArith Qminmax Lqa.

Open Scope Z_scope.

(* ===================================================================== *)
(** * 1. The parallel store spider *)
(* ===================================================================== *)

Module ParallelSpider.

(** A store is identified by its [store_id]; a category by its name
    (the spider only reads [category['path']] to build the URL). *)
Definition store_id := string.
Definition category := string.

(** The requests the spider hands to the engine:
    [set_store_cookie] and [scrape_category]. *)
Inductive request :=
  | StoreReq (s : store_id)
  | CatReq (s : store_id) (c : category) (page : Z).

#[global] Instance request_eq_dec : EqDecision request.
Proof. solve_decision. Defined.

(** The fields of [WalmartProductsParallelSpider] the scheduler uses. *)
Record spider := mkSpider {
  parallel_stores : Z;
  categories : list category;
  stores_queue : list store_id;           (* a FIFO [Queue] *)
  active_stores : Z;
  processed_stores : gset store_id;
  store_category_status : gmap store_id Z
}.

Definition set_queue (sp : spider) (q : list store_id) : spider :=
  mkSpider (parallel_stores sp) (categories sp) q (active_stores sp)
           (processed_stores sp) (store_category_status sp).
Definition set_active (sp : spider) (a : Z) : spider :=
  mkSpider (parallel_stores sp) (categories sp) (stores_queue sp) a
           (processed_stores sp) (store_category_status sp).
Definition set_processed (sp : spider) (p : gset store_id) : spider :=
  mkSpider (parallel_stores sp) (categories sp) (stores_queue sp)
           (active_stores sp) p (store_category_status sp).
Definition set_status (sp : spider) (st : gmap store_id Z) : spider :=
  mkSpider (parallel_stores sp) (categories sp) (stores_queue sp)
           (active_stores sp) (processed_stores sp) st.

(** [set_store_cookie(store)] yields one request for the store page. *)
Definition set_store_cookie (s : store_id) : list request := [StoreReq s].

(** [scrape_category(store, category, page)] yields one request. *)
Definition scrape_category (s : store_id) (c : category) (page : Z) : list request :=
  [CatReq s c page].

(** [schedule_next_stores]: the [while] loop pops one queue entry per
    iteration, so the queue length bounds the number of iterations. *)
Fixpoint schedule_loop (fuel : nat) (sp : spider) : spider * list request :=
  match fuel with
  | O => (sp, [])
  | S fuel' =>
      if decide (active_stores sp < parallel_stores sp) then
        match stores_queue sp with
        | [] => (sp, [])
        | s :: q =>
            let sp1 := set_queue sp q in
            if decide (s ∈ processed_stores sp1) then schedule_loop fuel' sp1
            else
              let sp2 := set_active (set_processed sp1 ({[s]} ∪ processed_stores sp1))
                                    (active_stores sp1 + 1) in
              let '(sp3, rs) := schedule_loop fuel' sp2 in
              (sp3, set_store_cookie s ++ rs)
        end
      else (sp, [])
  end.

Definition schedule_next_stores (sp : spider) : spider * list request :=
  schedule_loop (length (stores_queue sp)) sp.

(** [spider_idle]: schedule more stores when below the ceiling and the
    queue is not empty (the jitter sleep has no effect on the state). *)
Definition spider_idle (sp : spider) : spider * list request :=
  if decide (active_stores sp < parallel_stores sp) then
    match stores_queue sp with
    | [] => (sp, [])
    | _ :: _ => schedule_next_stores sp
    end
  else (sp, []).

(** [handle_store_error]: release the slot, then schedule more stores. *)
Definition handle_store_error (sp : spider) (s : store_id) : spider * list request :=
  schedule_next_stores (set_active sp (active_stores sp - 1)).

(** [parse_store_page]: [url_has_store] is the test ["store" in response.url]. *)
Definition parse_store_page (sp : spider) (s : store_id) (url_has_store : bool)
  : spider * list request :=
  if url_has_store then
    (set_status sp (<[s := Z.of_nat (length (categories sp))]> (store_category_status sp)),
     concat (map (fun c => scrape_category s c 1) (categories sp)))
  else (set_active sp (active_stores sp - 1), []).

(** [category_complete_for_store]. *)
Definition category_complete_for_store (sp : spider) (s : store_id) : spider :=
  match store_category_status sp !! s with
  | Some k =>
      let k' := k - 1 in
      if decide (k' <= 0) then
        let sp1 := if decide (active_stores sp > 0)
                   then set_active sp (active_stores sp - 1) else sp in
        set_status sp1 (delete s (store_category_status sp1))
      else set_status sp (<[s := k']> (store_category_status sp))
  | None => sp   (* logger.warning: store not found *)
  end.

(** [handle_category_error]. *)
Definition handle_category_error (sp : spider) (s : store_id) : spider :=
  category_complete_for_store sp s.

(** What [parse_category] learns from the page: no [__NEXT_DATA__],
    the number of products [_extract_products] returned, or an exception
    ([AttributeError] or [TypeError]) raised before the pagination
    decision, by [_extract_products] (which only catches [KeyError] and
    [IndexError]) or by the loop that yields the items. *)
Inductive page_data := NoNextData | Products (n : nat) | Raises.

#[global] Instance page_data_eq_dec : EqDecision page_data.
Proof. solve_decision. Defined.

(** [parse_category] (the yielded items are not modelled).  An exception
    leaves the generator: Scrapy hands it to the spider middlewares and
    does not call the request's errback, so nothing else runs. *)
Definition parse_category (sp : spider) (s : store_id) (c : category) (page : Z)
  (d : page_data) : spider * list request :=
  match d with
  | NoNextData => (category_complete_for_store sp s, [])
  | Products n =>
      if bool_decide (0 < n)%nat && bool_decide (40 <= n)%nat
      then (sp, scrape_category s c (page + 1))
      else (category_complete_for_store sp s, [])
  | Raises => (sp, [])
  end.

(** ** The page's [__NEXT_DATA__].

    A JSON value as [json.loads] returns it; numbers are integers here,
    only their truthiness is read. *)
#[warnings="-register-all"]
Inductive json :=
  | JNull
  | JBool (b : bool)
  | JNum (z : Z)
  | JStr (s : string)
  | JList (l : list json)
  | JObj (kv : list (string * json)).

(** Python truthiness. *)
Definition truthy (j : json) : bool :=
  match j with
  | JNull => false
  | JBool b => b
  | JNum z => negb (Z.eqb z 0)
  | JStr s => negb (String.eqb s "")
  | JList l => negb (bool_decide (l = []))
  | JObj kv => negb (bool_decide (kv = []))
  end.

(** The value of a key ([json.loads] keeps the last of repeated keys). *)
Definition obj_lookup (k : string) (kv : list (string * json)) : option json :=
  match List.find (fun e => String.eqb (fst e) k) (rev kv) with
  | Some (_, v) => Some v
  | None => None
  end.

(** [j.get(k, d)]; [None]: [AttributeError], [j] is not a dict. *)
Definition py_get (j : json) (k : string) (d : json) : option json :=
  match j with
  | JObj kv => Some (default d (obj_lookup k kv))
  | _ => None
  end.

(** The one-character strings of a string, in order. *)
Fixpoint str_chars (s : string) : list json :=
  match s with
  | EmptyString => []
  | String a s' => JStr (String a EmptyString) :: str_chars s'
  end.

(** [for x in j]; [None]: [TypeError], [j] is not iterable.  A string
    yields its characters and a dict its keys (the loops below call
    [.get] on every element, which raises on a string, so only whether
    there is an element matters for them). *)
Definition py_iter (j : json) : option (list json) :=
  match j with
  | JList l => Some l
  | JStr s => Some (str_chars s)
  | JObj kv => Some (map (fun e => JStr (fst e)) kv)
  | _ => None
  end.

(** One item of a stack in [_extract_products]: the [imageInfo] value
    stored in [product_info]. *)
Definition extract_item (item : json) : option json :=
  _ ← py_get item "id" JNull;
  _ ← py_get item "name" JNull;
  _ ← py_get item "canonicalUrl" JNull;
  _ ← py_get item "brand" JNull;
  price_info ← py_get item "priceInfo" (JObj []);
  cur ← py_get price_info "currentPrice" JNull;
  _ ← (if truthy cur then py_get cur "price" JNull else Some JNull);
  _ ← py_get item "availabilityStatus" JNull;
  py_get item "imageInfo" (JObj []).

(** One stack: [if stack.get('itemsV2'): for item in stack['itemsV2']: ...] *)
Definition extract_stack (stack : json) : option (list json) :=
  v2 ← py_get stack "itemsV2" JNull;
  if truthy v2 then items ← py_iter v2; mapM extract_item items else Some [].

(** [_extract_products]: the [imageInfo] of each product, in order;
    [None]: an exception escaped. *)
Definition _extract_products (next_data : json) : option (list json) :=
  a ← py_get next_data "props" (JObj []);
  b ← py_get a "pageProps" (JObj []);
  c ← py_get b "initialData" (JObj []);
  d ← py_get c "searchResult" (JObj []);
  search_content ← py_get d "itemStacks" (JList []);
  stacks ← py_iter search_content;
  ps ← mapM extract_stack stacks;
  Some (concat ps).

(** The item loop of [parse_category] evaluates
    [product.get('imageInfo', {}).get('thumbnailUrl')], which raises
    unless the product's [imageInfo] is a dict. *)
Definition yield_ok (image_info : json) : bool :=
  match image_info with JObj _ => true | _ => false end.

(** What [parse_category] learns from [extract_next_data(response.text)]
    ([None] when there is no parsable [__NEXT_DATA__] script). *)
Definition page_data_of (next_data : option json) : page_data :=
  match next_data with
  | None => NoNextData
  | Some nd =>
      if negb (truthy nd) then NoNextData
      else match _extract_products nd with
           | None => Raises
           | Some ps => if forallb yield_ok ps then Products (length ps) else Raises
           end
  end.

(** [start]: load the store ids (entries with an empty [store_id] are
    skipped; [processed_stores] is still empty) and the categories, then
    schedule the first batch. *)
Definition init_spider (parallel : Z) (cats : list category) : spider :=
  mkSpider parallel cats [] 0 ∅ ∅.

Definition start (parallel : Z) (stores : list store_id) (cats : list category)
  : spider * list request :=
  let q := filter (fun s => s ≠ ""%string) stores in
  schedule_next_stores (set_queue (init_spider parallel cats) q).

(** ** The engine around the spider.

    [outstanding] holds the requests handed to the engine and not yet
    answered.  The engine answers any outstanding request, in any order,
    through its callback or its errback, and may fire [spider_idle]. *)
Record world := mkWorld { wsp : spider; outstanding : list request }.

Inductive response :=
  | RStorePage (url_has_store : bool)   (* parse_store_page *)
  | RStoreError                         (* handle_store_error *)
  | RCatPage (d : page_data)            (* parse_category *)
  | RCatError.                          (* handle_category_error *)

(** Remove the first occurrence of a request. *)
Fixpoint take_out (r : request) (l : list request) : option (list request) :=
  match l with
  | [] => None
  | x :: l' => if decide (x = r) then Some l'
               else match take_out r l' with
                    | Some l'' => Some (x :: l'')
                    | None => None
                    end
  end.

(** The callback or errback Scrapy runs for a response. *)
Definition dispatch (sp : spider) (r : request) (resp : response)
  : option (spider * list request) :=
  match r, resp with
  | StoreReq s, RStorePage b => Some (parse_store_page sp s b)
  | StoreReq s, RStoreError => Some (handle_store_error sp s)
  | CatReq s c p, RCatPage d => Some (parse_category sp s c p d)
  | CatReq s c p, RCatError => Some (handle_category_error sp s, [])
  | _, _ => None
  end.

Inductive event := Deliver (r : request) (resp : response) | Idle.

Definition wstep (w : world) (e : event) : option world :=
  match e with
  | Deliver r resp =>
      match take_out r (outstanding w) with
      | None => None
      | Some rest =>
          match dispatch (wsp w) r resp with
          | Some (sp', new) => Some (mkWorld sp' (rest ++ new))
          | None => None
          end
      end
  | Idle => let '(sp', new) := spider_idle (wsp w) in
            Some (mkWorld sp' (outstanding w ++ new))
  end.

Fixpoint wrun (w : world) (es : list event) : option world :=
  match es with
  | [] => Some w
  | e :: es' => match wstep w e with Some w' => wrun w' es' | None => None end
  end.

Definition start_world (parallel : Z) (stores : list store_id) (cats : list category) : world :=
  let '(sp, rs) := start parallel stores cats in mkWorld sp rs.

Inductive reachable (parallel : Z) (stores : list store_id) (cats : list category)
  : world -> Prop :=
  | reach_start : reachable parallel stores cats (start_world parallel stores cats)
  | reach_step w e w' : reachable parallel stores cats w -> wstep w e = Some w' ->
                        reachable parallel stores cats w'.

(** The queue entries a scheduling pass admits, in order, out of the
    entries it pops: those not yet processed (each id once). *)
Fixpoint admitted_of (processed : gset store_id) (popped : list store_id) : list store_id :=
  match popped with
  | [] => []
  | s :: t => if decide (s ∈ processed) then admitted_of processed t
              else s :: admitted_of ({[s]} ∪ processed) t
  end.

(** The promise that an idle pass below the ceiling with a non-empty
    queue admits [min(free slots, queued entries)] stores. *)
Definition idle_fills (sp : spider) : Prop :=
  active_stores sp < parallel_stores sp -> stores_queue sp <> [] ->
  Z.of_nat (length (snd (spider_idle sp))) =
  Z.min (parallel_stores sp - active_stores sp) (Z.of_nat (length (stores_queue sp))).

(** The answer the engine gives to one category page request: the
    fetched page ([Some d], callback [parse_category]) or a fetch
    failure ([None], errback [handle_category_error]). *)
Definition cat_response (o : option page_data) : response :=
  match o with Some d => RCatPage d | None => RCatError end.

(** One (store, category) pagination, answered page after page by
    [outs]: the requests issued (the first one included) and whether
    the pagination ended (no request left outstanding). *)
Fixpoint category_chain (sp : spider) (s : store_id) (c : category) (page : Z)
  (outs : list (option page_data)) : spider * list request * bool :=
  match outs with
  | [] => (sp, [CatReq s c page], false)
  | o :: os =>
      match dispatch sp (CatReq s c page) (cat_response o) with
      | Some (sp', [CatReq s' c' page']) =>
          let '(sp'', rs, ended) := category_chain sp' s' c' page' os in
          (sp'', CatReq s c page :: rs, ended)
      | Some (sp', _) => (sp', [CatReq s c page], true)
      | None => (sp, [CatReq s c page], false)
      end
  end.

(** The extracted result count of a page ([0] without [__NEXT_DATA__]
    or when [parse_category] raised). *)
Definition page_count (d : page_data) : nat :=
  match d with NoNextData => 0 | Products n => n | Raises => 0 end.

(** Whether the answers [outs] end a pagination by a page whose
    [parse_category] raised: the first page that is not full raised. *)
Fixpoint ends_by_raise (outs : list (option page_data)) : bool :=
  match outs with
  | Some Raises :: _ => true
  | Some d :: os => if decide (40 <= page_count d)%nat then ends_by_raise os else false
  | _ => false
  end.

(** The number of leading full pages (at least 40 results) in [outs]. *)
Fixpoint full_prefix (outs : list (option page_data)) : nat :=
  match outs with
  | Some d :: os => if decide (40 <= page_count d)%nat then S (full_prefix os) else O
  | _ => O
  end.

(** The run behind the C6 counterexample: stores [A; B; A], ceiling 2,
    one category.  [A] and [B] are admitted at start; [A] completes its
    only category; the idle pass then pops the repeated [A] and admits
    nothing. *)
Definition c6_events : list event :=
  [Deliver (StoreReq "A") (RStorePage true);
   Deliver (CatReq "A" "c1" 1) (RCatPage (Products 5))].

(** The run behind the C1 failing input: stores [A; B], ceiling 1, an
    empty category list. *)
Definition c1_events : list event := [Deliver (StoreReq "A") (RStorePage true)].

Definition c1_world : world :=
  mkWorld (mkSpider 1 [] ["B"] 1 ({[ "A" ]} ∪ ∅) {[ "A" := 0 ]}) [].

(** The [__NEXT_DATA__] of a category page with one product whose
    ["imageInfo"] is [null]. *)
Definition c8_next_data : json :=
  let item := JObj [("id", JStr "1"); ("imageInfo", JNull)] in
  let stack := JObj [("itemsV2", JList [item])] in
  let search_result := JObj [("itemStacks", JList [stack])] in
  JObj [("props", JObj [("pageProps", JObj [("initialData",
    JObj [("searchResult", search_result)])])])].

(** The run behind the C8 failing input: stores [A; B], ceiling 1, one
    category; the first page of [c1] for [A] carries [c8_next_data]. *)
Definition c8_events : list event :=
  [Deliver (StoreReq "A") (RStorePage true);
   Deliver (CatReq "A" "c1" 1) (RCatPage (page_data_of (Some c8_next_data)))].

Definition c8_world : world :=
  mkWorld (mkSpider 1 ["c1"] ["B"] 1 ({[ "A" ]} ∪ ∅) {[ "A" := 1 ]}) [].

End ParallelSpider.

(* ===================================================================== *)
(** * 2. What both proxy managers share *)
(* ===================================================================== *)

Module ProxyCommon.

(** The [request_context] dict passed to [get_proxy] (Optional[Dict]):
    the keys the managers read, and how many other keys it holds (an
    empty dict is falsy in Python). *)
Record request_context := mkCtx {
  ctx_url_type : option string;
  ctx_retry_count : option Z;
  ctx_last_proxy : option string;
  ctx_other_keys : nat
}.

(** [if request_context:] *)
Definition ctx_truthy (ctx : option request_context) : bool :=
  match ctx with
  | None => false
  | Some c => bool_decide (is_Some (ctx_url_type c) \/ is_Some (ctx_retry_count c) \/
                           is_Some (ctx_last_proxy c) \/ ctx_other_keys c <> O)
  end.

(** [request_context.get("retry_count", 0)] *)
Definition ctx_retry (c : request_context) : Z :=
  match ctx_retry_count c with Some n => n | None => 0 end.

(** The draws of the [random] module in one [get_proxy] call:
    whether [random.random() < 0.2], and the index [random.choice] uses. *)
Record rng := mkRng { rnd_below_02 : bool; rnd_choice : nat }.

(** [random.choice(l)] for the drawn index. *)
Definition choice {A} (r : rng) (l : list A) : option A :=
  match l with
  | [] => None
  | _ => nth_error l (rnd_choice r mod length l)
  end.

(** [l.sort(key=score, reverse=True)]: a stable sort by decreasing score;
    entries with equal scores keep their order. *)
Fixpoint insert_desc {A} (score : A -> Q) (x : A) (l : list A) : list A :=
  match l with
  | [] => [x]
  | y :: l' => if negb (Qle_bool (score x) (score y)) then x :: y :: l'
               else y :: insert_desc score x l'
  end.

Definition sort_desc {A} (score : A -> Q) (l : list A) : list A :=
  fold_left (fun acc x => insert_desc score x acc) l [].

(** The result of a method that takes a non re-entrant [threading.Lock]:
    it returns, or it blocks for ever on the lock. *)
Inductive locked_call (A M : Type) :=
  | Returned (a : A) (m : M)
  | Deadlocked (m : M).
Arguments Returned {A M} a m.
Arguments Deadlocked {A M} m.

End ProxyCommon.

(* ===================================================================== *)
(** * 3. EnhancedProxyManager (src/helpers/enhanced_proxy_manager.py) *)
(* ===================================================================== *)

Module EnhancedPM.
Import ProxyCommon.

(** One entry of [proxy_stats]. *)
Record stats := mkStats {
  requests : Z;
  successes : Z;
  failures : Z;
  bot_detections : Z;
  last_used : option Z;
  last_success : option Z;
  last_failure : option Z;
  avg_response_time : Q;
  cooldown_until : option Z;
  consecutive_failures : Z;
  walmart_score : Q
}.

(** The [defaultdict] factory. *)
Definition default_stats : stats :=
  mkStats 0 0 0 0 None None None 0 None 0 0.

(** A categorised proxy record ([proxy_info]). *)
Record proxy_info := mkInfo {
  proxy : string;
  country_code : option string;     (* location.countryCode *)
  latency_ms : option Q             (* missing: float('inf') *)
}.

Record manager := mkManager {
  residential_proxies : list proxy_info;
  mobile_proxies : list proxy_info;
  datacenter_proxies : list proxy_info;
  proxy_stats : gmap string stats;
  walmart_blocked_ips : gset string;
  lock_held : bool                  (* [self.lock] is taken *)
}.

(** [self.proxy_stats[url]] *)
Definition stats_of (m : manager) (url : string) : stats :=
  default default_stats (proxy_stats m !! url).

Definition set_stats (m : manager) (url : string) (st : stats) : manager :=
  mkManager (residential_proxies m) (mobile_proxies m) (datacenter_proxies m)
            (<[url := st]> (proxy_stats m)) (walmart_blocked_ips m) (lock_held m).

Definition set_all_stats (m : manager) (ps : gmap string stats) : manager :=
  mkManager (residential_proxies m) (mobile_proxies m) (datacenter_proxies m)
            ps (walmart_blocked_ips m) (lock_held m).

Definition set_blocked (m : manager) (b : gset string) : manager :=
  mkManager (residential_proxies m) (mobile_proxies m) (datacenter_proxies m)
            (proxy_stats m) b (lock_held m).

Definition set_lock (m : manager) (b : bool) : manager :=
  mkManager (residential_proxies m) (mobile_proxies m) (datacenter_proxies m)
            (proxy_stats m) (walmart_blocked_ips m) b.

(** [stats["cooldown_until"] and current_time < stats["cooldown_until"]] *)
Definition in_cooldown (st : stats) (now : Z) : bool :=
  match cooldown_until st with Some t => bool_decide (now < t) | None => false end.

(** The dynamic score of an eligible proxy in [get_proxy]. *)
Definition score (base : Q) (info : proxy_info) (st : stats) (now : Z) : Q :=
  let s0 := (base + walmart_score st)%Q in
  let s1 := if decide (requests st > 0) then
              let s := (s0 + inject_Z (successes st) / inject_Z (requests st) * 50)%Q in
              if decide (bot_detections st > 0)
              then (s - inject_Z (bot_detections st) / inject_Z (requests st) * 100)%Q
              else s
            else s0 in
  let s2 := match last_success st with
            | Some t => let minutes := (inject_Z (now - t) / 60)%Q in
                        if Qlt_le_dec minutes 5 then (s1 + 20)%Q
                        else if Qlt_le_dec minutes 30 then (s1 + 10)%Q else s1
            | None => s1
            end in
  let s3 := if decide (country_code info = Some "US"%string) then (s2 + 15)%Q else s2 in
  match latency_ms info with
  | Some l => if Qlt_le_dec l 1000 then (s3 + 10)%Q else s3
  | None => s3
  end.

(** The candidates of one pool, in order: [(proxy_url, score, proxy_info)]. *)
Definition pool_candidates (m : manager) (now : Z) (base : Q) (l : list proxy_info)
  : list (string * Q * proxy_info) :=
  flat_map (fun info =>
    let url := proxy info in
    let st := stats_of m url in
    if decide (url ∈ walmart_blocked_ips m) then []
    else if in_cooldown st now then []
    else if decide (consecutive_failures st >= 3) then []
    else [(url, score base info st now, info)]) l.

Definition available_proxies (m : manager) (now : Z) : list (string * Q * proxy_info) :=
  pool_candidates m now 100 (residential_proxies m) ++
  pool_candidates m now 80 (mobile_proxies m) ++
  pool_candidates m now 30 (datacenter_proxies m).

(** The emergency reset: every [proxy_stats] entry loses its cooldown
    and its consecutive failures. *)
Definition reset_all (m : manager) : manager :=
  set_all_stats m ((fun st => mkStats (requests st) (successes st) (failures st)
      (bot_detections st) (last_used st) (last_success st) (last_failure st)
      (avg_response_time st) None 0 (walmart_score st)) <$> proxy_stats m).

(** The body of [get_proxy] under [self.lock]: a selection, or the
    emergency reset followed by [return self.get_proxy(request_context)]. *)
Inductive body_result :=
  | Picked (url : string) (m : manager)
  | Retry (m : manager).

Definition get_proxy_body (m : manager) (ctx : option request_context) (now : Z) (r : rng)
  : body_result :=
  let avail := available_proxies m now in
  match avail with
  | [] => Retry (reset_all m)
  | first :: _ =>
      let sorted := sort_desc (fun x => snd (fst x)) avail in
      let selected :=
        if rnd_below_02 r && bool_decide (3 < length sorted)%nat
        then default first (choice r (take 3 sorted))
        else default first (head sorted) in
      let url := fst (fst selected) in
      let st := stats_of m url in
      Picked url (set_stats m url
        (mkStats (requests st + 1) (successes st) (failures st) (bot_detections st)
                 (Some now) (last_success st) (last_failure st) (avg_response_time st)
                 (cooldown_until st) (consecutive_failures st) (walmart_score st)))
  end.

(** [get_proxy] with its lock.  The recursive call of the emergency path
    runs while [self.lock] is still held; [threading.Lock] is not
    re-entrant, so the inner [with self.lock] never acquires it. *)
Definition get_proxy (m : manager) (ctx : option request_context) (now : Z) (r : rng)
  : locked_call string manager :=
  if lock_held m then Deadlocked m
  else match get_proxy_body m ctx now r with
       | Picked url m' => Returned url m'
       | Retry m' => Deadlocked (set_lock m' true)
       end.

(** The body of [record_success] ([response_time] is Optional[float];
    [if response_time:] is false for None and for 0). *)
Definition record_success_body (m : manager) (p : string) (rt : option Q) (now : Z) : manager :=
  let st := stats_of m p in
  let avg := match rt with
             | Some t => if Qeq_bool t 0 then avg_response_time st
                         else if Qeq_bool (avg_response_time st) 0 then t
                         else ((avg_response_time st + t) / 2)%Q
             | None => avg_response_time st
             end in
  set_stats m p (mkStats (requests st) (successes st + 1) (failures st) (bot_detections st)
                         (last_used st) (Some now) (last_failure st) avg None 0
                         (Qmin 100 (walmart_score st + 5))).

(** The body of [record_failure]. *)
Definition record_failure_body (m : manager) (p : string) (is_bot_detection : bool) (now : Z)
  : manager :=
  let st := stats_of m p in
  let failures' := failures st + 1 in
  let consec := consecutive_failures st + 1 in
  if is_bot_detection then
    let bd := bot_detections st + 1 in
    let m1 := set_stats m p (mkStats (requests st) (successes st) failures' bd
                (last_used st) (last_success st) (Some now) (avg_response_time st)
                (Some (now + 60 * 30)) consec (Qmax (-50) (walmart_score st - 20))) in
    if decide (bd >= 3) then set_blocked m1 ({[p]} ∪ walmart_blocked_ips m1) else m1
  else
    let cd := if decide (consec >= 3) then 15 else if decide (consec >= 2) then 5 else 1 in
    set_stats m p (mkStats (requests st) (successes st) failures' (bot_detections st)
                (last_used st) (last_success st) (Some now) (avg_response_time st)
                (Some (now + 60 * cd)) consec (Qmax (-20) (walmart_score st - 5))).

(** The public methods, each under [with self.lock]. *)
Inductive op :=
  | OpGetProxy (ctx : option request_context) (now : Z) (r : rng)
  | OpRecordSuccess (p : string) (rt : option Q) (now : Z)
  | OpRecordFailure (p : string) (is_bot_detection : bool) (now : Z).

(** A sequence of calls: the answers of the [get_proxy] calls ([None]
    for a call that never returns) and the final manager. *)
Fixpoint run_ops (m : manager) (ops : list op) : list (option string) * manager :=
  match ops with
  | [] => ([], m)
  | OpGetProxy ctx now r :: ops' =>
      match get_proxy m ctx now r with
      | Returned url m' => let '(outs, mf) := run_ops m' ops' in (Some url :: outs, mf)
      | Deadlocked m' => let '(outs, mf) := run_ops m' ops' in (None :: outs, mf)
      end
  | OpRecordSuccess p rt now :: ops' =>
      if lock_held m then run_ops m ops' else run_ops (record_success_body m p rt now) ops'
  | OpRecordFailure p b now :: ops' =>
      if lock_held m then run_ops m ops' else run_ops (record_failure_body m p b now) ops'
  end.

End EnhancedPM.

(* ===================================================================== *)
(** * 4. AdaptiveProxyManager (src/helpers/adaptive_proxy_manager.py) *)
(* ===================================================================== *)

Module AdaptivePM.
Import ProxyCommon.

(** One entry of [proxy_stats] ([session_data] and [success_patterns]
    are never read or written by the methods modelled here).
    [base_score] is the optional key set by [_load_proxies]. *)
Record stats := mkStats {
  requests : Z;
  successes : Z;
  failures : Z;
  bot_detections : Z;
  last_used : option Z;
  last_success : option Z;
  last_failure : option Z;
  avg_response_time : Q;
  cooldown_until : option Z;
  base_score : option Q
}.

Definition default_stats : stats :=
  mkStats 0 0 0 0 None None None 0 None None.

(** The value of [details.get("location", {})]: a dict, with its
    ["countryCode"] entry (a missing key gives the empty dict), or any
    other value, such as the [None] that validate_proxies_walmart.py
    writes for a proxy it could not locate. *)
Inductive location := LocDict (country_code : option string) | LocNotDict.

#[global] Instance location_eq_dec : EqDecision location.
Proof. solve_decision. Defined.

(** The fields of [proxy_details[proxy]] that are read
    ([walmart_score] and [latency_ms] hold numbers or [None], as
    validate_proxies_walmart.py writes them). *)
Record details := mkDetails {
  d_walmart_score : option Q;
  d_location : location;
  d_latency_ms : option Q
}.

Definition no_details : details := mkDetails None (LocDict None) None.

(** [location.get("countryCode") == "US"]; [None]: [.get] raised
    [AttributeError] on a location that is not a dict. *)
Definition location_is_us (l : location) : option bool :=
  match l with
  | LocDict cc => Some (bool_decide (cc = Some "US"%string))
  | LocNotDict => None
  end.

(** [global_patterns]; [successful_times] is keyed by the hour of day. *)
Record patterns := mkPatterns {
  successful_user_agents : gmap string Z;
  successful_times : gmap Z Z;
  successful_request_intervals : list Z
}.

Record manager := mkManager {
  proxies : list string;
  proxy_details : gmap string details;
  proxy_stats : gmap string stats;
  subnet_usage : gmap string Z;
  last_subnet_reset : Z;
  global_patterns : patterns
}.

Definition stats_of (m : manager) (p : string) : stats :=
  default default_stats (proxy_stats m !! p).

Definition details_of (m : manager) (p : string) : details :=
  default no_details (proxy_details m !! p).

Definition with_stats (m : manager) (ps : gmap string stats) : manager :=
  mkManager (proxies m) (proxy_details m) ps (subnet_usage m) (last_subnet_reset m)
            (global_patterns m).

Definition set_stats (m : manager) (p : string) (st : stats) : manager :=
  with_stats m (<[p := st]> (proxy_stats m)).

(** [str.split(sep)] for a non-empty [sep]. *)
Fixpoint split_fuel (fuel : nat) (sep s : string) : list string :=
  match fuel with
  | O => [s]
  | S f =>
      match s with
      | EmptyString => [EmptyString]
      | String c s' =>
          if String.prefix sep s
          then EmptyString :: split_fuel f sep (String.substring (String.length sep) (String.length s) s)
          else match split_fuel f sep s' with
               | x :: xs => String c x :: xs
               | [] => [String c EmptyString]
               end
      end
  end.

Definition split (s sep : string) : list string := split_fuel (S (String.length s)) sep s.

(** [_get_subnet]; an [IndexError] is caught and gives ["unknown"]. *)
Definition _get_subnet (p : string) : string :=
  let ip := default EmptyString (head (split (default EmptyString (last (split p "://"))) ":")) in
  match split ip "." with
  | a :: b :: c :: _ => (a +:+ "." +:+ b +:+ "." +:+ c)%string
  | _ => "unknown"%string
  end.

(** [_calculate_dynamic_score] at time [now] (seconds); [None]: it
    raised [AttributeError] (the location is not a dict). *)
Definition _calculate_dynamic_score (m : manager) (p : string) (now : Z) : option Q :=
  let st := stats_of m p in
  let d := details_of m p in
  let s0 := match base_score st with
            | Some b => b
            | None => default 0%Q (d_walmart_score d)
            end in
  let s1 := if decide (requests st > 0) then
              let s := (s0 + inject_Z (successes st) / inject_Z (requests st) * 10)%Q in
              if decide (bot_detections st > 0)
              then (s - inject_Z (bot_detections st) / inject_Z (requests st) * 20)%Q
              else s
            else s0 in
  let s2 := match last_success st with
            | Some t => let hours := (inject_Z (now - t) / 3600)%Q in
                        if Qlt_le_dec hours 1 then (s1 + 5)%Q
                        else if Qlt_le_dec hours 6 then (s1 + 2)%Q else s1
            | None => s1
            end in
  match location_is_us (d_location d) with
  | None => None
  | Some us =>
      let s3 := if us then (s2 + 3)%Q else s2 in
      let s4 := match d_latency_ms d with
                | Some l => if Qeq_bool l 0 then s3
                            else if Qlt_le_dec 2000 l then (s3 - 3)%Q
                            else if Qlt_le_dec l 500 then (s3 + 2)%Q else s3
                | None => s3
                end in
      Some (Qmax 0 s4)
  end.

(** [x in y] for strings. *)
Definition str_contains (needle hay : string) : bool :=
  match String.index 0 needle hay with Some _ => true | None => false end.

(** What one iteration of the loop of [get_proxy] does with a proxy. *)
Inductive scan := Skip | Raise | Cand (x : string * Q).

(** One proxy of the loop of [get_proxy]: skipped, a candidate
    [(proxy, score)], or [AttributeError] raised while scoring it. *)
Definition scan_proxy (m : manager) (ctx : option request_context) (now : Z) (p : string)
  : scan :=
  let st := stats_of m p in
  let cooling := match cooldown_until st with Some t => bool_decide (now < t) | None => false end in
  let too_recent := match last_used st with
                    | Some t => let min_interval := if decide (successes st > failures st) then 2 else 10 in
                                bool_decide (now - t < min_interval)
                    | None => false end in
  if cooling then Skip
  else if too_recent then Skip
  else
    match _calculate_dynamic_score m p now with
    | None => Raise
    | Some ds =>
        let sc := (ds - inject_Z (default 0%Z (subnet_usage m !! _get_subnet p) * 2)%Z)%Q in
        match ctx with
        | Some c =>
            if ctx_truthy ctx then
              (* the location is a dict here: scoring read it *)
              let sc := if str_contains "product" (default EmptyString (ctx_url_type c))
                           && bool_decide (d_location (details_of m p) = LocDict (Some "US"%string))
                        then (sc + 5)%Q else sc in
              if bool_decide (ctx_retry c > 0) && bool_decide (Some p = ctx_last_proxy c)
              then Skip else Cand (p, sc)
            else Cand (p, sc)
        | None => Cand (p, sc)
        end
    end.

Definition candidate (m : manager) (ctx : option request_context) (now : Z) (p : string)
  : option (string * Q) :=
  match scan_proxy m ctx now p with Cand x => Some x | _ => None end.

(** Whether the loop raises: some listed proxy gets to its scoring and
    [_calculate_dynamic_score] raises. *)
Definition loop_raises (m : manager) (ctx : option request_context) (now : Z) : bool :=
  existsb (fun p => match scan_proxy m ctx now p with Raise => true | _ => false end)
          (proxies m).

Definition available_proxies (m : manager) (ctx : option request_context) (now : Z)
  : list (string * Q) :=
  omap (candidate m ctx now) (proxies m).

(** The periodic reset of [subnet_usage]. *)
Definition reset_subnets (m : manager) (now : Z) : manager :=
  if decide (now - last_subnet_reset m > 3600)
  then mkManager (proxies m) (proxy_details m) (proxy_stats m) ∅ now (global_patterns m)
  else m.

(** The emergency reset: [cooldown_until = None] for every listed proxy. *)
Definition clear_cooldowns (m : manager) : manager :=
  fold_left (fun acc p =>
    let st := stats_of acc p in
    set_stats acc p (mkStats (requests st) (successes st) (failures st) (bot_detections st)
                             (last_used st) (last_success st) (last_failure st)
                             (avg_response_time st) None (base_score st)))
    (proxies m) m.

(** The outcome of a [get_proxy] call: it returns an [Optional[str]],
    or it raises [AttributeError]. *)
Inductive py_result := PyReturn (o : option string) | PyAttributeError.

(** [get_proxy].  The loop changes no state before it raises (its
    [defaultdict] reads insert default entries only), so a raise leaves
    the manager as the subnet reset made it; the [with] block releases
    the lock. *)
Definition get_proxy (m0 : manager) (ctx : option request_context) (now : Z) (r : rng)
  : py_result * manager :=
  let m := reset_subnets m0 now in
  if loop_raises m ctx now then (PyAttributeError, m) else
  match available_proxies m ctx now with
  | [] => let m' := clear_cooldowns m in (PyReturn (choice r (proxies m')), m')
  | (first :: _) as avail =>
      let sorted := sort_desc snd avail in
      let selected :=
        if rnd_below_02 r && bool_decide (5 < length sorted)%nat
        then fst (default first (choice r (take 5 sorted)))
        else fst (default first (head sorted)) in
      let st := stats_of m selected in
      let m1 := set_stats m selected
                  (mkStats (requests st + 1) (successes st) (failures st) (bot_detections st)
                           (Some now) (last_success st) (last_failure st)
                           (avg_response_time st) (cooldown_until st) (base_score st)) in
      let sn := _get_subnet selected in
      (PyReturn (Some selected),
       mkManager (proxies m1) (proxy_details m1) (proxy_stats m1)
                 (<[sn := default 0 (subnet_usage m1 !! sn) + 1]> (subnet_usage m1))
                 (last_subnet_reset m1) (global_patterns m1))
  end.

(** [record_success]; [now / 3600 mod 24] is the hour of day. *)
Definition record_success (m : manager) (p : string) (rt : option Q) (ua : option string) (now : Z)
  : manager :=
  let st := stats_of m p in
  let avg := match rt with
             | Some t => if Qeq_bool t 0 then avg_response_time st
                         else if Qeq_bool (avg_response_time st) 0 then t
                         else ((avg_response_time st + t) / 2)%Q
             | None => avg_response_time st
             end in
  let st' := mkStats (requests st) (successes st + 1) (failures st) (bot_detections st)
                     (last_used st) (Some now) (last_failure st) avg None (base_score st) in
  let g := global_patterns m in
  let uas := match ua with
             | Some u => if decide (u = EmptyString) then successful_user_agents g
                         else <[u := default 0 (successful_user_agents g !! u) + 1]>
                                (successful_user_agents g)
             | None => successful_user_agents g
             end in
  let hr := (now / 3600) mod 24 in
  let times := <[hr := default 0 (successful_times g !! hr) + 1]> (successful_times g) in
  let ivs := match last_used st with
             | Some t => let l := successful_request_intervals g ++ [now - t] in
                         if bool_decide (1000 < length l)%nat then drop (length l - 1000) l else l
             | None => successful_request_intervals g
             end in
  mkManager (proxies m) (proxy_details m) (<[p := st']> (proxy_stats m))
            (subnet_usage m) (last_subnet_reset m) (mkPatterns uas times ivs).

(** The cooldown, in minutes, chosen by [record_failure]. *)
Definition cooldown_minutes (st : stats) (bot_detected : bool) : Z :=
  if bot_detected then Z.min 60 (10 * bot_detections st ^ 2)
  else
    let rate := (inject_Z (failures st) / inject_Z (Z.max (requests st) 1))%Q in
    if Qlt_le_dec (8 # 10) rate then 30
    else if Qlt_le_dec (5 # 10) rate then 10 else 2.

(** [record_failure] ([error_type] is not read). *)
Definition record_failure (m : manager) (p : string) (error_type : string) (bot_detected : bool)
  (now : Z) : manager :=
  let st := stats_of m p in
  let st1 := mkStats (requests st) (successes st) (failures st + 1)
                     (if bot_detected then bot_detections st + 1 else bot_detections st)
                     (last_used st) (last_success st) (Some now) (avg_response_time st)
                     (cooldown_until st) (base_score st) in
  set_stats m p (mkStats (requests st1) (successes st1) (failures st1) (bot_detections st1)
                         (last_used st1) (last_success st1) (last_failure st1)
                         (avg_response_time st1)
                         (Some (now + 60 * cooldown_minutes st1 bot_detected)) (base_score st1)).

End AdaptivePM.

(* ===================================================================== *)
(** * 5. The browser pools of the two browser middlewares
    (src/enhanced_middleware.py, src/hybrid_browser_middleware.py) *)
(* ===================================================================== *)

Module BrowserPool.

(** A [browser_info] dict; [session_id] stands for the driver session
    (a fresh one for each created browser). *)
Record browser_info := mkBrowser {
  session_id : nat;
  bproxy : string;
  warmed_up : bool;
  request_count : Z
}.

(** The pool: [browser_pool] ([queue.Queue(maxsize=pool_size)], FIFO),
    the browsers checked out by requests, the creation threads still
    running ([(index, proxy)]), and the source of fresh sessions. *)
Record pool := mkPool {
  pool_size : nat;
  pool_queue : list browser_info;
  in_use : list browser_info;
  creating : list (nat * string);
  next_session : nat
}.

Inductive middleware := Enhanced | Hybrid.

(** The exceptions a request can end with. *)
Inductive exc := BotDetectionError | TypeError | OtherError.

Inductive outcome := Success | Failed (e : exc).

(** [result.check(BotDetectionError)] *)
Definition is_bot (res : outcome) : bool :=
  match res with Failed BotDetectionError => true | _ => false end.

Definition total (p : pool) : nat :=
  length (pool_queue p) + length (in_use p) + length (creating p).

(** [self.browser_pool.put(browser_info)]: a full queue makes the caller
    wait, so the step does not happen. *)
Definition put (p : pool) (b : browser_info) : option pool :=
  if bool_decide (length (pool_queue p) < pool_size p)%nat
  then Some (mkPool (pool_size p) (pool_queue p ++ [b]) (in_use p) (creating p) (next_session p))
  else None.

(** [threading.Thread(target=self._create_..._browser, args=(index, proxy)).start()] *)
Definition spawn (p : pool) (index : nat) (proxy : string) : pool :=
  mkPool (pool_size p) (pool_queue p) (in_use p) (creating p ++ [(index, proxy)]) (next_session p).

(** The k-th creation thread ends: with a driver, its new browser is put
    in the queue; otherwise the exception is logged and nothing is put. *)
Definition creation_done (p : pool) (k : nat) (ok : bool) : option pool :=
  match creating p !! k with
  | None => None
  | Some (_, proxy) =>
      let p1 := mkPool (pool_size p) (pool_queue p) (in_use p)
                       (delete k (creating p)) (S (next_session p)) in
      if ok then put p1 (mkBrowser (next_session p) proxy false 0) else Some p1
  end.

(** [process_request]: [self.browser_pool.get()] and, in the enhanced
    middleware, the proxy rotation ([new_proxy] is what
    [get_proxy(context)] returned, [driver_ok] whether the new driver
    was created) and [request_count += 1]. *)
Definition acquire (mw : middleware) (p : pool) (retry_count : Z) (new_proxy : option string)
  (driver_ok : bool) : option (browser_info * pool) :=
  match pool_queue p with
  | [] => None
  | b :: q =>
      let b' := match mw with
                | Hybrid => b
                | Enhanced =>
                    let b1 := if bool_decide (request_count b > 10) || bool_decide (retry_count > 0)
                              then match new_proxy with
                                   | Some np => if bool_decide (np <> bproxy b) && driver_ok
                                                then mkBrowser (session_id b) np false 0 else b
                                   | None => b
                                   end
                              else b in
                    mkBrowser (session_id b1) (bproxy b1) (warmed_up b1) (request_count b1 + 1)
                end in
      Some (b', mkPool (pool_size p) q (in_use p ++ [b']) (creating p) (next_session p))
  end.

(** [_release_enhanced_browser], on a pool the browser has left. *)
Definition _release_enhanced_browser (p : pool) (res : outcome) (b : browser_info)
  (index : nat) (new_proxy : string) : option pool :=
  match res with
  | Failed _ =>
      let b := if is_bot res then mkBrowser (session_id b) (bproxy b) false 0 else b in
      if bool_decide (request_count b > 100) || is_bot res
      then Some (spawn p index new_proxy)
      else put p b
  | Success => put p b
  end.

(** [_return_browser] of the hybrid middleware. *)
Definition _return_browser (p : pool) (res : outcome) (b : browser_info) : option pool :=
  put p b.

(** The release callback of the [k]-th checked-out browser (the
    callback receives the [browser_info] object itself). *)
Definition release (mw : middleware) (p : pool) (k : nat) (res : outcome)
  (index : nat) (new_proxy : string) : option pool :=
  match in_use p !! k with
  | None => None
  | Some b =>
      let p1 := mkPool (pool_size p) (pool_queue p) (delete k (in_use p)) (creating p)
                       (next_session p) in
      match mw with
      | Enhanced => _release_enhanced_browser p1 res b index new_proxy
      | Hybrid => _return_browser p1 res b
      end
  end.

(** What the threads of the middleware can do next. *)
Inductive event :=
  | EvCreated (k : nat) (ok : bool)
  | EvAcquire (retry_count : Z) (new_proxy : option string) (driver_ok : bool)
  | EvRelease (k : nat) (res : outcome) (index : nat) (new_proxy : string).

Definition pstep (mw : middleware) (p : pool) (ev : event) : option pool :=
  match ev with
  | EvCreated k ok => creation_done p k ok
  | EvAcquire rc np ok => snd <$> acquire mw p rc np ok
  | EvRelease k res index np => release mw p k res index np
  end.

(** A schedule of events; an event that cannot happen now is skipped. *)
Fixpoint prun (mw : middleware) (p : pool) (evs : list event) : pool :=
  match evs with
  | [] => p
  | ev :: evs' => prun mw (default p (pstep mw p ev)) evs'
  end.

(** [spider_opened] of the enhanced middleware: [BROWSER_POOL_SIZE]
    creation threads, the i-th with the proxy [proxy_of i]. *)
Definition enhanced_opened (size : nat) (proxy_of : nat -> string) : pool :=
  mkPool size [] [] (map (fun i => (i, proxy_of i)) (seq 0 size)) 0.

(** [spider_opened] of the hybrid middleware: one creation thread per
    proxy, and [browser_pool_size = len(self.proxies)]. *)
Definition hybrid_opened (proxies : list string) : pool :=
  mkPool (length proxies) [] [] (zip (seq 0 (length proxies)) proxies) 0.

End BrowserPool.

(* ===================================================================== *)
(** * 6. One request through a browser middleware and Scrapy's
    RetryMiddleware (src/scrapy_settings.py: [RETRY_EXCEPTIONS]) *)
(* ===================================================================== *)

Module RequestFlow.
Import ProxyCommon BrowserPool.

(** What the browser finds when it loads the page: the content, a bot
    detection page ([_check_bot_detection] is true, and for the hybrid
    middleware the CAPTCHA solver does not unlock it), or an error of
    the driver. *)
Inductive page := PageOk | PageBot | PageBroken.

(** [isinstance(exception, RETRY_EXCEPTIONS)] for the exceptions above. *)
Definition retry_exception (e : exc) : bool :=
  match e with BotDetectionError => true | TypeError | OtherError => false end.

(** RetryMiddleware: [retry_times = meta.get('retry_times', 0) + 1] and a
    retry when [retry_times <= max_retry_times], unless [dont_retry]. *)
Definition should_retry (dont_retry : bool) (retry_times max_retry_times : Z) (res : outcome) : bool :=
  match res with
  | Failed e => negb dont_retry && retry_exception e && bool_decide (retry_times < max_retry_times)
  | Success => false
  end.

(** [_execute_request] of the hybrid middleware. *)
Definition hybrid_execute (pg : page) : outcome :=
  match pg with
  | PageOk => Success
  | PageBot => Failed BotDetectionError
  | PageBroken => Failed OtherError
  end.

(** Python's binding of a keyword argument of
    [EnhancedProxyManager.record_failure(self, proxy, is_bot_detection=False)]:
    any other keyword raises [TypeError]. *)
Definition call_record_failure_kw (m : EnhancedPM.manager) (proxy : string) (kw : string)
  (v : bool) (now : Z) : option EnhancedPM.manager :=
  if decide (kw = "is_bot_detection"%string)
  then Some (EnhancedPM.record_failure_body m proxy v now) else None.

(** [_execute_enhanced_request]: the outcome and the proxy manager after
    it ([rt] is the measured response time). *)
Definition _execute_enhanced_request (m : EnhancedPM.manager) (b : browser_info) (pg : page)
  (rt : Q) (now : Z) : outcome * EnhancedPM.manager :=
  match pg with
  | PageOk => (Success, EnhancedPM.record_success_body m (bproxy b) (Some rt) now)
  | PageBot =>
      (* self.proxy_manager.record_failure(proxy, bot_detected=True) *)
      match call_record_failure_kw m (bproxy b) "bot_detected" true now with
      | Some m' => (Failed BotDetectionError, m')
      | None =>
          (* the TypeError reaches [except Exception]: a plain failure is
             recorded and the TypeError is raised again *)
          (Failed TypeError, EnhancedPM.record_failure_body m (bproxy b) false now)
      end
  | PageBroken => (Failed OtherError, EnhancedPM.record_failure_body m (bproxy b) false now)
  end.

(** A request through the hybrid middleware and its retries: the
    [(session, proxy)] of each attempt, and the pool after them.
    [pages] lists what each attempt finds. *)
Fixpoint hybrid_attempts (p : pool) (pages : list page) (dont_retry : bool)
  (retry_times max_retry_times : Z) : list (nat * string) * pool :=
  match pages with
  | [] => ([], p)
  | pg :: pgs =>
      match acquire Hybrid p 0 None false with
      | None => ([], p)
      | Some (b, p1) =>
          let res := hybrid_execute pg in
          let p2 := default p1 (release Hybrid p1 (length (in_use p)) res 0 EmptyString) in
          if should_retry dont_retry retry_times max_retry_times res then
            let '(rest, p3) := hybrid_attempts p2 pgs dont_retry (retry_times + 1) max_retry_times in
            ((session_id b, bproxy b) :: rest, p3)
          else ([(session_id b, bproxy b)], p2)
      end
  end.

(** The hybrid pool with one proxy ["P"], after its browser was created. *)
Definition c5_pool : pool := prun Hybrid (hybrid_opened ["P"%string]) [EvCreated 0 true].

End RequestFlow.

(* ===================================================================== *)
(** * Concrete managers used as inputs below *)
(* ===================================================================== *)

Module Scenarios.
Import ProxyCommon.

(** An enhanced manager with the single residential proxy ["P"] and no
    statistics yet. *)
Definition enhanced_one : EnhancedPM.manager :=
  EnhancedPM.mkManager [EnhancedPM.mkInfo "P" None None] [] [] ∅ ∅ false.

(** An enhanced manager with the residential proxies ["P"] and ["Q"]. *)
Definition enhanced_pair : EnhancedPM.manager :=
  EnhancedPM.mkManager [EnhancedPM.mkInfo "P" None None; EnhancedPM.mkInfo "Q" None None]
                       [] [] ∅ ∅ false.

(** The pair after two bot detections of ["P"]. *)
Definition enhanced_pair_two_detections : EnhancedPM.manager :=
  EnhancedPM.record_failure_body (EnhancedPM.record_failure_body enhanced_pair "P" true 0) "P" true 10.

(** The enhanced manager whose only proxy ["P"] is in cooldown until 100. *)
Definition enhanced_cooling : EnhancedPM.manager :=
  EnhancedPM.set_stats enhanced_one "P"
    (EnhancedPM.mkStats 1 0 1 0 (Some 0) None (Some 0) 0 (Some 100) 1 0).

(** An adaptive manager with the single proxy ["P"]. *)
Definition adaptive_one : AdaptivePM.manager :=
  AdaptivePM.mkManager ["P"%string] ∅ ∅ ∅ 0 (AdaptivePM.mkPatterns ∅ ∅ []).

(** An adaptive manager with the proxies ["P"] and ["Q"]. *)
Definition adaptive_pair : AdaptivePM.manager :=
  AdaptivePM.mkManager ["P"%string; "Q"%string] ∅ ∅ ∅ 0 (AdaptivePM.mkPatterns ∅ ∅ []).

(** The adaptive manager whose only proxy ["P"] is in cooldown until 100. *)
Definition adaptive_cooling : AdaptivePM.manager :=
  AdaptivePM.set_stats adaptive_one "P"
    (AdaptivePM.mkStats 1 0 1 0 (Some 0) None (Some 0) 0 (Some 100) None).

(** An adaptive manager whose only proxy ["P"] has the record
    [{"proxy": "P", "location": null}] in [proxy_details]. *)
Definition adaptive_null_location : AdaptivePM.manager :=
  AdaptivePM.mkManager ["P"%string]
    {[ "P"%string := AdaptivePM.mkDetails None AdaptivePM.LocNotDict None ]}
    ∅ ∅ 0 (AdaptivePM.mkPatterns ∅ ∅ []).

(** The context of a retry whose previous attempt used ["P"]. *)
Definition retry_ctx : request_context := mkCtx (Some "product"%string) (Some 1) (Some "P"%string) 1.

Definition rng0 : rng := mkRng false 0.

End Scenarios.

(* ===================================================================== *)
(** * 7. Counting requests in flight in the parallel store spider *)
(* ===================================================================== *)

Module SpiderCounting.
Import ParallelSpider.

(** The number of entries of [l] that satisfy [f]. *)
Definition count_by (f : request -> bool) (l : list request) : nat :=
  length (List.filter f l).

Definition is_store_req (r : request) : bool :=
  match r with StoreReq _ => true | CatReq _ _ _ => false end.

Definition is_store_of (s : store_id) (r : request) : bool :=
  match r with StoreReq s' => bool_decide (s' = s) | CatReq _ _ _ => false end.

Definition is_cat_of (s : store_id) (r : request) : bool :=
  match r with StoreReq _ => false | CatReq s' _ _ => bool_decide (s' = s) end.

(** Whether an event delivers a category page of store [s] whose
    [parse_category] raised. *)
Definition raised_page_of (s : store_id) (e : event) : bool :=
  match e with
  | Deliver (CatReq s' _ _) (RCatPage Raises) => bool_decide (s' = s)
  | _ => false
  end.

(** The number of such pages delivered in a run. *)
Definition raised_pages (s : store_id) (es : list event) : nat :=
  length (List.filter (raised_page_of s) es).

(** The bookkeeping of a world, [g s] being the number of category pages
    of store [s] whose [parse_category] raised: [active_stores] counts
    the store-page requests in flight and the stores in
    [store_category_status]; each store has at most one store-page
    request in flight; a store in [store_category_status] with counter
    [k] has [k - g s] category requests in flight, and a store out of it
    has none and no raised page. *)
Definition spider_inv (g : store_id -> nat) (w : world) : Prop :=
  let sp := wsp w in
  let out := outstanding w in
  active_stores sp = Z.of_nat (count_by is_store_req out) + Z.of_nat (size (store_category_status sp)) /\
  (forall s, (count_by (is_store_of s) out <= 1)%nat) /\
  (forall s, In (StoreReq s) out -> s ∈ processed_stores sp /\ store_category_status sp !! s = None) /\
  (forall s k, store_category_status sp !! s = Some k ->
     s ∈ processed_stores sp /\ k = Z.of_nat (count_by (is_cat_of s) out + g s)) /\
  (forall s, store_category_status sp !! s = None ->
     count_by (is_cat_of s) out = 0%nat /\ g s = 0%nat).

(** The world after the first store page of a run over two stores and
    two categories with one parallel slot. *)
Definition spider_w1 : world :=
  default (start_world 1 ["A"; "B"] ["c1"; "c2"])
    (wrun (start_world 1 ["A"; "B"] ["c1"; "c2"]) [Deliver (StoreReq "A") (RStorePage true)]).

(** The same run, followed by a first page of [c1] whose
    [parse_category] raises. *)
Definition spider_events2 : list event :=
  [Deliver (StoreReq "A") (RStorePage true); Deliver (CatReq "A" "c1" 1) (RCatPage Raises)].

Definition spider_w2 : world :=
  default (start_world 1 ["A"; "B"] ["c1"; "c2"])
    (wrun (start_world 1 ["A"; "B"] ["c1"; "c2"]) spider_events2).

End SpiderCounting.

(* ===================================================================== *)
(** * More concrete enhanced managers *)
(* ===================================================================== *)

Module EnhancedScenarios.
Import ProxyCommon Scenarios.

(** The pair after three ordinary failures of ["P"]. *)
Definition enhanced_pair_three_failures : EnhancedPM.manager :=
  EnhancedPM.record_failure_body
    (EnhancedPM.record_failure_body
       (EnhancedPM.record_failure_body enhanced_pair "P" false 0) "P" false 100) "P" false 1000.

(** Every [walmart_score] lies in [[-50, 100]], the range [record_success]
    and [record_failure] clamp it to. *)
Definition score_bounded (m : EnhancedPM.manager) : Prop :=
  forall q, (-50 <= EnhancedPM.walmart_score (EnhancedPM.stats_of m q) <= 100)%Q.

End EnhancedScenarios.

(* ===================================================================== *)
(** * 8. ProxyManager (src/helpers/helpers.py) *)
(* ===================================================================== *)

Module HelpersPM.
Import ProxyCommon.

(** [helpers.ProxyManager]: the listed proxy URLs in priority order, the
    [quality_score] of each loaded proxy object of [proxy_by_url] (with
    its default 0 applied), the dynamic scores and the failed set. *)
Record manager := mkManager {
  proxies : list string;
  proxy_by_url : gmap string Q;
  proxy_scores : gmap string Q;
  failed_proxies : gset string
}.

Definition set_scores (m : manager) (sc : gmap string Q) : manager :=
  mkManager (proxies m) (proxy_by_url m) sc (failed_proxies m).

(** [[(url, self.proxy_scores.get(url, 0)) for url in self.proxies if url not in self.failed_proxies]] *)
Definition available (m : manager) : list (string * Q) :=
  map (fun url => (url, default 0%Q (proxy_scores m !! url)))
      (filter (fun url => url ∉ failed_proxies m) (proxies m)).

(** The loop [self.proxy_scores[url] = self.proxy_by_url[url].get("quality_score", 0)];
    [None] is the [KeyError] of a URL missing from [proxy_by_url]. *)
Fixpoint reset_scores (by_url : gmap string Q) (urls : list string) (sc : gmap string Q)
  : option (gmap string Q) :=
  match urls with
  | [] => Some sc
  | u :: us => match by_url !! u with
               | Some q => reset_scores by_url us (<[u := q]> sc)
               | None => None
               end
  end.

(** [get_proxy]: [None] is a [KeyError]; otherwise the returned URL (or
    [None]) and the new state. *)
Definition get_proxy (m : manager) : option (option string * manager) :=
  let step :=
    match available m with
    | [] =>
        match reset_scores (proxy_by_url m) (proxies m) (proxy_scores m) with
        | Some sc => Some (map (fun url => (url, default 0%Q (sc !! url))) (proxies m),
                           mkManager (proxies m) (proxy_by_url m) sc ∅)
        | None => None
        end
    | avail => Some (avail, m)
    end in
  match step with
  | None => None
  | Some (avail, m1) =>
      match head (sort_desc snd avail) with
      | None => Some (None, m1)
      | Some (best, _) =>
          match proxy_scores m1 !! best with
          | Some s => Some (Some best, set_scores m1 (<[best := Qmax 0 (s - (1 # 10))%Q]> (proxy_scores m1)))
          | None => None
          end
      end
  end.

Definition record_failure (m : manager) (p : string) : manager :=
  mkManager (proxies m) (proxy_by_url m)
            (<[p := Qmax (-10) (default 0%Q (proxy_scores m !! p) - 5)]> (proxy_scores m))
            ({[p]} ∪ failed_proxies m).

Definition record_success (m : manager) (p : string) : manager :=
  mkManager (proxies m) (proxy_by_url m)
            (<[p := (default 0%Q (proxy_scores m !! p) + 2)%Q]> (proxy_scores m))
            (failed_proxies m ∖ {[p]}).

(** The weighted loop of [get_random_proxy]: the first proxy whose
    running weight reaches the draw. *)
Fixpoint pick_weighted (r upto : Q) (l : list (string * Q)) : option string :=
  match l with
  | [] => None
  | (p, w) :: l' => if Qle_bool r (upto + w) then Some p else pick_weighted r (upto + w)%Q l'
  end.

Definition weights (m : manager) (avail : list string) : list Q :=
  map (fun p => Qmax 1 (default 1%Q (proxy_scores m !! p))) avail.

(** [get_random_proxy] for the draws [random.choice] ([rc]) and
    [random.uniform(0, total_weight)] ([r]). *)
Definition get_random_proxy (m : manager) (rc : rng) (r : Q) : option string :=
  let avail := filter (fun p => p ∉ failed_proxies m) (proxies m) in
  match avail with
  | [] => None
  | _ =>
      let ws := weights m avail in
      let total := fold_left Qplus ws 0%Q in
      if Qeq_bool total 0 then choice rc avail
      else match pick_weighted r 0 (zip avail ws) with
           | Some p => Some p
           | None => last avail
           end
  end.

(** [get_random_proxy_dict]: the proxy put under both keys, if
    [proxy and proxy not in self.failed_proxies]. *)
Definition get_random_proxy_dict (m : manager) (rc : rng) (r : Q) : option string :=
  match get_random_proxy m rc r with
  | Some p => if decide (p <> EmptyString /\ p ∉ failed_proxies m) then Some p else None
  | None => None
  end.

(** ["working_proxies"] of [get_stats]. *)
Definition working_proxies (m : manager) : Z :=
  Z.of_nat (length (proxies m)) - Z.of_nat (size (failed_proxies m)).

(** The public methods. *)
Inductive op := OpGetProxy | OpRecordFailure (p : string) | OpRecordSuccess (p : string).

(** A sequence of calls: the answers of [get_proxy], or [None] if one
    raises. *)
Fixpoint run_ops (m : manager) (ops : list op) : option (list (option string) * manager) :=
  match ops with
  | [] => Some ([], m)
  | OpGetProxy :: ops' =>
      match get_proxy m with
      | Some (o, m') => match run_ops m' ops' with
                        | Some (outs, mf) => Some (o :: outs, mf)
                        | None => None
                        end
      | None => None
      end
  | OpRecordFailure p :: ops' => run_ops (record_failure m p) ops'
  | OpRecordSuccess p :: ops' => run_ops (record_success m p) ops'
  end.

(** Example states: two proxies ["a"] and ["b"] of quality 1 and 5. *)
Definition hpm_b_failed : manager :=
  mkManager ["a"; "b"] {[ "a" := 1%Q; "b" := 5%Q ]} {[ "a" := 1%Q; "b" := 5%Q ]} {[ "b" ]}.

Definition hpm_all_failed : manager :=
  mkManager ["a"; "b"] {[ "a" := 1%Q; "b" := 5%Q ]} {[ "a" := (-10)%Q; "b" := (-10)%Q ]} {[ "a"; "b" ]}.

Definition hpm_fresh : manager :=
  mkManager ["a"; "b"] {[ "a" := 1%Q; "b" := 5%Q ]} {[ "a" := 1%Q; "b" := 5%Q ]} ∅.

Definition hpm_weighted : manager := mkManager ["a"; "b"] ∅ {[ "a" := 3%Q ]} ∅.

Definition hpm_a_failed : manager := mkManager ["a"; "b"] ∅ ∅ {[ "a" ]}.

Definition hpm_empty : manager := mkManager [] ∅ ∅ ∅.

(** The first entry of a list is a maximum of it. *)
Definition head_max {A} (f : A -> Q) (l : list A) : Prop :=
  match l with [] => True | a :: l' => Forall (fun y => f y <= f a)%Q l' end.

(** Every listed proxy has a loaded object and a dynamic score. *)
Definition wf (m : manager) : Prop :=
  forall u, In u (proxies m) -> is_Some (proxy_by_url m !! u) /\ is_Some (proxy_scores m !! u).

End HelpersPM.

(* ===================================================================== *)
(** * 9. The unified browser middleware (src/middlewares.py) *)
(* ===================================================================== *)

Module UnifiedMW.
Import ProxyCommon BrowserPool.

(** What [_execute_browser_request] of the unified middleware meets:
    the page, a page with ["robot or human?"] or ["are you a robot"], a
    redirect to a ["/blocked"] URL, or an exception of the driver. *)
Inductive upage := UOk | URobot | UBlockedUrl | UBroken.

(** [_execute_browser_request]: the outcome and the [ProxyManager] of
    [helpers] after it. *)
Definition _execute_browser_request (m : HelpersPM.manager) (b : browser_info) (pg : upage)
  : outcome * HelpersPM.manager :=
  match pg with
  | UOk => (Success, HelpersPM.record_success m (bproxy b))
  | URobot | UBlockedUrl => (Failed BotDetectionError, HelpersPM.record_failure m (bproxy b))
  | UBroken => (Failed OtherError, HelpersPM.record_failure m (bproxy b))
  end.

(** [_release_browser]: a failed request quits its browser and starts a
    creation thread with [self.proxy_manager.get_proxy()] (its [None],
    no proxy, is kept as the empty proxy string, which
    [_create_browser_instance] treats alike); a successful one puts the
    browser back.  [None]: [get_proxy] raised, or the queue is full. *)
Definition _release_browser (p : pool) (m : HelpersPM.manager) (res : outcome)
  (b : browser_info) (replacement_index : nat) : option (pool * HelpersPM.manager) :=
  match res with
  | Failed _ =>
      match HelpersPM.get_proxy m with
      | Some (np, m') => Some (spawn p replacement_index (default EmptyString np), m')
      | None => None
      end
  | Success => (fun p' => (p', m)) <$> put p b
  end.

(** The same callback on the pool alone, for the [k]-th checked-out
    browser and the proxy [np] its replacement gets. *)
Definition unified_release (p : pool) (k : nat) (res : outcome) (replacement_index : nat)
  (np : string) : option pool :=
  match in_use p !! k with
  | None => None
  | Some b =>
      let p1 := mkPool (pool_size p) (pool_queue p) (delete k (in_use p)) (creating p)
                       (next_session p) in
      match res with
      | Failed _ => Some (spawn p1 replacement_index np)
      | Success => put p1 b
      end
  end.

(** One event of the unified middleware: [process_request] takes a
    browser without changing it. *)
Definition unified_pstep (p : pool) (ev : event) : option pool :=
  match ev with
  | EvCreated k ok => creation_done p k ok
  | EvAcquire _ _ _ => snd <$> acquire Hybrid p 0 None false
  | EvRelease k res index np => unified_release p k res index np
  end.

Fixpoint unified_prun (p : pool) (evs : list event) : pool :=
  match evs with
  | [] => p
  | ev :: evs' => unified_prun (default p (unified_pstep p ev)) evs'
  end.

(** [spider_opened]: [browser_pool_size] creation threads, the i-th with
    the proxy [proxy_of i]. *)
Definition unified_opened (size : nat) (proxy_of : nat -> string) : pool :=
  mkPool size [] [] (map (fun i => (i, proxy_of i)) (seq 0 size)) 0.

End UnifiedMW.

(* ===================================================================== *)
(** * 10. The bot-detection checks of the two browser middlewares *)
(* ===================================================================== *)

Module BotCheck.

(** [str.lower] on ASCII text. *)
Definition ascii_lower (c : Ascii.ascii) : Ascii.ascii :=
  let n := Ascii.nat_of_ascii c in
  if (65 <=? n)%nat && (n <=? 90)%nat then Ascii.ascii_of_nat (n + 32) else c.

Fixpoint py_lower (s : string) : string :=
  match s with
  | EmptyString => EmptyString
  | String c s' => String (ascii_lower c) (py_lower s')
  end.

Fixpoint prefixb (p s : string) : bool :=
  match p, s with
  | EmptyString, _ => true
  | String a p', String b s' => Ascii.eqb a b && prefixb p' s'
  | String _ _, EmptyString => false
  end.

(** Python's [sub in s] on strings. *)
Fixpoint py_in (sub s : string) : bool :=
  prefixb sub s || match s with EmptyString => false | String _ s' => py_in sub s' end.

(** What the checks read from the driver: [title], [page_source],
    [current_url], and the two element searches of the enhanced check
    ([Some b]: whether the list found is non-empty; [None]: the search
    raised). *)
Record page := mkPage {
  title : string;
  page_source : string;
  current_url : string;
  px_captcha : option bool;
  press_hold : option bool
}.

(** [_check_bot_detection] of [hybrid_browser_middleware.py]. *)
Definition hybrid_indicators : list string :=
  ["robot or human"; "are you a robot"; "access denied"; "please verify";
   "security check"; "challenge"].

Fixpoint hybrid_loop (inds : list string) (t s url : string) : bool :=
  match inds with
  | [] => false
  | i :: r =>
      if py_in i t || py_in i s then
        if String.eqb i "challenge" && py_in "/ip/" url then hybrid_loop r t s url
        else true
      else hybrid_loop r t s url
  end.

Definition hybrid_check (pg : page) : bool :=
  hybrid_loop hybrid_indicators (py_lower (title pg)) (py_lower (page_source pg))
    (current_url pg).

(** [_check_bot_detection] of [enhanced_middleware.py]; an exception of
    the element searches is swallowed by the inner [try]. *)
Definition enhanced_indicators : list string :=
  ["robot or human"; "are you a robot"; "access denied"; "please verify";
   "unusual traffic"; "suspicious activity"; "bot detection"; "security check";
   "challenge"; "verify you're human"].

Definition enhanced_check (pg : page) : bool :=
  let t := py_lower (title pg) in
  let s := py_lower (page_source pg) in
  let u := py_lower (current_url pg) in
  if existsb (fun i => py_in i t || py_in i s) enhanced_indicators then true
  else if py_in "/blocked" u then true
  else match px_captcha pg with
       | Some true => true
       | Some false => match press_hold pg with Some true => true | _ => false end
       | None => false
       end.

(** A product page whose text mentions a challenge. *)
Definition product_challenge_page : page :=
  mkPage "Challenge Kit - Walmart.com" "<html>board game challenge</html>"
         "https://www.walmart.com/ip/123" (Some false) (Some false).

Definition robot_page : page :=
  mkPage "Robot or human?" "<html></html>" "https://www.walmart.com/blocked" None None.

End BotCheck.

(* ===================================================================== *)
(** * 11. Loading and filtering in EnhancedProxyManager *)
(* ===================================================================== *)

Module EnhancedLoad.
Import BotCheck.

(** The value of a proxy record's ["location"] key: a dict with its
    ["isp"], ["org"] and ["countryCode"] entries, or a value of another
    type ([null], a string, ...).  A missing key reads as [{}], the empty
    dict. *)
Inductive location_val :=
  | LocDict (isp org country_code : option string)
  | LocOther.

(** A proxy record of the JSON files, restricted to the keys that the
    loader and [get_proxy] read; the string fields hold strings when
    present.  [r_ip] and [r_port] are the f-string renderings of
    [proxy_data.get('ip')] and [proxy_data.get('port')]; [r_is_residential]
    is the truth value of [proxy_info.get("is_residential", False)]. *)
Record raw_proxy := mkRaw {
  r_proxy : option string;
  r_ip : string;
  r_port : string;
  r_protocol : option string;
  r_type : option string;
  r_is_residential : bool;
  r_location : location_val;
  r_walmart_score : option Q;
  r_latency_ms : option Q
}.

(** An element of the files' proxy lists: a string, a dict, or a value of
    another type (a number, a list, [null]), on which [.get] raises. *)
Inductive raw_entry := RStr (s : string) | RDict (d : raw_proxy) | ROther.

(** A categorised [proxy_info]: the record with ["proxy"] set, and the
    ["category"] key written after it was appended. *)
Record entry := mkEntry {
  e_url : string;
  e_info : raw_proxy;
  e_category : string
}.

(** The attributes set by [_load_and_categorize_proxies]. *)
Record lstate := mkL {
  residential_proxies : list entry;
  mobile_proxies : list entry;
  datacenter_proxies : list entry;
  all_proxies : list entry;
  proxy_stats : gmap string EnhancedPM.stats
}.

Definition empty_lstate : lstate := mkL [] [] [] [] ∅.

(** [proxy_data.get("proxy") or f"http://{proxy_data.get('ip')}:{proxy_data.get('port')}"] *)
Definition url_of_dict (d : raw_proxy) : string :=
  match r_proxy d with
  | Some u => if String.eqb u "" then ("http://" ++ r_ip d ++ ":" ++ r_port d)%string else u
  | None => ("http://" ++ r_ip d ++ ":" ++ r_port d)%string
  end.

Definition with_proxy (d : raw_proxy) (u : string) : raw_proxy :=
  mkRaw (Some u) (r_ip d) (r_port d) (r_protocol d) (r_type d) (r_is_residential d)
        (r_location d) (r_walmart_score d) (r_latency_ms d).

(** [proxy_info = {"proxy": proxy_url}] *)
Definition str_info (s : string) : raw_proxy :=
  mkRaw (Some s) "None" "None" None None false (LocDict None None None) None None.

(** The first lines of [_categorize_proxy]: [(proxy_url, proxy_info)];
    [None]: [proxy_data.get] raised. *)
Definition proxy_info_of (e : raw_entry) : option (string * raw_proxy) :=
  match e with
  | RStr s => Some (s, str_info s)
  | RDict d => let u := url_of_dict d in Some (u, with_proxy d u)
  | ROther => None
  end.

(** [proxy_info.get("protocol", "http").lower() in ["socks", "socks4", "socks5"]] *)
Definition is_socks (d : raw_proxy) : bool :=
  existsb (String.eqb (py_lower (default "http" (r_protocol d)))) ["socks"; "socks4"; "socks5"].

(** [location.get("isp", "").lower() if isinstance(location, dict) else ""] *)
Definition isp_of (l : location_val) : string :=
  match l with LocDict i _ _ => py_lower (default "" i) | LocOther => "" end.

Definition org_of (l : location_val) : string :=
  match l with LocDict _ o _ => py_lower (default "" o) | LocOther => "" end.

Definition residential_isps : list string :=
  ["comcast"; "verizon"; "at&t"; "spectrum"; "cox"; "charter"; "centurylink"].

Definition mobile_isps : list string := ["t-mobile"; "sprint"; "vodafone"; "orange"].

Definition is_residential (d : raw_proxy) : bool :=
  String.eqb (py_lower (default "" (r_type d))) "residential" || r_is_residential d ||
  existsb (fun r => py_in r (isp_of (r_location d))) residential_isps.

Definition is_mobile (d : raw_proxy) : bool :=
  String.eqb (py_lower (default "" (r_type d))) "mobile" ||
  existsb (fun r => py_in r (isp_of (r_location d))) mobile_isps.

Definition lstats_of (g : gmap string EnhancedPM.stats) (u : string) : EnhancedPM.stats :=
  default EnhancedPM.default_stats (g !! u).

Definition with_walmart_score (st : EnhancedPM.stats) (q : Q) : EnhancedPM.stats :=
  EnhancedPM.mkStats (EnhancedPM.requests st) (EnhancedPM.successes st) (EnhancedPM.failures st)
    (EnhancedPM.bot_detections st) (EnhancedPM.last_used st) (EnhancedPM.last_success st)
    (EnhancedPM.last_failure st) (EnhancedPM.avg_response_time st)
    (EnhancedPM.cooldown_until st) (EnhancedPM.consecutive_failures st) q.

(** [if proxy_info.get("walmart_score"): self.proxy_stats[proxy_url]["walmart_score"] = ...] *)
Definition seed_score (g : gmap string EnhancedPM.stats) (u : string) (d : raw_proxy)
  : gmap string EnhancedPM.stats :=
  match r_walmart_score d with
  | Some q => if Qeq_bool q 0 then g else <[u := with_walmart_score (lstats_of g u) q]> g
  | None => g
  end.

(** [_categorize_proxy]; [None]: it raised. *)
Definition _categorize_proxy (st : lstate) (e : raw_entry) : option lstate :=
  match proxy_info_of e with
  | None => None
  | Some (u, d) =>
      if is_socks d then Some st
      else
        let g := seed_score (proxy_stats st) u d in
        if is_residential d then
          let x := mkEntry u d "residential" in
          Some (mkL (residential_proxies st ++ [x]) (mobile_proxies st) (datacenter_proxies st)
                    (all_proxies st ++ [x]) g)
        else if is_mobile d then
          let x := mkEntry u d "mobile" in
          Some (mkL (residential_proxies st) (mobile_proxies st ++ [x]) (datacenter_proxies st)
                    (all_proxies st ++ [x]) g)
        else
          let x := mkEntry u d "datacenter" in
          Some (mkL (residential_proxies st) (mobile_proxies st) (datacenter_proxies st ++ [x])
                    (all_proxies st ++ [x]) g)
  end.

(** [for proxy in proxies: self._categorize_proxy(proxy)] inside the
    loader's [try]: an exception ends the loop and keeps what was done. *)
Fixpoint categorize_all (st : lstate) (l : list raw_entry) : lstate :=
  match l with
  | [] => st
  | e :: r => match _categorize_proxy st e with
              | Some st' => categorize_all st' r
              | None => st
              end
  end.

Definition bad_providers : list string :=
  ["digitalocean"; "linode"; "vultr"; "ovh"; "hetzner"; "aws"; "google"; "azure"].

(** The datacenter filter: kept unless a bad provider is in its ISP or
    organisation. *)
Definition dc_keep (x : entry) : bool :=
  negb (existsb (fun prov => py_in prov (isp_of (r_location (e_info x))) ||
                             py_in prov (org_of (r_location (e_info x)))) bad_providers).

(** [p.get("location", {}).get("countryCode") == "US"]; [None]: [.get]
    raised on a location that is not a dict. *)
Definition is_us (x : entry) : option bool :=
  match r_location (e_info x) with
  | LocDict _ _ c => Some (bool_decide (c = Some "US"%string))
  | LocOther => None
  end.

(** A list comprehension [[p for p in l if f(p)]] whose test may raise. *)
Fixpoint py_filter_opt (f : entry -> option bool) (l : list entry) : option (list entry) :=
  match l with
  | [] => Some []
  | x :: r => match f x with
              | None => None
              | Some b => match py_filter_opt f r with
                          | Some r' => Some (if b then x :: r' else r')
                          | None => None
                          end
              end
  end.

(** [proxies[:] = us_proxies + other_proxies] *)
Definition us_first (l : list entry) : option (list entry) :=
  match py_filter_opt is_us l, py_filter_opt (fun x => negb <$> is_us x) l with
  | Some us, Some other => Some (us ++ other)
  | _, _ => None
  end.

(** [_apply_walmart_filters]: [self.datacenter_proxies] is rebound to the
    filtered list; [all_proxies] is not touched.  [None]: it raised. *)
Definition _apply_walmart_filters (st : lstate) : option lstate :=
  match us_first (residential_proxies st), us_first (mobile_proxies st),
        us_first (List.filter dc_keep (datacenter_proxies st)) with
  | Some r, Some m, Some d => Some (mkL r m d (all_proxies st) (proxy_stats st))
  | _, _, _ => None
  end.

(** [_load_and_categorize_proxies]: [primary] is the ["proxies"] list of
    the primary file ([None]: no file, or a read, parse or key error);
    [fallback] the list of the fallback file ([None]: no file, or an
    error).  [None]: [_apply_walmart_filters] raised out of [__init__]. *)
Definition _load_and_categorize_proxies (primary fallback : option (list raw_entry))
  : option lstate :=
  let st1 := match primary with Some l => categorize_all empty_lstate l | None => empty_lstate end in
  let st2 := match all_proxies st1 with
             | [] => match fallback with Some l => categorize_all st1 l | None => st1 end
             | _ :: _ => st1
             end in
  _apply_walmart_filters st2.

(** Sample records. *)
Definition rec_socks : raw_entry :=
  RDict (mkRaw (Some "socks5://1.2.3.4:1080") "1.2.3.4" "1080" (Some "SOCKS5") None false
               (LocDict None None (Some "US")) None None).

Definition rec_aws : raw_entry :=
  RDict (mkRaw None "3.3.3.3" "8080" None None false
               (LocDict (Some "Amazon AWS") None (Some "US")) None None).

Definition rec_comcast : raw_entry :=
  RDict (mkRaw None "5.5.5.5" "80" (Some "http") None false
               (LocDict (Some "Comcast Cable") None (Some "US")) (Some 12%Q) (Some 300%Q)).

Definition rec_de : raw_entry :=
  RDict (mkRaw None "6.6.6.6" "80" None (Some "Residential") false
               (LocDict None None (Some "DE")) None None).

Definition rec_bad_location : raw_entry :=
  RDict (mkRaw None "7.7.7.7" "80" None None false LocOther None None).

(** The loader's sample input: a SOCKS record, an AWS datacenter record,
    a German residential one and a Comcast one. *)
Definition demo_entries : list raw_entry := [rec_socks; rec_aws; rec_de; rec_comcast].

Definition demo_state : lstate := categorize_all empty_lstate demo_entries.

(** A pool ordered by [_apply_walmart_filters]: its US proxies, then the others. *)
Definition us_ordered (l : list entry) : Prop :=
  exists a b, l = a ++ b /\ Forall (fun x => is_us x = Some true) a /\
              Forall (fun x => is_us x = Some false) b.

(** The category [_categorize_proxy] gives a non-SOCKS record: the
    residential test first, then the mobile one, else datacenter. *)
Definition category_of (d : raw_proxy) : string :=
  if is_residential d then "residential" else if is_mobile d then "mobile" else "datacenter".

(** The entries a loop of [_categorize_proxy] over [l] appends, in order:
    one per non-SOCKS element, none for a SOCKS one, and nothing from the
    first element on which [.get] raises (the loop ends there). *)
Fixpoint categorized (l : list raw_entry) : list entry :=
  match l with
  | [] => []
  | e :: r => match proxy_info_of e with
              | None => []
              | Some (u, d) => (if is_socks d then [] else [mkEntry u d (category_of d)]) ++ categorized r
              end
  end.

Definition in_pool (c : string) (x : entry) : bool := String.eqb (e_category x) c.

(** What [_categorize_proxy] maintains: [all_proxies] holds the entries of
    the three pools, each with its pool's category, none of them SOCKS. *)
Definition load_inv (st : lstate) : Prop :=
  all_proxies st ≡ₚ residential_proxies st ++ mobile_proxies st ++ datacenter_proxies st /\
  Forall (fun x => e_category x = "residential"%string) (residential_proxies st) /\
  Forall (fun x => e_category x = "mobile"%string) (mobile_proxies st) /\
  Forall (fun x => e_category x = "datacenter"%string) (datacenter_proxies st) /\
  Forall (fun x => is_socks (e_info x) = false) (all_proxies st).

End EnhancedLoad.

(* ===================================================================== *)
(** * 12. Loading in the ProxyManager of helpers.py *)
(* ===================================================================== *)

Module HelpersLoad.
Import BotCheck.

(** An object of the helpers proxy file, restricted to the keys the loader
    reads; string values are strings when present.  [h_port] is the
    rendering of [p.get("port")], [None] when that value is missing or
    false; [h_is_residential] is the truth value of
    [p.get("is_residential", False)]. *)
Record hraw := mkHRaw {
  h_ip : option string;
  h_host : option string;
  h_port : option string;
  h_protocol : option string;
  h_proxy : option string;
  h_quality_score : option Q;
  h_is_residential : bool;
  h_type : option string
}.

(** An element of the file's list: a dict, or a value of another type
    (a string, a number, ...), on which [p.get] raises an
    [AttributeError] that [_load_and_sort_proxies] does not catch. *)
Inductive hentry := HDict (d : hraw) | HOther.

(** The truth value of an optional string: [None] and [""] are false. *)
Definition truthy (o : option string) : option string :=
  match o with Some s => if String.eqb s "" then None else Some s | None => None end.

Definition h_protocol_of (d : hraw) : string := py_lower (default "http" (h_protocol d)).

(** The URL [_load_and_sort_proxies] builds; [None]: the [continue] of an
    object with neither a URL nor an address. *)
Definition h_url_of (d : hraw) : option string :=
  match truthy (h_proxy d) with
  | Some u => Some u
  | None =>
      let ip := match truthy (h_ip d) with Some i => Some i | None => truthy (h_host d) end in
      match ip, truthy (h_port d) with
      | Some i, Some pt =>
          Some ((if String.eqb (h_protocol_of d) "https" then "https://" else "http://")
                ++ i ++ ":" ++ pt)%string
      | _, _ => None
      end
  end.

(** The four lists of the loop and [proxy_by_url] (the quality score of
    each stored object). *)
Record hacc := mkHAcc {
  residential : list string;
  high_quality : list string;
  medium_quality : list string;
  low_quality : list string;
  by_url : gmap string Q
}.

Definition hacc_empty : hacc := mkHAcc [] [] [] [] ∅.

(** One turn of the loop [for p in proxy_objects]. *)
Definition load_step (acc : hacc) (d : hraw) : hacc :=
  if existsb (String.eqb (h_protocol_of d)) ["socks"; "socks4"; "socks5"] then acc
  else match h_url_of d with
       | None => acc
       | Some u =>
           let q := default 0%Q (h_quality_score d) in
           let b := <[u := q]> (by_url acc) in
           if h_is_residential d || String.eqb (default "datacenter" (h_type d)) "residential"
           then mkHAcc (residential acc ++ [u]) (high_quality acc) (medium_quality acc) (low_quality acc) b
           else if Qle_bool 10 q
           then mkHAcc (residential acc) (high_quality acc ++ [u]) (medium_quality acc) (low_quality acc) b
           else if Qle_bool 5 q
           then mkHAcc (residential acc) (high_quality acc) (medium_quality acc ++ [u]) (low_quality acc) b
           else mkHAcc (residential acc) (high_quality acc) (medium_quality acc) (low_quality acc ++ [u]) b
       end.

(** The loop; [None]: an element that is not a dict raised. *)
Fixpoint load_loop (acc : hacc) (l : list hentry) : option hacc :=
  match l with
  | [] => Some acc
  | HDict d :: r => load_loop (load_step acc d) r
  | HOther :: _ => None
  end.

(** [_load_and_sort_proxies] run by [__init__] on a fresh manager: [data]
    is the file's list of objects ([None]: the file is missing or is not
    valid JSON, both caught).  [None]: an uncaught exception. *)
Definition _load_and_sort_proxies (data : option (list hentry)) : option HelpersPM.manager :=
  match data with
  | None => Some (HelpersPM.mkManager [] ∅ ∅ ∅)
  | Some l =>
      match load_loop hacc_empty l with
      | None => None
      | Some acc =>
          let ps := residential acc ++ high_quality acc ++ medium_quality acc ++ low_quality acc in
          match HelpersPM.reset_scores (by_url acc) ps ∅ with
          | Some sc => Some (HelpersPM.mkManager ps (by_url acc) sc ∅)
          | None => None
          end
      end
  end.

Definition helpers_demo : list hentry :=
  [HDict (mkHRaw (Some "1.1.1.1") None (Some "80") None None (Some 12%Q) false None);
   HDict (mkHRaw (Some "2.2.2.2") None (Some "1080") (Some "SOCKS5") None (Some 20%Q) false None);
   HDict (mkHRaw None (Some "h.example") (Some "8080") (Some "HTTPS") None (Some 3%Q) true None);
   HDict (mkHRaw None None None None (Some "http://u:p@r.example:9000") None false (Some "residential"))].

(** Every URL of the four lists has an object in [proxy_by_url]. *)
Definition hacc_inv (acc : hacc) : Prop :=
  forall u, In u (residential acc ++ high_quality acc ++ medium_quality acc ++ low_quality acc) ->
            is_Some (by_url acc !! u).

End HelpersLoad.

(* ===================================================================== *)
(** * 13. The request interval of AdaptiveProxyManager *)
(* ===================================================================== *)

Module AdaptiveInterval.
Import AdaptivePM.

(** [get_optimal_request_interval]: the upper median of more than ten
    successful intervals, else the draw of [random.uniform(2, 5)]. *)
Definition get_optimal_request_interval (m : manager) (draw : Q) : Q :=
  let intervals := successful_request_intervals (global_patterns m) in
  if Nat.ltb 10 (length intervals) then
    let sorted_intervals := merge_sort Z.le intervals in
    inject_Z (nth (length sorted_intervals / 2) sorted_intervals 0)
  else draw.

(** An adaptive manager with eleven recorded intervals. *)
Definition adaptive_intervals : manager :=
  mkManager [] ∅ ∅ ∅ 0 (mkPatterns ∅ ∅ [9; 1; 8; 2; 7; 3; 6; 4; 5; 10; 11]).

End AdaptiveInterval.



(* ===================================================================== *)
(** * 14. Proofs about the parallel store spider *)
(* ===================================================================== *)

Module ParallelSpiderFacts.
Import ParallelSpider.

Lemma schedule_loop_spec (f : nat) : forall (sp sp' : spider) (rs : list request),
  (length (stores_queue sp) <= f)%nat ->
  active_stores sp <= parallel_stores sp ->
  schedule_loop f sp = (sp', rs) ->
  exists popped,
    stores_queue sp = popped ++ stores_queue sp' /\
    rs = map StoreReq (admitted_of (processed_stores sp) popped) /\
    active_stores sp' = active_stores sp + Z.of_nat (length rs) /\
    (active_stores sp' = parallel_stores sp \/ stores_queue sp' = []) /\
    parallel_stores sp' = parallel_stores sp /\
    categories sp' = categories sp /\
    store_category_status sp' = store_category_status sp.
Proof.
  induction f as [|f IH]; intros sp sp' rs Hlen Hle Hrun; simpl in Hrun.
  - injection Hrun as <- <-. exists []. simpl.
    destruct (stores_queue sp) eqn:Eq; [|simpl in Hlen; lia].
    repeat split; auto. lia.
  - destruct (decide (active_stores sp < parallel_stores sp)) as [Hlt|Hge].
    + destruct (stores_queue sp) as [|s q] eqn:Eq.
      * injection Hrun as <- <-. exists []. rewrite Eq.
        repeat split; auto. simpl; lia.
      * simpl in Hlen.
        destruct (decide (s ∈ processed_stores sp)) as [Hin|Hnin].
        -- destruct (IH (set_queue sp q) sp' rs ltac:(simpl; lia) ltac:(simpl; lia) Hrun)
             as (pp & H1 & H2 & H3 & H4 & H5 & H6 & H7).
           exists (s :: pp). simpl in *. rewrite H1.
           rewrite decide_True by exact Hin.
           repeat split; auto.
        -- set (sp2 := set_active (set_processed (set_queue sp q) ({[s]} ∪ processed_stores sp))
                                  (active_stores sp + 1)) in Hrun.
           destruct (schedule_loop f sp2) as [sp3 rs3] eqn:E3.
           injection Hrun as <- <-.
           destruct (IH sp2 sp3 rs3 ltac:(simpl; lia) ltac:(simpl; lia) E3)
             as (pp & H1 & H2 & H3 & H4 & H5 & H6 & H7).
           exists (s :: pp). simpl in *. rewrite H1.
           rewrite decide_False by exact Hnin.
           repeat split; auto.
           ++ rewrite H2. reflexivity.
           ++ rewrite H3. lia.
    + injection Hrun as <- <-. exists []. simpl.
      repeat split; auto. lia. left. lia.
Qed.

Lemma schedule_next_stores_spec (sp sp' : spider) (rs : list request) :
  active_stores sp <= parallel_stores sp ->
  schedule_next_stores sp = (sp', rs) ->
  exists popped,
    stores_queue sp = popped ++ stores_queue sp' /\
    rs = map StoreReq (admitted_of (processed_stores sp) popped) /\
    active_stores sp' = active_stores sp + Z.of_nat (length rs) /\
    (active_stores sp' = parallel_stores sp \/ stores_queue sp' = []) /\
    parallel_stores sp' = parallel_stores sp /\
    categories sp' = categories sp /\
    store_category_status sp' = store_category_status sp.
Proof. intros Hle Hrun. eapply schedule_loop_spec; eauto. Qed.

Lemma schedule_loop_bound (f : nat) : forall (sp sp' : spider) (rs : list request),
  active_stores sp <= parallel_stores sp ->
  schedule_loop f sp = (sp', rs) ->
  active_stores sp' <= parallel_stores sp' /\ parallel_stores sp' = parallel_stores sp.
Proof.
  induction f as [|f IH]; intros sp sp' rs Hle Hrun; simpl in Hrun.
  - injection Hrun as <- <-. lia.
  - destruct (decide (active_stores sp < parallel_stores sp)).
    + destruct (stores_queue sp) as [|s q].
      * injection Hrun as <- <-. lia.
      * destruct (decide _).
        -- destruct (IH (set_queue sp q) sp' rs ltac:(simpl; lia) Hrun) as [Ha Hb].
           simpl in Hb. split; lia.
        -- set (sp2 := set_active (set_processed (set_queue sp q) ({[s]} ∪ processed_stores sp))
                                  (active_stores sp + 1)) in Hrun.
           destruct (schedule_loop f sp2) as [sp3 rs3] eqn:E3.
           injection Hrun as <- <-.
           destruct (IH sp2 _ _ ltac:(simpl; lia) E3) as [Ha Hb].
           simpl in Hb. split; lia.
    + injection Hrun as <- <-. lia.
Qed.

Lemma schedule_next_stores_bound (sp sp' : spider) (rs : list request) :
  active_stores sp <= parallel_stores sp ->
  schedule_next_stores sp = (sp', rs) ->
  active_stores sp' <= parallel_stores sp' /\ parallel_stores sp' = parallel_stores sp.
Proof. apply schedule_loop_bound. Qed.

Lemma category_complete_active (sp : spider) (s : store_id) :
  active_stores (category_complete_for_store sp s) <= active_stores sp /\
  parallel_stores (category_complete_for_store sp s) = parallel_stores sp.
Proof.
  unfold category_complete_for_store.
  destruct (store_category_status sp !! s); [|lia].
  destruct (decide (z - 1 <= 0)); [|simpl; lia].
  destruct (decide (active_stores sp > 0)); simpl; lia.
Qed.

Lemma dispatch_bound (sp sp' : spider) (r : request) (resp : response) (new : list request) :
  active_stores sp <= parallel_stores sp ->
  dispatch sp r resp = Some (sp', new) ->
  active_stores sp' <= parallel_stores sp' /\ parallel_stores sp' = parallel_stores sp.
Proof.
  intros Hle H.
  destruct r as [s|s c p], resp as [b| |d|]; simpl in H; try discriminate;
    injection H as H.
  - unfold parse_store_page in H. destruct b; injection H as <- <-; simpl; lia.
  - unfold handle_store_error in H.
    destruct (schedule_next_stores_bound (set_active sp (active_stores sp - 1)) _ _ ltac:(simpl; lia) H) as [Ha Hb].
    simpl in Hb. split; lia.
  - unfold parse_category in H. pose proof (category_complete_active sp s).
    destruct d as [|n|].
    + injection H as <- <-. lia.
    + destruct (bool_decide _ && bool_decide _); injection H as <- <-; lia.
    + injection H as <- <-. lia.
  - subst. unfold handle_category_error.
    pose proof (category_complete_active sp s). lia.
Qed.

Lemma wstep_bound (w w' : world) (e : event) :
  active_stores (wsp w) <= parallel_stores (wsp w) ->
  wstep w e = Some w' ->
  active_stores (wsp w') <= parallel_stores (wsp w') /\
  parallel_stores (wsp w') = parallel_stores (wsp w).
Proof.
  intros Hle H. destruct e as [r resp|]; simpl in H.
  - destruct (take_out r (outstanding w)); [|discriminate].
    destruct (dispatch (wsp w) r resp) as [[sp' new]|] eqn:E; [|discriminate].
    injection H as <-. simpl. eapply dispatch_bound; eauto.
  - unfold spider_idle in H.
    destruct (decide (active_stores (wsp w) < parallel_stores (wsp w))).
    + destruct (stores_queue (wsp w)).
      * injection H as <-. simpl. lia.
      * destruct (schedule_next_stores (wsp w)) as [sp' new] eqn:E.
        injection H as <-. simpl. eapply schedule_next_stores_bound; eauto.
    + injection H as <-. simpl. lia.
Qed.

Lemma start_bound (P : Z) (stores : list store_id) (cats : list category) :
  0 <= P ->
  active_stores (wsp (start_world P stores cats)) <= P /\
  parallel_stores (wsp (start_world P stores cats)) = P.
Proof.
  intros HP. unfold start_world, start.
  destruct (schedule_next_stores _) as [sp rs] eqn:E. simpl.
  apply schedule_next_stores_bound in E as [Ha Hb]; [|simpl; lia].
  simpl in Hb. split; lia.
Qed.

Lemma reachable_bound (P : Z) (stores : list store_id) (cats : list category) (w : world) :
  0 <= P -> reachable P stores cats w ->
  active_stores (wsp w) <= P /\ parallel_stores (wsp w) = P.
Proof.
  intros HP Hr. induction Hr as [|w e w' Hr IH Hs].
  - apply start_bound; exact HP.
  - destruct IH as [Ha Hb].
    destruct (wstep_bound w w' e ltac:(lia) Hs) as [Hc Hd]. split; lia.
Qed.

Lemma wrun_reachable (P : Z) (stores : list store_id) (cats : list category) :
  forall (es : list event) (w w' : world),
  reachable P stores cats w -> wrun w es = Some w' -> reachable P stores cats w'.
Proof.
  induction es as [|e es IH]; intros w w' Hr H; simpl in H.
  - injection H as <-. exact Hr.
  - destruct (wstep w e) as [w1|] eqn:E; [|discriminate].
    eapply IH; [|exact H]. eapply reach_step; eauto.
Qed.

Lemma admitted_of_fresh (popped : list store_id) : forall (P : gset store_id),
  NoDup popped -> (forall s, s ∈ popped -> s ∉ P) -> admitted_of P popped = popped.
Proof.
  induction popped as [|s t IH]; intros P Hnd Hfresh; simpl; [reflexivity|].
  rewrite decide_False by (apply Hfresh; left).
  apply NoDup_cons in Hnd as [Hs Hnd].
  f_equal. apply IH; [exact Hnd|].
  intros x Hx. rewrite elem_of_union, elem_of_singleton.
  intros [->|Hx']; [contradiction|]. revert Hx'. apply Hfresh. right. exact Hx.
Qed.

(** C6 (amended).  For a non-negative ceiling, [active_stores] never
    exceeds [parallel_stores] in any reachable state.  An idle pass below
    the ceiling with a non-empty queue pops queue entries in order,
    admits those whose [store_id] was not processed yet, and stops once
    [active_stores] reaches the ceiling or the queue is empty; when the
    queue holds no processed and no repeated id it admits exactly
    [min (parallel_stores - active_stores) (queue length)] stores. *)
Theorem spider_admission_ceiling (P : Z) (stores : list store_id) (cats : list category) :
  0 <= P ->
  (forall w, reachable P stores cats w -> active_stores (wsp w) <= P) /\
  (forall (sp sp' : spider) (rs : list request),
     active_stores sp < parallel_stores sp -> stores_queue sp <> [] ->
     spider_idle sp = (sp', rs) ->
     exists popped,
       stores_queue sp = popped ++ stores_queue sp' /\
       rs = map StoreReq (admitted_of (processed_stores sp) popped) /\
       active_stores sp' = active_stores sp + Z.of_nat (length rs) /\
       (active_stores sp' = parallel_stores sp \/ stores_queue sp' = []) /\
       (NoDup (stores_queue sp) ->
        (forall s, s ∈ stores_queue sp -> s ∉ processed_stores sp) ->
        Z.of_nat (length rs) =
        Z.min (parallel_stores sp - active_stores sp) (Z.of_nat (length (stores_queue sp))))).
Proof.
  intros HP. split.
  - intros w Hr. apply (reachable_bound P stores cats w HP Hr).
  - intros sp sp' rs Hlt Hne Hidle.
    unfold spider_idle in Hidle. rewrite decide_True in Hidle by exact Hlt.
    destruct (stores_queue sp) as [|s0 q0] eqn:Eq; [contradiction|].
    destruct (schedule_next_stores_spec sp sp' rs ltac:(lia) Hidle)
      as (pp & H1 & H2 & H3 & H4 & H5 & H6 & H7).
    destruct (schedule_next_stores_bound sp sp' rs ltac:(lia) Hidle) as [Hb Hp].
    exists pp. rewrite <- Eq. repeat split; auto.
    intros Hnd Hfresh.
    assert (Hpp : admitted_of (processed_stores sp) pp = pp).
    { apply admitted_of_fresh.
      - rewrite H1 in Hnd. apply NoDup_app in Hnd as [Hnd _]. exact Hnd.
      - intros x Hx. apply Hfresh. rewrite H1. apply elem_of_app. left; exact Hx. }
    rewrite Hpp in H2. subst rs. rewrite length_map in *.
    rewrite H1, length_app.
    destruct H4 as [H4|H4].
    + lia.
    + rewrite H4. simpl. lia.
Qed.

Lemma spider_admission_ceiling_witness :
  0 <= 2 /\
  ((forall w, reachable 2 ["A"; "B"] ["c1"] w -> active_stores (wsp w) <= 2) /\
  (forall (sp sp' : spider) (rs : list request),
     active_stores sp < parallel_stores sp -> stores_queue sp <> [] ->
     spider_idle sp = (sp', rs) ->
     exists popped,
       stores_queue sp = popped ++ stores_queue sp' /\
       rs = map StoreReq (admitted_of (processed_stores sp) popped) /\
       active_stores sp' = active_stores sp + Z.of_nat (length rs) /\
       (active_stores sp' = parallel_stores sp \/ stores_queue sp' = []) /\
       (NoDup (stores_queue sp) ->
        (forall s, s ∈ stores_queue sp -> s ∉ processed_stores sp) ->
        Z.of_nat (length rs) =
        Z.min (parallel_stores sp - active_stores sp) (Z.of_nat (length (stores_queue sp)))))).
Proof. split; [lia|]. apply (spider_admission_ceiling 2 ["A"; "B"] ["c1"]). lia. Defined.

(** C6 counterexample: in a reachable state with [active_stores = 1 < 2]
    and one queued entry, the idle pass admits no store. *)
Lemma spider_idle_fill_counterexample :
  ~ (forall w, reachable 2 ["A"; "B"; "A"] ["c1"] w -> idle_fills (wsp w)).
Proof.
  intros H.
  assert (Hr : reachable 2 ["A"; "B"; "A"] ["c1"]
                 (mkWorld (mkSpider 2 ["c1"] ["A"] 1 ({[ "A" ]} ∪ ({[ "B" ]} ∪ ∅)) ∅)
                          [StoreReq "B"])).
  { apply (wrun_reachable 2 ["A"; "B"; "A"] ["c1"] c6_events
             (start_world 2 ["A"; "B"; "A"] ["c1"])).
    - apply reach_start.
    - vm_compute. reflexivity. }
  specialize (H _ Hr). unfold idle_fills in H. vm_compute in H.
  specialize (H eq_refl ltac:(discriminate)). discriminate H.
Qed.

Lemma parse_category_shape (sp : spider) (s : store_id) (c : category) (page : Z)
  (d : page_data) :
  parse_category sp s c page d =
  if decide (d = Raises) then (sp, [])
  else if decide (40 <= page_count d)%nat then (sp, [CatReq s c (page + 1)])
  else (category_complete_for_store sp s, []).
Proof.
  unfold parse_category. destruct d as [|n|]; simpl; [reflexivity| |reflexivity].
  destruct (decide (40 <= n)%nat) as [H|H].
  - rewrite bool_decide_true by lia. rewrite bool_decide_true by lia. reflexivity.
  - destruct (bool_decide (0 < n)%nat); simpl;
      [rewrite bool_decide_false by lia|]; reflexivity.
Qed.

Lemma category_chain_spec (outs : list (option page_data)) :
  forall (sp : spider) (s : store_id) (c : category) (page : Z),
  let '(spf, issued, ended) := category_chain sp s c page outs in
  length issued = S (full_prefix outs) /\
  (ended = true -> spf = if ends_by_raise outs then sp else category_complete_for_store sp s) /\
  (ended = false -> spf = sp /\ full_prefix outs = length outs) /\
  ((full_prefix outs < length outs)%nat -> ended = true).
Proof.
  induction outs as [|o os IH]; intros sp s c page; simpl.
  - repeat split; try discriminate; lia.
  - destruct o as [d|]; simpl.
    + rewrite parse_category_shape.
      destruct (decide (d = Raises)) as [->|Hnr].
      * simpl. split; [reflexivity|]. split; [reflexivity|]. split; [discriminate|].
        intros _; reflexivity.
      * assert (Hr : ends_by_raise (Some d :: os) =
                     if decide (40 <= page_count d)%nat then ends_by_raise os else false)
          by (destruct d; [reflexivity|reflexivity|congruence]).
        simpl in Hr. rewrite Hr.
        destruct (decide (40 <= page_count d)%nat).
        -- specialize (IH sp s c (page + 1)).
           destruct (category_chain sp s c (page + 1) os) as [[spf issued] ended].
           destruct IH as (H1 & H2 & H3 & H4). simpl.
           split; [lia|]. split; [exact H2|]. split.
           ++ intros He. destruct (H3 He) as [H5 H6]. split; [exact H5|lia].
           ++ intros Hlt. apply H4. lia.
        -- split; [reflexivity|]. split; [reflexivity|]. split; [discriminate|].
           intros _; reflexivity.
    + unfold handle_category_error.
      split; [reflexivity|]. split; [reflexivity|]. split; [discriminate|].
      intros _; reflexivity.
Qed.

(** Pagination of one (store, category) pair.  (1) A page leads to a
    request for the next page exactly when [parse_category] does not
    raise and the extracted result count is at least 40; otherwise, and
    on a fetch failure, nothing is requested, and the pair is drained by
    one call of [category_complete_for_store] unless [parse_category]
    raised, which leaves the spider untouched.  (2) For any sequence of
    page answers, the number of page requests issued is one plus the
    number of leading full pages; once the pagination ends, the spider
    state is the start state, with the store's counter decremented once
    unless the last page raised, and while it has not ended the state is
    untouched.  (3) For page counts [40; 40; 17] exactly three page
    requests are issued and the pair is drained after the third page. *)
Lemma category_pagination (sp : spider) (s : store_id) (c : category) :
  (forall (page : Z) (d : page_data),
     parse_category sp s c page d =
     (if decide (d = Raises) then sp
      else if decide (40 <= page_count d)%nat then sp else category_complete_for_store sp s,
      if decide (d <> Raises /\ 40 <= page_count d)%nat then [CatReq s c (page + 1)] else []) /\
     dispatch sp (CatReq s c page) RCatError = Some (category_complete_for_store sp s, [])) /\
  (forall (page : Z) (outs : list (option page_data)),
     let '(spf, issued, ended) := category_chain sp s c page outs in
     length issued = S (full_prefix outs) /\
     (ended = true -> spf = if ends_by_raise outs then sp else category_complete_for_store sp s) /\
     (ended = false -> spf = sp /\ full_prefix outs = length outs) /\
     ((full_prefix outs < length outs)%nat -> ended = true)) /\
  category_chain sp s c 1 [Some (Products 40); Some (Products 40); Some (Products 17)] =
  (category_complete_for_store sp s, [CatReq s c 1; CatReq s c 2; CatReq s c 3], true).
Proof.
  split; [|split].
  - intros page d. split; [|reflexivity].
    rewrite parse_category_shape.
    destruct (decide (d = Raises)) as [->|Hnr]; [reflexivity|].
    destruct (decide (40 <= page_count d)%nat); [rewrite decide_True by tauto|rewrite decide_False by tauto];
      reflexivity.
  - intros page outs. apply category_chain_spec.
  - reflexivity.
Qed.

(** C1 at the failing input.  With no categories, store [A] is admitted
    and tracked with a counter of 0; no category request exists, so no
    completion ever runs: [A] stays in [store_category_status] and in
    [active_stores] for ever, and every further engine event leaves the
    state unchanged, so store [B] is never admitted. *)
Theorem store_without_categories_never_completes :
  reachable 1 ["A"; "B"] [] c1_world /\
  store_category_status (wsp c1_world) !! "A" = Some 0 /\
  active_stores (wsp c1_world) = 1 /\
  outstanding c1_world = [] /\
  (forall (e : event) (w' : world), wstep c1_world e = Some w' -> w' = c1_world).
Proof.
  split; [|split; [|split; [|split]]].
  - apply (wrun_reachable 1 ["A"; "B"] [] c1_events (start_world 1 ["A"; "B"] [])).
    + apply reach_start.
    + vm_compute. reflexivity.
  - vm_compute. reflexivity.
  - reflexivity.
  - reflexivity.
  - intros [r resp|] w' H; simpl in H.
    + discriminate.
    + injection H as <-. reflexivity.
Qed.

(** C8 (code bug) at the failing input.  A category page whose
    [__NEXT_DATA__] holds a product with a [null] ["imageInfo"] makes
    [parse_category] raise (AttributeError on [None.get]); Scrapy hands a
    callback's exception to the spider middlewares, not to the errback,
    so neither [handle_category_error] nor [category_complete_for_store]
    runs and no next page is requested.  In the run over stores [A; B]
    with one category and one parallel slot, [A] keeps its counter at 1
    and its slot with nothing in flight, and every further engine event
    leaves the state unchanged, so [B] is never admitted. *)
Theorem category_exception_never_drained :
  page_data_of (Some c8_next_data) = Raises /\
  (forall (sp : spider) (s : store_id) (c : category) (page : Z),
     parse_category sp s c page Raises = (sp, [])) /\
  reachable 1 ["A"; "B"] ["c1"] c8_world /\
  store_category_status (wsp c8_world) !! "A" = Some 1 /\
  active_stores (wsp c8_world) = 1 /\
  outstanding c8_world = [] /\
  (forall (e : event) (w' : world), wstep c8_world e = Some w' -> w' = c8_world).
Proof.
  split; [vm_compute; reflexivity|].
  split; [reflexivity|].
  split; [|split; [|split; [|split]]].
  - apply (wrun_reachable 1 ["A"; "B"] ["c1"] c8_events (start_world 1 ["A"; "B"] ["c1"])).
    + apply reach_start.
    + vm_compute. reflexivity.
  - vm_compute. reflexivity.
  - reflexivity.
  - reflexivity.
  - intros [r resp|] w' H; simpl in H.
    + discriminate.
    + injection H as <-. reflexivity.
Qed.

End ParallelSpiderFacts.

(* ===================================================================== *)
(** * 15. Proofs about selection in both proxy managers *)
(* ===================================================================== *)

Module ProxyCommonFacts.
Import ProxyCommon.

Lemma insert_desc_in {A} (f : A -> Q) (x : A) (l : list A) (y : A) :
  In y (insert_desc f x l) <-> y = x \/ In y l.
Proof.
  induction l as [|z l IH]; simpl.
  - split; intros; intuition (subst; auto).
  - destruct (negb (Qle_bool (f x) (f z))); simpl; [|rewrite IH];
      split; intros; intuition (subst; auto).
Qed.

Lemma fold_insert_in {A} (f : A -> Q) (l acc : list A) (y : A) :
  In y (fold_left (fun acc x => insert_desc f x acc) l acc) <-> In y l \/ In y acc.
Proof.
  revert acc; induction l as [|x l IH]; intros acc; simpl.
  - tauto.
  - rewrite IH, insert_desc_in. simpl. split; intros; intuition (subst; auto).
Qed.

Lemma sort_desc_in {A} (f : A -> Q) (l : list A) (y : A) :
  In y (sort_desc f l) <-> In y l.
Proof. unfold sort_desc. rewrite fold_insert_in. simpl. tauto. Qed.

Lemma choice_in {A} (r : rng) (l : list A) (y : A) : choice r l = Some y -> In y l.
Proof.
  unfold choice. destruct l as [|a l]; [discriminate|].
  intros H. eapply nth_error_In. exact H.
Qed.

Lemma take_in {A} (n : nat) (l : list A) (y : A) : In y (take n l) -> In y l.
Proof.
  revert n; induction l as [|a l IH]; intros [|n]; simpl; try tauto.
  intros [H|H]; [left; exact H|right; exact (IH n H)].
Qed.

Lemma head_in {A} (l : list A) (y : A) : head l = Some y -> In y l.
Proof. destruct l; simpl; [discriminate|]. intros H; injection H as ->. left; reflexivity. Qed.

(** The entry chosen after sorting (the first one, or a random one among
    the first [k]) is one of the candidates. *)
Lemma selected_in {A} (f : A -> Q) (b : bool) (k : nat) (r : rng) (first : A) (l : list A) :
  In first l ->
  In (if b then default first (choice r (take k (sort_desc f l)))
      else default first (head (sort_desc f l))) l.
Proof.
  intros Hf. destruct b.
  - destruct (choice r (take k (sort_desc f l))) as [y|] eqn:E; simpl; [|exact Hf].
    apply (sort_desc_in f). apply (take_in k). apply (choice_in r). exact E.
  - destruct (head (sort_desc f l)) as [y|] eqn:E; simpl; [|exact Hf].
    apply (sort_desc_in f). apply head_in. exact E.
Qed.

End ProxyCommonFacts.

(* ===================================================================== *)
(** * 16. Proofs about EnhancedProxyManager *)
(* ===================================================================== *)

Module EnhancedPMFacts.
Import ProxyCommon EnhancedPM ProxyCommonFacts.

Lemma stats_of_set_eq (m : manager) (p : string) (st : stats) :
  stats_of (set_stats m p st) p = st.
Proof. unfold stats_of, set_stats; simpl. rewrite lookup_insert_eq. reflexivity. Qed.

Lemma stats_of_set_ne (m : manager) (p q : string) (st : stats) :
  q <> p -> stats_of (set_stats m p st) q = stats_of m q.
Proof.
  intros Hne. unfold stats_of, set_stats; simpl.
  rewrite lookup_insert_ne by congruence. reflexivity.
Qed.

Lemma record_success_stats_ne (m : manager) (p q : string) (rt : option Q) (now : Z) :
  q <> p -> stats_of (record_success_body m p rt now) q = stats_of m q.
Proof. intros Hne. unfold record_success_body. apply stats_of_set_ne; exact Hne. Qed.

Lemma record_failure_stats_ne (m : manager) (p q : string) (b : bool) (now : Z) :
  q <> p -> stats_of (record_failure_body m p b now) q = stats_of m q.
Proof.
  intros Hne. unfold record_failure_body.
  destruct b; [destruct (decide _)|]; unfold set_blocked, stats_of; simpl;
    rewrite lookup_insert_ne by congruence; reflexivity.
Qed.

Lemma record_failure_blocked (m : manager) (p : string) (b : bool) (now : Z) :
  walmart_blocked_ips m ⊆ walmart_blocked_ips (record_failure_body m p b now).
Proof.
  unfold record_failure_body. destruct b; [destruct (decide _)|]; simpl; set_solver.
Qed.

Lemma record_failure_lock (m : manager) (p : string) (b : bool) (now : Z) :
  lock_held (record_failure_body m p b now) = lock_held m.
Proof. unfold record_failure_body. destruct b; [destruct (decide _)|]; reflexivity. Qed.

Lemma pool_candidates_not_blocked (m : manager) (now : Z) (base : Q) (l : list proxy_info)
  (url : string) (s : Q) (i : proxy_info) :
  In (url, s, i) (pool_candidates m now base l) -> url ∉ walmart_blocked_ips m.
Proof.
  unfold pool_candidates. rewrite in_flat_map. intros [info [_ Hin]].
  destruct (decide (proxy info ∈ walmart_blocked_ips m)) as [_|Hnb]; [destruct Hin|].
  destruct (in_cooldown _ _); [destruct Hin|].
  destruct (decide _); [destruct Hin|].
  destruct Hin as [Heq|[]]. injection Heq as <- _ _. exact Hnb.
Qed.

Lemma available_not_blocked (m : manager) (now : Z) (url : string) (s : Q) (i : proxy_info) :
  In (url, s, i) (available_proxies m now) -> url ∉ walmart_blocked_ips m.
Proof.
  unfold available_proxies. rewrite !in_app_iff.
  intros [H|[H|H]]; eapply pool_candidates_not_blocked; exact H.
Qed.

(** A proxy picked by the body of [get_proxy] is an eligible one. *)
Lemma get_proxy_body_picked (m : manager) (ctx : option request_context) (now : Z) (r : rng)
  (url : string) (m' : manager) :
  get_proxy_body m ctx now r = Picked url m' ->
  (exists s i, In (url, s, i) (available_proxies m now)) /\
  walmart_blocked_ips m' = walmart_blocked_ips m /\ lock_held m' = lock_held m.
Proof.
  unfold get_proxy_body. destruct (available_proxies m now) as [|first rest] eqn:E;
    [discriminate|].
  intros H. injection H as Hu Hm. subst m'.
  split; [|split; reflexivity].
  set (sel := if rnd_below_02 r && bool_decide (3 < length _)%nat then _ else _) in Hu.
  assert (Hin : In sel (first :: rest)) by (apply selected_in; left; reflexivity).
  destruct sel as [[u s] i]. simpl in Hu. subst u. exists s, i. exact Hin.
Qed.

Lemma get_proxy_body_retry (m : manager) (ctx : option request_context) (now : Z) (r : rng)
  (m' : manager) :
  get_proxy_body m ctx now r = Retry m' ->
  available_proxies m now = [] /\ m' = reset_all m.
Proof.
  unfold get_proxy_body. destruct (available_proxies m now); [|discriminate].
  intros H; injection H as <-. split; reflexivity.
Qed.

(** A blocked proxy is never returned and stays blocked, whatever calls
    follow. *)
Lemma run_ops_blocked (ops : list op) : forall (m : manager) (p : string),
  p ∈ walmart_blocked_ips m ->
  Forall (fun o => o <> Some p) (fst (run_ops m ops)) /\
  p ∈ walmart_blocked_ips (snd (run_ops m ops)).
Proof.
  induction ops as [|o ops IH]; intros m p Hp; simpl.
  - split; [constructor|exact Hp].
  - destruct o as [ctx now r|q rt now|q b now].
    + unfold get_proxy. destruct (lock_held m) eqn:Hl.
      * destruct (IH m p Hp) as [H1 H2]. destruct (run_ops m ops) as [outs mf].
        simpl in *. split; [constructor; [discriminate|exact H1]|exact H2].
      * destruct (get_proxy_body m ctx now r) as [url m'|m'] eqn:Eb.
        -- apply get_proxy_body_picked in Eb as [[s [i Hin]] [Hb _]].
           assert (Hnb := available_not_blocked m now url s i Hin).
           assert (Hp' : p ∈ walmart_blocked_ips m') by (rewrite Hb; exact Hp).
           destruct (IH m' p Hp') as [H1 H2]. destruct (run_ops m' ops) as [outs mf].
           simpl in *. split; [|exact H2]. constructor; [|exact H1].
           intros Heq. injection Heq as ->. exact (Hnb Hp).
        -- apply get_proxy_body_retry in Eb as [_ ->].
           assert (Hp' : p ∈ walmart_blocked_ips (set_lock (reset_all m) true)) by exact Hp.
           destruct (IH _ p Hp') as [H1 H2]. destruct (run_ops _ ops) as [outs mf].
           simpl in *. split; [constructor; [discriminate|exact H1]|exact H2].
    + destruct (lock_held m); apply IH; [exact Hp|]. exact Hp.
    + destruct (lock_held m); apply IH; [exact Hp|].
      apply record_failure_blocked. exact Hp.
Qed.

End EnhancedPMFacts.

(* ===================================================================== *)
(** * 17. Proofs about AdaptiveProxyManager *)
(* ===================================================================== *)

Module AdaptivePMFacts.
Import ProxyCommon AdaptivePM ProxyCommonFacts.

Lemma adaptive_stats_of_set_eq (m : manager) (p : string) (st : stats) :
  stats_of (set_stats m p st) p = st.
Proof. unfold stats_of, set_stats, with_stats; simpl. rewrite lookup_insert_eq. reflexivity. Qed.

Lemma adaptive_stats_of_set_ne (m : manager) (p q : string) (st : stats) :
  q <> p -> stats_of (set_stats m p st) q = stats_of m q.
Proof.
  intros Hne. unfold stats_of, set_stats, with_stats; simpl.
  rewrite lookup_insert_ne by congruence. reflexivity.
Qed.

Lemma adaptive_record_success_stats_ne (m : manager) (p q : string) (rt : option Q) (ua : option string)
  (now : Z) :
  q <> p -> stats_of (record_success m p rt ua now) q = stats_of m q.
Proof.
  intros Hne. unfold record_success, stats_of; simpl.
  rewrite lookup_insert_ne by congruence. reflexivity.
Qed.

Lemma adaptive_record_failure_stats_ne (m : manager) (p q : string) (et : string) (b : bool) (now : Z) :
  q <> p -> stats_of (record_failure m p et b now) q = stats_of m q.
Proof. intros Hne. unfold record_failure. apply adaptive_stats_of_set_ne; exact Hne. Qed.

Lemma clear_cooldowns_step_proxies (l : list string) : forall (acc : manager),
  proxies (fold_left (fun acc p =>
    let st := stats_of acc p in
    set_stats acc p (mkStats (requests st) (successes st) (failures st) (bot_detections st)
                             (last_used st) (last_success st) (last_failure st)
                             (avg_response_time st) None (base_score st))) l acc) = proxies acc.
Proof. induction l as [|x l IH]; intros acc; simpl; [reflexivity|]. rewrite IH. reflexivity. Qed.

Lemma clear_cooldowns_keep (l : list string) : forall (acc : manager) (q : string),
  cooldown_until (stats_of acc q) = None ->
  cooldown_until (stats_of (fold_left (fun acc p =>
    let st := stats_of acc p in
    set_stats acc p (mkStats (requests st) (successes st) (failures st) (bot_detections st)
                             (last_used st) (last_success st) (last_failure st)
                             (avg_response_time st) None (base_score st))) l acc) q) = None.
Proof.
  induction l as [|x l IH]; intros acc q Hq; simpl; [exact Hq|].
  apply IH. destruct (decide (q = x)) as [->|Hne].
  - rewrite adaptive_stats_of_set_eq. reflexivity.
  - rewrite adaptive_stats_of_set_ne by exact Hne. exact Hq.
Qed.

Lemma clear_cooldowns_listed (l : list string) : forall (acc : manager) (q : string),
  In q l ->
  cooldown_until (stats_of (fold_left (fun acc p =>
    let st := stats_of acc p in
    set_stats acc p (mkStats (requests st) (successes st) (failures st) (bot_detections st)
                             (last_used st) (last_success st) (last_failure st)
                             (avg_response_time st) None (base_score st))) l acc) q) = None.
Proof.
  induction l as [|x l IH]; intros acc q Hq; simpl in *; [destruct Hq|].
  destruct Hq as [<-|Hq].
  - apply clear_cooldowns_keep. rewrite adaptive_stats_of_set_eq. reflexivity.
  - apply IH. exact Hq.
Qed.

Lemma clear_cooldowns_spec (m : manager) :
  proxies (clear_cooldowns m) = proxies m /\
  forall q, In q (proxies m) -> cooldown_until (stats_of (clear_cooldowns m) q) = None.
Proof.
  unfold clear_cooldowns. split.
  - apply clear_cooldowns_step_proxies.
  - intros q Hq. apply clear_cooldowns_listed. exact Hq.
Qed.

Lemma reset_subnets_proxies (m : manager) (now : Z) :
  proxies (reset_subnets m now) = proxies m.
Proof. unfold reset_subnets. destruct (decide _); reflexivity. Qed.

(** [if request_context:] holds for a context with a positive retry count. *)
Lemma ctx_truthy_retry (c : request_context) :
  ctx_retry c > 0 -> ctx_truthy (Some c) = true.
Proof.
  unfold ctx_retry, ctx_truthy. intros H. apply bool_decide_eq_true.
  right; left. destruct (ctx_retry_count c); [eexists; reflexivity|lia].
Qed.

(** A candidate of a retry is never the proxy of the previous attempt. *)
Lemma candidate_retry (m : manager) (c : request_context) (now : Z) (q : string) (x : string * Q) :
  ctx_retry c > 0 -> candidate m (Some c) now q = Some x ->
  fst x = q /\ Some q <> ctx_last_proxy c.
Proof.
  intros Hr. unfold candidate, scan_proxy. rewrite (ctx_truthy_retry c Hr).
  destruct (match cooldown_until _ with Some t => _ | None => false end); [discriminate|].
  destruct (match last_used _ with Some t => _ | None => false end); [discriminate|].
  destruct (_calculate_dynamic_score m q now); [|discriminate].
  rewrite (bool_decide_eq_true_2 (ctx_retry c > 0) Hr). simpl.
  destruct (bool_decide (Some q = ctx_last_proxy c)) eqn:E; [discriminate|].
  apply bool_decide_eq_false in E. intros H. injection H as <-. split; [reflexivity|exact E].
Qed.

Lemma get_proxy_selected (m0 : manager) (ctx : option request_context) (now : Z) (r : rng)
  (avail : list (string * Q)) :
  loop_raises (reset_subnets m0 now) ctx now = false ->
  available_proxies (reset_subnets m0 now) ctx now = avail -> avail <> [] ->
  exists s, fst (get_proxy m0 ctx now r) = PyReturn (Some s) /\ exists sc, In (s, sc) avail.
Proof.
  intros Hl Ha Hne. unfold get_proxy. rewrite Hl, Ha.
  destruct avail as [|first rest]; [congruence|].
  cbv zeta. cbn [fst].
  set (l := first :: rest) in *.
  set (b := rnd_below_02 r && _).
  assert (H := selected_in snd b 5 r first l (or_introl eq_refl)).
  revert H. destruct b.
  - destruct (default first (choice r (take 5 (sort_desc snd l)))) as [s sc].
    intros H. exists s. split; [reflexivity|]. exists sc. exact H.
  - destruct (default first (head (sort_desc snd l))) as [s sc].
    intros H. exists s. split; [reflexivity|]. exists sc. exact H.
Qed.

End AdaptivePMFacts.

(* ===================================================================== *)
(** * 18. The proxy manager claims *)
(* ===================================================================== *)

Module ProxyManagerFacts.
Import ProxyCommon Scenarios.

Lemma choice_some {A} (r : rng) (l : list A) : l <> [] -> is_Some (choice r l).
Proof.
  intros Hne. unfold choice. destruct l as [|a l']; [congruence|].
  set (l := a :: l'). apply not_eq_None_Some. apply nth_error_Some.
  apply Nat.mod_upper_bound. unfold l; simpl; lia.
Qed.

Lemma enhanced_stats_blocked_set (m : EnhancedPM.manager) (b : gset string) (q : string) :
  EnhancedPM.stats_of (EnhancedPM.set_blocked m b) q = EnhancedPM.stats_of m q.
Proof. reflexivity. Qed.

Lemma enhanced_failure_own_stats (m : EnhancedPM.manager) (p : string) (b : bool) (now : Z) :
  let st := EnhancedPM.stats_of m p in
  let st' := EnhancedPM.stats_of (EnhancedPM.record_failure_body m p b now) p in
  EnhancedPM.bot_detections st' = (if b then EnhancedPM.bot_detections st + 1
                                   else EnhancedPM.bot_detections st) /\
  (b = true -> EnhancedPM.cooldown_until st' = Some (now + 60 * 30)).
Proof.
  unfold EnhancedPM.record_failure_body. destruct b; [destruct (decide _)|];
    rewrite ?enhanced_stats_blocked_set, EnhancedPMFacts.stats_of_set_eq; simpl;
    split; try reflexivity; intros; congruence.
Qed.

(** C2: once [record_failure] with bot detection is applied to a proxy
    for the third time (two detections are already counted), the proxy
    is in [walmart_blocked_ips], and no later [get_proxy] call, in any
    sequence of calls, returns it; it stays blocked, and a selection made
    after the emergency reset of cooldowns and consecutive failures does
    not pick it either. *)
Theorem third_detection_blocks_for_good (m : EnhancedPM.manager) (p : string) (now : Z)
  (ops : list EnhancedPM.op) :
  2 <= EnhancedPM.bot_detections (EnhancedPM.stats_of m p) ->
  let m3 := EnhancedPM.record_failure_body m p true now in
  3 <= EnhancedPM.bot_detections (EnhancedPM.stats_of m3 p) /\
  p ∈ EnhancedPM.walmart_blocked_ips m3 /\
  Forall (fun o => o <> Some p) (fst (EnhancedPM.run_ops m3 ops)) /\
  p ∈ EnhancedPM.walmart_blocked_ips (snd (EnhancedPM.run_ops m3 ops)) /\
  (forall ctx now' r m', EnhancedPM.get_proxy_body
       (EnhancedPM.reset_all (snd (EnhancedPM.run_ops m3 ops))) ctx now' r
     <> EnhancedPM.Picked p m').
Proof.
  intros H2 m3.
  destruct (enhanced_failure_own_stats m p true now) as [Hbd _].
  assert (Hb : p ∈ EnhancedPM.walmart_blocked_ips m3).
  { unfold m3, EnhancedPM.record_failure_body.
    destruct (decide _) as [_|Hlt]; [simpl; set_solver|].
    exfalso. apply Hlt. unfold EnhancedPM.stats_of in *. lia. }
  destruct (EnhancedPMFacts.run_ops_blocked ops m3 p Hb) as [Hout Hfin].
  split; [fold m3 in Hbd; lia|].
  split; [exact Hb|]. split; [exact Hout|]. split; [exact Hfin|].
  intros ctx now' r m' Hpick.
  apply EnhancedPMFacts.get_proxy_body_picked in Hpick as [[s [i Hin]] _].
  apply EnhancedPMFacts.available_not_blocked in Hin. exact (Hin Hfin).
Qed.

Lemma third_detection_blocks_for_good_witness :
  2 <= EnhancedPM.bot_detections (EnhancedPM.stats_of enhanced_pair_two_detections "P") /\
  Forall (fun o => o <> Some "P"%string)
    (fst (EnhancedPM.run_ops (EnhancedPM.record_failure_body enhanced_pair_two_detections "P" true 20)
            [EnhancedPM.OpGetProxy None 30 rng0; EnhancedPM.OpGetProxy None 40 rng0])).
Proof.
  assert (H : 2 <= EnhancedPM.bot_detections (EnhancedPM.stats_of enhanced_pair_two_detections "P"))
    by (vm_compute; congruence).
  split; [exact H|].
  exact (proj1 (proj2 (proj2 (third_detection_blocks_for_good enhanced_pair_two_detections "P" 20
           [EnhancedPM.OpGetProxy None 30 rng0; EnhancedPM.OpGetProxy None 40 rng0] H)))).
Defined.


Lemma enhanced_reset_all_entries (m : EnhancedPM.manager) (url : string) (st : EnhancedPM.stats) :
  EnhancedPM.proxy_stats (EnhancedPM.reset_all m) !! url = Some st ->
  EnhancedPM.cooldown_until st = None /\ EnhancedPM.consecutive_failures st = 0.
Proof.
  unfold EnhancedPM.reset_all, EnhancedPM.set_all_stats; simpl.
  rewrite lookup_fmap_Some. intros [st0 [<- _]]. split; reflexivity.
Qed.

Lemma adaptive_fallback (m : AdaptivePM.manager) (ctx : option request_context) (now : Z) (r : rng) :
  AdaptivePM.loop_raises (AdaptivePM.reset_subnets m now) ctx now = false ->
  AdaptivePM.available_proxies (AdaptivePM.reset_subnets m now) ctx now = [] ->
  AdaptivePM.get_proxy m ctx now r =
    (AdaptivePM.PyReturn
       (choice r (AdaptivePM.proxies (AdaptivePM.clear_cooldowns (AdaptivePM.reset_subnets m now)))),
     AdaptivePM.clear_cooldowns (AdaptivePM.reset_subnets m now)).
Proof. intros Hl H. unfold AdaptivePM.get_proxy. rewrite Hl, H. reflexivity. Qed.

(** C3 (code bug): when no proxy is eligible, neither manager retries
    selection once and reports a failure.  The adaptive manager (when no
    scoring raised) clears the cooldown of every listed proxy and
    returns [random.choice] over all of its proxies, without scoring
    them or selecting again; it returns [None] only when it has no proxy
    at all.  The enhanced manager clears every cooldown and
    consecutive-failure count and, for its "Try again", calls
    [get_proxy] while it still holds its non re-entrant
    [threading.Lock]: the call never returns. *)
Theorem no_eligible_proxy_fallbacks (ma : AdaptivePM.manager) (me : EnhancedPM.manager)
  (ctx : option request_context) (now : Z) (r : rng) :
  (AdaptivePM.loop_raises (AdaptivePM.reset_subnets ma now) ctx now = false ->
   AdaptivePM.available_proxies (AdaptivePM.reset_subnets ma now) ctx now = [] ->
   fst (AdaptivePM.get_proxy ma ctx now r) = AdaptivePM.PyReturn (choice r (AdaptivePM.proxies ma)) /\
   AdaptivePM.proxies (snd (AdaptivePM.get_proxy ma ctx now r)) = AdaptivePM.proxies ma /\
   (forall q, In q (AdaptivePM.proxies ma) ->
      AdaptivePM.cooldown_until (AdaptivePM.stats_of (snd (AdaptivePM.get_proxy ma ctx now r)) q)
      = None) /\
   (AdaptivePM.proxies ma <> [] ->
      exists x, fst (AdaptivePM.get_proxy ma ctx now r) = AdaptivePM.PyReturn (Some x)) /\
   (AdaptivePM.proxies ma = [] -> fst (AdaptivePM.get_proxy ma ctx now r) = AdaptivePM.PyReturn None)) /\
  (EnhancedPM.lock_held me = false -> EnhancedPM.available_proxies me now = [] ->
   EnhancedPM.get_proxy me ctx now r
     = Deadlocked (EnhancedPM.set_lock (EnhancedPM.reset_all me) true) /\
   (forall url st, EnhancedPM.proxy_stats (EnhancedPM.reset_all me) !! url = Some st ->
      EnhancedPM.cooldown_until st = None /\ EnhancedPM.consecutive_failures st = 0)).
Proof.
  split.
  - intros Hl H. rewrite (adaptive_fallback ma ctx now r Hl H). simpl.
    destruct (AdaptivePMFacts.clear_cooldowns_spec (AdaptivePM.reset_subnets ma now))
      as [Hp Hc].
    rewrite AdaptivePMFacts.reset_subnets_proxies in Hp, Hc. rewrite Hp.
    split; [reflexivity|]. split; [reflexivity|]. split; [exact Hc|].
    split.
    + intros Hne. destruct (choice_some r (AdaptivePM.proxies ma) Hne) as [x Hx].
      exists x. rewrite Hx. reflexivity.
    + intros ->. reflexivity.
  - intros Hl Ha. split; [|apply enhanced_reset_all_entries].
    unfold EnhancedPM.get_proxy, EnhancedPM.get_proxy_body. rewrite Hl, Ha. reflexivity.
Qed.

Lemma no_eligible_proxy_fallbacks_witness :
  AdaptivePM.loop_raises (AdaptivePM.reset_subnets adaptive_cooling 0) None 0 = false /\
  AdaptivePM.available_proxies (AdaptivePM.reset_subnets adaptive_cooling 0) None 0 = [] /\
  EnhancedPM.lock_held enhanced_cooling = false /\
  EnhancedPM.available_proxies enhanced_cooling 0 = [] /\
  fst (AdaptivePM.get_proxy adaptive_cooling None 0 rng0)
    = AdaptivePM.PyReturn (choice rng0 (AdaptivePM.proxies adaptive_cooling)) /\
  EnhancedPM.get_proxy enhanced_cooling None 0 rng0
    = Deadlocked (EnhancedPM.set_lock (EnhancedPM.reset_all enhanced_cooling) true).
Proof.
  assert (Hr : AdaptivePM.loop_raises (AdaptivePM.reset_subnets adaptive_cooling 0) None 0 = false)
    by (vm_compute; reflexivity).
  assert (Ha : AdaptivePM.available_proxies (AdaptivePM.reset_subnets adaptive_cooling 0) None 0 = [])
    by (vm_compute; reflexivity).
  assert (Hl : EnhancedPM.lock_held enhanced_cooling = false) by reflexivity.
  assert (He : EnhancedPM.available_proxies enhanced_cooling 0 = []) by (vm_compute; reflexivity).
  destruct (no_eligible_proxy_fallbacks adaptive_cooling enhanced_cooling None 0 rng0) as [HA HE].
  split; [exact Hr|]. split; [exact Ha|]. split; [exact Hl|]. split; [exact He|].
  split; [exact (proj1 (HA Hr Ha))|exact (proj1 (HE Hl He))].
Defined.

(** The failing input of C3: the only proxy ["P"] is in cooldown, so
    none is eligible; the adaptive manager returns ["P"] anyway, and the
    enhanced [get_proxy] call never returns. *)
Lemma no_eligible_proxy_counterexample :
  AdaptivePM.available_proxies (AdaptivePM.reset_subnets adaptive_cooling 0) None 0 = [] /\
  fst (AdaptivePM.get_proxy adaptive_cooling None 0 rng0) = AdaptivePM.PyReturn (Some "P"%string) /\
  EnhancedPM.available_proxies enhanced_cooling 0 = [] /\
  exists m', EnhancedPM.get_proxy enhanced_cooling None 0 rng0 = Deadlocked m'.
Proof.
  split; [vm_compute; reflexivity|]. split; [vm_compute; reflexivity|].
  split; [vm_compute; reflexivity|]. eexists. vm_compute. reflexivity.
Qed.

(** C7: for a retry context ([retry_count > 0] with a [last_proxy]), the
    adaptive manager never returns [last_proxy] when at least one proxy
    passes its selection loop (when none does, its fallback picks among
    all proxies).  The enhanced manager does not read the request
    context: its answer is the same for every context. *)
Theorem retry_avoids_last_proxy_when_eligible (ma : AdaptivePM.manager) (me : EnhancedPM.manager)
  (c : request_context) (ctx' : option request_context) (lp : string) (now : Z) (r : rng) :
  ctx_retry c > 0 -> ctx_last_proxy c = Some lp ->
  (AdaptivePM.available_proxies (AdaptivePM.reset_subnets ma now) (Some c) now <> [] ->
   fst (AdaptivePM.get_proxy ma (Some c) now r) <> AdaptivePM.PyReturn (Some lp)) /\
  EnhancedPM.get_proxy me (Some c) now r = EnhancedPM.get_proxy me ctx' now r.
Proof.
  intros Hr Hl. split; [|reflexivity].
  intros Hne.
  destruct (AdaptivePM.loop_raises (AdaptivePM.reset_subnets ma now) (Some c) now) eqn:Hraise.
  { unfold AdaptivePM.get_proxy. rewrite Hraise. simpl. discriminate. }
  destruct (AdaptivePMFacts.get_proxy_selected ma (Some c) now r _ Hraise eq_refl Hne)
    as [s [Hs [sc Hin]]].
  rewrite Hs. intros Heq. injection Heq as ->.
  unfold AdaptivePM.available_proxies in Hin.
  rewrite <- list_elem_of_In, list_elem_of_omap in Hin. destruct Hin as [q [_ Hq]].
  apply AdaptivePMFacts.candidate_retry in Hq as [Hq1 Hq2]; [|exact Hr].
  simpl in Hq1. subst q. apply Hq2. symmetry. exact Hl.
Qed.

Lemma retry_avoids_last_proxy_when_eligible_witness :
  ctx_retry retry_ctx > 0 /\ ctx_last_proxy retry_ctx = Some "P"%string /\
  AdaptivePM.available_proxies (AdaptivePM.reset_subnets adaptive_pair 0) (Some retry_ctx) 0 <> [] /\
  fst (AdaptivePM.get_proxy adaptive_pair (Some retry_ctx) 0 rng0) <> AdaptivePM.PyReturn (Some "P"%string).
Proof.
  assert (Hr : ctx_retry retry_ctx > 0) by (vm_compute; reflexivity).
  assert (Hl : ctx_last_proxy retry_ctx = Some "P"%string) by reflexivity.
  assert (Hne : AdaptivePM.available_proxies (AdaptivePM.reset_subnets adaptive_pair 0)
                  (Some retry_ctx) 0 <> []) by (vm_compute; congruence).
  split; [exact Hr|]. split; [exact Hl|]. split; [exact Hne|].
  exact (proj1 (retry_avoids_last_proxy_when_eligible adaptive_pair enhanced_pair retry_ctx None
                  "P" 0 rng0 Hr Hl) Hne).
Defined.

(** The counterexample of C7: a retry whose last proxy is ["P"] gets
    ["P"] again, from the enhanced manager (which ignores the context)
    and from the adaptive manager (whose only proxy is skipped, so its
    fallback chooses among all proxies). *)
Lemma retry_gets_last_proxy_back :
  ctx_retry retry_ctx > 0 /\ ctx_last_proxy retry_ctx = Some "P"%string /\
  (exists m', EnhancedPM.get_proxy enhanced_one (Some retry_ctx) 0 rng0 = Returned "P"%string m') /\
  fst (AdaptivePM.get_proxy adaptive_one (Some retry_ctx) 0 rng0) = AdaptivePM.PyReturn (Some "P"%string).
Proof.
  split; [vm_compute; reflexivity|]. split; [reflexivity|].
  split; [eexists; vm_compute; reflexivity|]. vm_compute. reflexivity.
Qed.

(** C9: a bot detection increments the detection count.  In the adaptive
    manager the cooldown is [min(60, 10 * d ^ 2)] minutes from the call,
    [d] being the count after the increment; in the enhanced manager it
    is 30 minutes, whatever the count. *)
Theorem bot_detection_cooldowns (ma : AdaptivePM.manager) (me : EnhancedPM.manager)
  (p et : string) (now : Z) :
  let sa := AdaptivePM.stats_of (AdaptivePM.record_failure ma p et true now) p in
  let se := EnhancedPM.stats_of (EnhancedPM.record_failure_body me p true now) p in
  AdaptivePM.bot_detections sa = AdaptivePM.bot_detections (AdaptivePM.stats_of ma p) + 1 /\
  AdaptivePM.cooldown_until sa = Some (now + 60 * Z.min 60 (10 * AdaptivePM.bot_detections sa ^ 2)) /\
  EnhancedPM.bot_detections se = EnhancedPM.bot_detections (EnhancedPM.stats_of me p) + 1 /\
  EnhancedPM.cooldown_until se = Some (now + 60 * 30).
Proof.
  intros sa se.
  destruct (enhanced_failure_own_stats me p true now) as [H1 H2].
  unfold sa, AdaptivePM.record_failure. rewrite AdaptivePMFacts.adaptive_stats_of_set_eq. simpl.
  split; [reflexivity|]. split; [reflexivity|].
  split; [exact H1|]. exact (H2 eq_refl).
Qed.

(** The counterexample of C9: the first bot detection in the enhanced
    manager gives 30 minutes, not [min(60, 10 * 1 ^ 2) = 10]. *)
Lemma first_enhanced_detection_cooldown :
  let se := EnhancedPM.stats_of (EnhancedPM.record_failure_body enhanced_one "P" true 0) "P" in
  EnhancedPM.bot_detections se = 1 /\
  EnhancedPM.cooldown_until se = Some 1800 /\
  EnhancedPM.cooldown_until se <> Some (0 + 60 * Z.min 60 (10 * EnhancedPM.bot_detections se ^ 2)).
Proof. vm_compute. split; [reflexivity|]. split; [reflexivity|]. congruence. Qed.

(** C10: [record_success] and [record_failure] of both managers leave the
    statistics entry of every other proxy unchanged (and, in the enhanced
    manager, whether that proxy is blocked). *)
Theorem stats_updates_touch_one_entry (me : EnhancedPM.manager) (ma : AdaptivePM.manager)
  (p q : string) (rt : option Q) (ua : option string) (et : string) (b : bool) (now : Z) :
  q <> p ->
  EnhancedPM.stats_of (EnhancedPM.record_success_body me p rt now) q = EnhancedPM.stats_of me q /\
  EnhancedPM.stats_of (EnhancedPM.record_failure_body me p b now) q = EnhancedPM.stats_of me q /\
  (q ∈ EnhancedPM.walmart_blocked_ips (EnhancedPM.record_failure_body me p b now)
     <-> q ∈ EnhancedPM.walmart_blocked_ips me) /\
  AdaptivePM.stats_of (AdaptivePM.record_success ma p rt ua now) q = AdaptivePM.stats_of ma q /\
  AdaptivePM.stats_of (AdaptivePM.record_failure ma p et b now) q = AdaptivePM.stats_of ma q.
Proof.
  intros Hne.
  split; [apply EnhancedPMFacts.record_success_stats_ne; exact Hne|].
  split; [apply EnhancedPMFacts.record_failure_stats_ne; exact Hne|].
  split.
  - unfold EnhancedPM.record_failure_body.
    destruct b; [destruct (decide _)|]; simpl; set_solver.
  - split; [apply AdaptivePMFacts.adaptive_record_success_stats_ne; exact Hne|].
    apply AdaptivePMFacts.adaptive_record_failure_stats_ne; exact Hne.
Qed.

Lemma stats_updates_touch_one_entry_witness :
  "Q"%string <> "P"%string /\
  EnhancedPM.stats_of (EnhancedPM.record_failure_body enhanced_pair "P" true 5) "Q"
    = EnhancedPM.stats_of enhanced_pair "Q".
Proof.
  assert (Hne : "Q"%string <> "P"%string) by (vm_compute; congruence).
  split; [exact Hne|].
  exact (proj1 (proj2 (stats_updates_touch_one_entry enhanced_pair adaptive_pair "P" "Q" None None
                         "generic" true 5 Hne))).
Defined.

End ProxyManagerFacts.

(* ===================================================================== *)
(** * 19. Proofs about the browser pools *)
(* ===================================================================== *)

Module BrowserPoolFacts.
Import BrowserPool RequestFlow.

Lemma put_spec (p : pool) (b : browser_info) (p' : pool) :
  put p b = Some p' ->
  total p' = S (total p) /\ pool_size p' = pool_size p /\
  (length (pool_queue p) < pool_size p)%nat /\ pool_queue p' = pool_queue p ++ [b].
Proof.
  unfold put. case_bool_decide as Hroom; [|discriminate].
  intros E; injection E as <-. unfold total; simpl. rewrite List.length_app; simpl.
  split; [lia|]. split; [reflexivity|]. split; [exact Hroom|reflexivity].
Qed.

Lemma put_room (p : pool) (b : browser_info) :
  (length (pool_queue p) < pool_size p)%nat ->
  put p b = Some (mkPool (pool_size p) (pool_queue p ++ [b]) (in_use p) (creating p) (next_session p)).
Proof. intros H. unfold put. rewrite bool_decide_eq_true_2 by exact H. reflexivity. Qed.

(** No step adds a session: a release that destroys its browser starts
    exactly one creation thread, one that keeps it puts it back. *)
Lemma pstep_total (mw : middleware) (p : pool) (ev : event) (p' : pool) :
  pstep mw p ev = Some p' -> (total p' <= total p)%nat /\ pool_size p' = pool_size p.
Proof.
  destruct ev as [k ok|rc np dok|k res i np]; simpl.
  - unfold creation_done. destruct (creating p !! k) as [[idx pr]|] eqn:Ek; [|discriminate].
    assert (Hd : (length (delete k (creating p)) = length (creating p) - 1)%nat)
      by (apply length_delete; rewrite Ek; eexists; reflexivity).
    assert (Hlt := lookup_lt_Some _ _ _ Ek).
    destruct ok.
    + intros H. apply put_spec in H as [Ht [Hs _]]. unfold total in *; simpl in *. lia.
    + intros H. injection H as <-. unfold total; simpl. lia.
  - unfold acquire. destruct (pool_queue p) as [|b q] eqn:Eq; [discriminate|]. simpl.
    intros H. injection H as <-. unfold total; simpl. rewrite Eq, List.length_app; simpl.
    split; [lia|reflexivity].
  - unfold release. destruct (in_use p !! k) as [b|] eqn:Ek; [|discriminate].
    assert (Hd : (length (delete k (in_use p)) = length (in_use p) - 1)%nat)
      by (apply length_delete; rewrite Ek; eexists; reflexivity).
    assert (Hlt := lookup_lt_Some _ _ _ Ek).
    destruct mw.
    + unfold _release_enhanced_browser. destruct res as [|e].
      * intros H. apply put_spec in H as [Ht [Hs _]]. unfold total in *; simpl in *. lia.
      * destruct (bool_decide _ || is_bot _).
        -- intros H. injection H as <-. unfold spawn, total; simpl.
           rewrite List.length_app; simpl. lia.
        -- intros H. apply put_spec in H as [Ht [Hs _]]. unfold total in *; simpl in *. lia.
    + unfold _return_browser. intros H. apply put_spec in H as [Ht [Hs _]].
      unfold total in *; simpl in *. lia.
Qed.

Lemma prun_total (mw : middleware) (evs : list event) : forall (p : pool),
  (total (prun mw p evs) <= total p)%nat /\ pool_size (prun mw p evs) = pool_size p.
Proof.
  induction evs as [|ev evs IH]; intros p; simpl; [split; [lia|reflexivity]|].
  destruct (pstep mw p ev) as [p'|] eqn:E; simpl.
  - destruct (pstep_total mw p ev p' E) as [H1 H2]. destruct (IH p') as [H3 H4]. lia.
  - exact (IH p).
Qed.

(** C4: at every state reached from [spider_opened], whatever the order
    in which creation threads end, requests take browsers and release
    callbacks run (including the enhanced release that quits a browser
    and starts a replacement thread), the sessions being created, in the
    queue and checked out number at most the pool size, for both browser
    middlewares. *)
Theorem pool_never_exceeds_size (size : nat) (proxy_of : nat -> string) (proxies : list string)
  (evs : list event) :
  let pe := prun Enhanced (enhanced_opened size proxy_of) evs in
  let ph := prun Hybrid (hybrid_opened proxies) evs in
  (total pe <= pool_size pe)%nat /\ pool_size pe = size /\
  (total ph <= pool_size ph)%nat /\ pool_size ph = length proxies.
Proof.
  intros pe ph.
  destruct (prun_total Enhanced evs (enhanced_opened size proxy_of)) as [He1 He2].
  destruct (prun_total Hybrid evs (hybrid_opened proxies)) as [Hh1 Hh2].
  unfold pe, ph. rewrite He2, Hh2.
  unfold total, enhanced_opened, hybrid_opened in *; simpl in *.
  rewrite List.length_map, List.length_seq in He1.
  rewrite length_zip, List.length_seq, Nat.min_id in Hh1.
  split; [lia|]. split; [reflexivity|]. split; [lia|reflexivity].
Qed.


(** Releasing the browser a request has just taken from a pool that
    respects its size: the pool it goes back to has room. *)
Lemma acquire_shape (mw : middleware) (p : pool) (rc : Z) (np : option string) (ok : bool)
  (b : browser_info) (p1 : pool) :
  acquire mw p rc np ok = Some (b, p1) ->
  exists b0 q, pool_queue p = b0 :: q /\
    p1 = mkPool (pool_size p) q (in_use p ++ [b]) (creating p) (next_session p) /\
    (mw = Hybrid -> b = b0).
Proof.
  unfold acquire. destruct (pool_queue p) as [|b0 q]; [discriminate|].
  intros H. injection H as Hb Hp. rewrite Hb in Hp. exists b0, q. split; [reflexivity|].
  split; [symmetry; exact Hp|]. intros ->. simpl in Hb. symmetry. exact Hb.
Qed.

Lemma release_after_acquire (mw : middleware) (p : pool) (rc : Z) (np : option string) (ok : bool)
  (b : browser_info) (p1 : pool) (res : outcome) (i : nat) (np' : string) :
  acquire mw p rc np ok = Some (b, p1) ->
  (total p <= pool_size p)%nat ->
  (mw = Hybrid \/ (res <> Success -> is_bot res = false /\ request_count b <= 100)) ->
  exists p2, release mw p1 (length (in_use p)) res i np' = Some p2 /\
             pool_queue p2 = pool_queue p1 ++ [b].
Proof.
  intros Ha Ht Hmw. destruct (acquire_shape mw p rc np ok b p1 Ha) as [b0 [q [Eq [-> _]]]].
  unfold release; simpl. rewrite list_lookup_middle with (l2 := []) by reflexivity.
  assert (Hroom : (length q < pool_size p)%nat).
  { unfold total in Ht. rewrite Eq in Ht. simpl in Ht. lia. }
  rewrite (delete_middle (in_use p) [] b), app_nil_r.
  destruct mw.
  - destruct Hmw as [Hmw|Hmw]; [discriminate|].
    unfold _release_enhanced_browser. destruct res as [|e].
    + eexists. rewrite put_room by exact Hroom. split; reflexivity.
    + destruct (Hmw ltac:(discriminate)) as [Hnb Hrc]. rewrite Hnb. simpl.
      rewrite bool_decide_eq_false_2 by lia.
      eexists. rewrite put_room by exact Hroom. split; reflexivity.
  - unfold _return_browser. eexists. rewrite put_room by exact Hroom. split; reflexivity.
Qed.

(** C5 (code bug): a bot detection puts no session in quarantine.  In the hybrid
    middleware the browser that met it goes back to the pool unchanged
    and [BotDetectionError] is retried (unless [dont_retry] or the retry
    budget is spent); when it was the only free browser, the retry gets
    the same session and proxy.  In the enhanced middleware the
    bot-detection branch calls [record_failure] with the keyword
    [bot_detected], which raises [TypeError]: the proxy gets a plain
    failure (its detection count is unchanged), a browser that has served
    at most 100 requests goes back to the pool, and [TypeError] is not
    retried. *)
Theorem bot_detection_keeps_session (p : pool) (b : browser_info) (p1 : pool) (i : nat)
  (np : string) (dont_retry : bool) (rt mx : Z) (m : EnhancedPM.manager) (rtime : Q) (now : Z) :
  acquire Hybrid p 0 None false = Some (b, p1) ->
  (total p <= pool_size p)%nat ->
  head (pool_queue p) = Some b /\
  (exists p2, release Hybrid p1 (length (in_use p)) (Failed BotDetectionError) i np = Some p2 /\
     pool_queue p2 = pool_queue p1 ++ [b] /\
     (pool_queue p = [b] -> exists p3, acquire Hybrid p2 0 None false = Some (b, p3))) /\
  should_retry dont_retry rt mx (Failed BotDetectionError) = negb dont_retry && bool_decide (rt < mx) /\
  _execute_enhanced_request m b PageBot rtime now
    = (Failed TypeError, EnhancedPM.record_failure_body m (bproxy b) false now) /\
  EnhancedPM.bot_detections
    (EnhancedPM.stats_of (EnhancedPM.record_failure_body m (bproxy b) false now) (bproxy b))
    = EnhancedPM.bot_detections (EnhancedPM.stats_of m (bproxy b)) /\
  (forall rc np' ok be pe1, acquire Enhanced p rc np' ok = Some (be, pe1) -> request_count be <= 100 ->
     exists pe2, release Enhanced pe1 (length (in_use p)) (Failed TypeError) i np = Some pe2 /\
                 pool_queue pe2 = pool_queue pe1 ++ [be]) /\
  should_retry dont_retry rt mx (Failed TypeError) = false.
Proof.
  intros Ha Ht.
  destruct (acquire_shape Hybrid p 0 None false b p1 Ha) as [b0 [q [Eq [Ep1 Hb0]]]].
  specialize (Hb0 eq_refl). subst b0.
  split; [rewrite Eq; reflexivity|].
  split.
  { destruct (release_after_acquire Hybrid p 0 None false b p1 (Failed BotDetectionError) i np Ha Ht
                (or_introl eq_refl)) as [p2 [Hr Hq]].
    exists p2. split; [exact Hr|]. split; [exact Hq|].
    intros Hone. rewrite Eq in Hone. injection Hone as ->.
    rewrite Ep1 in Hq. simpl in Hq.
    unfold acquire. rewrite Hq. eexists. reflexivity. }
  split; [destruct dont_retry; reflexivity|].
  split; [reflexivity|].
  split.
  { destruct (ProxyManagerFacts.enhanced_failure_own_stats m (bproxy b) false now) as [H _].
    exact H. }
  split; [|destruct dont_retry; reflexivity].
  intros rc np' ok be pe1 Hae Hrc.
  apply (release_after_acquire Enhanced p rc np' ok be pe1 (Failed TypeError) i np Hae Ht).
  right. intros _. split; [reflexivity|exact Hrc].
Qed.

Lemma bot_detection_keeps_session_witness :
  acquire Hybrid c5_pool 0 None false
    = Some (mkBrowser 0 "P" false 0, mkPool 1 [] [mkBrowser 0 "P" false 0] [] 1) /\
  (total c5_pool <= pool_size c5_pool)%nat /\
  head (pool_queue c5_pool) = Some (mkBrowser 0 "P" false 0).
Proof.
  assert (Ha : acquire Hybrid c5_pool 0 None false
               = Some (mkBrowser 0 "P" false 0, mkPool 1 [] [mkBrowser 0 "P" false 0] [] 1))
    by (vm_compute; reflexivity).
  assert (Ht : (total c5_pool <= pool_size c5_pool)%nat) by (vm_compute; lia).
  split; [exact Ha|]. split; [exact Ht|].
  exact (proj1 (bot_detection_keeps_session c5_pool _ _ 0 "" false 0 5
                  Scenarios.enhanced_one 1 0 Ha Ht)).
Defined.

(** The failing input of C5: with the hybrid pool of one browser, a
    request that meets a bot detection page is retried on the same
    session and proxy. *)
Lemma hybrid_retry_same_session :
  hybrid_execute PageBot = Failed BotDetectionError /\
  fst (hybrid_attempts c5_pool [PageBot; PageOk] false 0 5)
    = [(0%nat, "P"%string); (0%nat, "P"%string)].
Proof. split; [reflexivity|vm_compute; reflexivity]. Qed.

End BrowserPoolFacts.

(* ===================================================================== *)
(** * 20. Counters of the parallel store spider *)
(* ===================================================================== *)

Module SpiderCountingFacts.
Import ParallelSpider SpiderCounting.

Lemma fa_split {A} (P Q R : A -> Prop) :
  (forall x, P x -> Q x) -> (forall x, P x -> R x) -> forall x, P x -> Q x /\ R x.
Proof. intros H1 H2 x Hx. split; auto. Qed.

Lemma fa_split2 {A B} (P Q R : A -> B -> Prop) :
  (forall x y, P x y -> Q x y) -> (forall x y, P x y -> R x y) -> forall x y, P x y -> Q x y /\ R x y.
Proof. intros H1 H2 x y Hx. split; auto. Qed.

Ltac inv_split8 := split; [|split; [|split; [|split]]]; [| | apply fa_split | apply fa_split2 | apply fa_split].
Ltac inv_split7 := split; [|split; [|split; [|split]]]; [| | | apply fa_split2 | apply fa_split].

Lemma count_by_app (f : request -> bool) (l1 l2 : list request) :
  count_by f (l1 ++ l2) = (count_by f l1 + count_by f l2)%nat.
Proof.
  unfold count_by. induction l1 as [|x l1 IH]; simpl; [reflexivity|].
  destruct (f x); simpl; rewrite ?IH; reflexivity.
Qed.

Lemma count_by_cons (f : request -> bool) (x : request) (l : list request) :
  count_by f (x :: l) = ((if f x then 1 else 0) + count_by f l)%nat.
Proof. unfold count_by. simpl. destruct (f x); reflexivity. Qed.

Lemma take_out_count (r : request) (l : list request) : forall (l' : list request) f,
  take_out r l = Some l' -> count_by f l = ((if f r then 1 else 0) + count_by f l')%nat.
Proof.
  induction l as [|x l IH]; intros l' f H; simpl in H; [discriminate|].
  destruct (decide (x = r)) as [->|Hne].
  - injection H as <-. apply count_by_cons.
  - destruct (take_out r l) as [l''|] eqn:E; [|discriminate].
    injection H as <-. rewrite !count_by_cons, (IH l'' f eq_refl).
    destruct (f x), (f r); lia.
Qed.

Lemma take_out_in (r : request) (l : list request) : forall (l' : list request) x,
  take_out r l = Some l' -> In x l' -> In x l.
Proof.
  induction l as [|y l IH]; intros l' x H Hx; simpl in H; [discriminate|].
  destruct (decide (y = r)) as [->|Hne].
  - injection H as <-. right. exact Hx.
  - destruct (take_out r l) as [l''|] eqn:E; [|discriminate].
    injection H as <-. destruct Hx as [<-|Hx]; [left; reflexivity|].
    right. eapply IH; eauto.
Qed.

Lemma take_out_in_self (r : request) (l : list request) : forall (l' : list request),
  take_out r l = Some l' -> In r l.
Proof.
  induction l as [|y l IH]; intros l' H; simpl in H; [discriminate|].
  destruct (decide (y = r)) as [->|Hne]; [left; reflexivity|].
  destruct (take_out r l) as [l''|] eqn:E; [|discriminate].
  right. eapply IH; eauto.
Qed.

Lemma count_by_in (f : request -> bool) (l : list request) (x : request) :
  In x l -> f x = true -> (1 <= count_by f l)%nat.
Proof.
  unfold count_by. intros Hin Hf.
  assert (In x (List.filter f l)) by (apply filter_In; auto).
  destruct (List.filter f l); [destruct H|simpl; lia].
Qed.

Lemma store_of_in (s : store_id) (l : list request) :
  In (StoreReq s) l -> (1 <= count_by (is_store_of s) l)%nat.
Proof. intros H. apply (count_by_in _ _ _ H). simpl. apply bool_decide_true. reflexivity. Qed.

Lemma count_map_store_req (ids : list store_id) :
  count_by is_store_req (map StoreReq ids) = length ids.
Proof. induction ids as [|s ids IH]; [reflexivity|]. rewrite map_cons, count_by_cons, IH. reflexivity. Qed.

Lemma count_map_cat (s : store_id) (ids : list store_id) :
  count_by (is_cat_of s) (map StoreReq ids) = 0%nat.
Proof. induction ids as [|x ids IH]; [reflexivity|]. rewrite map_cons, count_by_cons, IH. reflexivity. Qed.

Lemma count_map_store_of (s : store_id) (ids : list store_id) :
  NoDup ids -> (count_by (is_store_of s) (map StoreReq ids) <= 1)%nat /\
  (~ In s ids -> count_by (is_store_of s) (map StoreReq ids) = 0%nat).
Proof.
  induction ids as [|x ids IH]; intros Hnd; [split; [unfold count_by; simpl; lia|reflexivity]|].
  apply NoDup_cons in Hnd as [Hx Hnd]. destruct (IH Hnd) as [H1 H2].
  rewrite map_cons, count_by_cons. simpl.
  destruct (bool_decide_reflect (x = s)) as [->|Hne].
  - rewrite H2; [split; [lia|]|].
    + intros Hn. exfalso. apply Hn. left. reflexivity.
    + intros Hin. apply Hx. apply list_elem_of_In. exact Hin.
  - split; [lia|]. intros Hn. apply H2. intros Hin. apply Hn. right. exact Hin.
Qed.

Lemma count_store_cats (s : store_id) (cats : list category) (f : request -> bool) :
  count_by f (concat (map (fun c => scrape_category s c 1) cats)) =
  length (List.filter f (map (fun c => CatReq s c 1) cats)).
Proof.
  induction cats as [|c cats IH]; [reflexivity|].
  simpl. rewrite count_by_cons, IH. destruct (f (CatReq s c 1)); reflexivity.
Qed.

Lemma count_cats_const (s : store_id) (cats : list category) (f : request -> bool) (b : bool) :
  (forall c, f (CatReq s c 1) = b) ->
  length (List.filter f (map (fun c => CatReq s c 1) cats)) = if b then length cats else 0%nat.
Proof.
  intros Hf. induction cats as [|c cats IH]; [destruct b; reflexivity|].
  simpl. rewrite Hf. destruct b; simpl; rewrite IH; reflexivity.
Qed.

(** [schedule_loop] admits fresh, distinct stores and only touches the
    queue, [processed_stores] and [active_stores]. *)
Lemma schedule_loop_fresh (f : nat) : forall (sp sp' : spider) (rs : list request),
  schedule_loop f sp = (sp', rs) ->
  exists ids,
    rs = map StoreReq ids /\ NoDup ids /\
    (forall s, In s ids -> s ∉ processed_stores sp) /\
    (forall s, s ∈ processed_stores sp' <-> In s ids \/ s ∈ processed_stores sp) /\
    active_stores sp' = active_stores sp + Z.of_nat (length ids) /\
    store_category_status sp' = store_category_status sp /\
    categories sp' = categories sp.
Proof.
  induction f as [|f IH]; intros sp sp' rs Hrun; simpl in Hrun.
  - injection Hrun as <- <-. exists []. repeat split; simpl; auto using NoDup_nil_2; try tauto. lia.
  - destruct (decide (active_stores sp < parallel_stores sp)) as [Hlt|Hge].
    + destruct (stores_queue sp) as [|s q] eqn:Eq.
      * injection Hrun as <- <-. exists []. repeat split; simpl; auto using NoDup_nil_2; try tauto. lia.
      * destruct (decide (s ∈ processed_stores sp)) as [Hin|Hnin].
        -- destruct (IH _ _ _ Hrun) as (ids & H1 & H2 & H3 & H4 & H5 & H6 & H7).
           exists ids. simpl in *. repeat split; auto; intros; apply H4; assumption.
        -- set (sp2 := set_active (set_processed (set_queue sp q) ({[s]} ∪ processed_stores sp))
                                  (active_stores sp + 1)) in Hrun.
           destruct (schedule_loop f sp2) as [sp3 rs3] eqn:E3.
           injection Hrun as <- <-.
           destruct (IH _ _ _ E3) as (ids & H1 & H2 & H3 & H4 & H5 & H6 & H7).
           simpl in Hnin.
           exists (s :: ids). simpl in *. repeat split.
           ++ rewrite H1. reflexivity.
           ++ apply NoDup_cons_2; [|exact H2].
              intros Hs. apply list_elem_of_In in Hs. apply (H3 s Hs). set_solver.
           ++ intros x [<-|Hx]; [exact Hnin|]. intros Hp. apply (H3 x Hx). set_solver.
           ++ intros Hx. apply H4 in Hx as [Hx|Hx]; [left; right; exact Hx|].
              apply elem_of_union in Hx as [Hx|Hx];
                [apply elem_of_singleton in Hx; left; left; auto|right; exact Hx].
           ++ intros Hx. apply H4. destruct Hx as [[<-|Hx]|Hx]; [right; set_solver|left; exact Hx|right; set_solver].
           ++ rewrite H5. lia.
           ++ exact H6.
           ++ exact H7.
    + injection Hrun as <- <-. exists []. repeat split; simpl; auto using NoDup_nil_2; try tauto. lia.
Qed.

Lemma inv_schedule (g : store_id -> nat) (sp sp' : spider) (out rs : list request) :
  spider_inv g (mkWorld sp out) -> schedule_next_stores sp = (sp', rs) ->
  spider_inv g (mkWorld sp' (out ++ rs)).
Proof.
  intros (I1 & I2 & I3 & I4 & I5) Hs.
  destruct (schedule_loop_fresh _ _ _ _ Hs) as (ids & -> & Hnd & Hfr & Hpr & Ha & Hst & _).
  unfold spider_inv; simpl in *. rewrite Hst.
  assert (Hnot : forall s, In s ids -> ~ In (StoreReq s) out /\ store_category_status sp !! s = None).
  { intros s Hs'. split.
    - intros Hin. apply (Hfr s Hs'). apply (I3 s Hin).
    - destruct (store_category_status sp !! s) as [k|] eqn:E; [|reflexivity].
      exfalso. apply (Hfr s Hs'). apply (I4 s k E). }
  inv_split7.
  - rewrite Ha, I1, count_by_app, count_map_store_req. lia.
  - intros s. rewrite count_by_app. destruct (count_map_store_of s ids Hnd) as [C1 C2].
    destruct (In_dec (fun a b => decide (a = b)) s ids) as [Hin|Hnin].
    + destruct (count_by (is_store_of s) out) eqn:E; [lia|].
      exfalso. apply (proj1 (Hnot s Hin)).
      unfold count_by in E. assert (Hf : In (StoreReq s) (List.filter (is_store_of s) out) ->
        In (StoreReq s) out) by (rewrite filter_In; tauto). apply Hf.
      destruct (List.filter (is_store_of s) out) as [|x l] eqn:Ef; [discriminate|].
      assert (Hx : In x (List.filter (is_store_of s) out)) by (rewrite Ef; left; reflexivity).
      apply filter_In in Hx as [_ Hx]. destruct x as [s'|]; [|discriminate].
      apply bool_decide_eq_true in Hx. subst s'. left. reflexivity.
    + rewrite (C2 Hnin). specialize (I2 s). lia.
  - intros s Hin. apply in_app_or in Hin as [Hin|Hin].
    + destruct (I3 s Hin) as [Hp Hn]. split; [apply Hpr; right; exact Hp|exact Hn].
    + apply in_map_iff in Hin as [x [Hx Hin]]. injection Hx as ->.
      split; [apply Hpr; left; exact Hin|exact (proj2 (Hnot s Hin))].
  - intros s k Hk. apply Hpr. right. apply (I4 s k Hk).
  - intros s k Hk. rewrite count_by_app, count_map_cat. rewrite Nat.add_0_r. apply (I4 s k Hk).
  - intros s Hk. rewrite count_by_app, count_map_cat, (proj1 (I5 s Hk)). reflexivity.
  - intros s Hk. exact (proj2 (I5 s Hk)).
Qed.

Lemma inv_start (P : Z) (stores : list store_id) (cats : list category) :
  spider_inv (fun _ => 0%nat) (start_world P stores cats).
Proof.
  unfold start_world, start.
  destruct (schedule_next_stores _) as [sp rs] eqn:E.
  change rs with ([] ++ rs).
  eapply inv_schedule; [|exact E].
  unfold spider_inv; simpl; inv_split8.
  - rewrite map_size_empty. reflexivity.
  - intros s. unfold count_by. simpl. lia.
  - intros s [].
  - intros s [].
  - intros s k Hk. rewrite lookup_empty in Hk. discriminate.
  - intros s k Hk. rewrite lookup_empty in Hk. discriminate.
  - intros s _. reflexivity.
  - intros s _. reflexivity.
Qed.

Lemma spider_inv_ext (g g' : store_id -> nat) (w : world) :
  (forall s, g s = g' s) -> spider_inv g w -> spider_inv g' w.
Proof.
  intros Hg (I1 & I2 & I3 & I4 & I5).
  split; [exact I1|]. split; [exact I2|]. split; [exact I3|]. split.
  - intros s k Hk. rewrite <- Hg. exact (I4 s k Hk).
  - intros s Hs. rewrite <- Hg. exact (I5 s Hs).
Qed.

(** Answering a store-page request by releasing its slot. *)
Lemma inv_drop_store (g : store_id -> nat) (sp : spider) (out rest : list request) (s : store_id) :
  spider_inv g (mkWorld sp out) -> take_out (StoreReq s) out = Some rest ->
  spider_inv g (mkWorld (set_active sp (active_stores sp - 1)) rest).
Proof.
  intros (I1 & I2 & I3 & I4 & I5) Ht. unfold spider_inv; simpl in *.
  pose proof (fun f => take_out_count _ _ _ f Ht) as C.
  inv_split8; simpl.
  - rewrite I1, (C is_store_req). simpl. lia.
  - intros x. specialize (I2 x). rewrite (C (is_store_of x)) in I2. lia.
  - intros x Hx. apply I3. eapply take_out_in; eauto.
  - intros x Hx. apply I3. eapply take_out_in; eauto.
  - intros x k Hk. apply (I4 x k Hk).
  - intros x k Hk. rewrite (proj2 (I4 x k Hk)), (C (is_cat_of x)). reflexivity.
  - intros x Hx. destruct (I5 x Hx) as [I5a _]. rewrite (C (is_cat_of x)) in I5a. simpl in I5a.
    exact I5a.
  - intros x Hx. exact (proj2 (I5 x Hx)).
Qed.

Lemma inv_store_page (g : store_id -> nat) (sp : spider) (out rest : list request) (s : store_id) :
  spider_inv g (mkWorld sp out) -> take_out (StoreReq s) out = Some rest ->
  spider_inv g (mkWorld (fst (parse_store_page sp s true))
                        (rest ++ snd (parse_store_page sp s true))).
Proof.
  intros (I1 & I2 & I3 & I4 & I5) Ht. unfold spider_inv; simpl in *.
  pose proof (fun f => take_out_count _ _ _ f Ht) as C.
  assert (Hin : In (StoreReq s) out) by (eapply take_out_in_self; eauto).
  destruct (I3 s Hin) as [Hps Hns].
  assert (Hrest : ~ In (StoreReq s) rest).
  { intros Hr. apply store_of_in in Hr. specialize (I2 s). rewrite (C (is_store_of s)) in I2.
    simpl in I2. rewrite bool_decide_true in I2 by reflexivity. lia. }
  set (N := length (categories sp)).
  assert (Hcs : forall x, count_by is_store_req (concat (map (fun c => scrape_category s c 1) (categories sp))) = 0%nat /\
                count_by (is_store_of x) (concat (map (fun c => scrape_category s c 1) (categories sp))) = 0%nat /\
                count_by (is_cat_of x) (concat (map (fun c => scrape_category s c 1) (categories sp))) =
                  if bool_decide (s = x) then N else 0%nat).
  { intros x. rewrite !count_store_cats.
    split; [apply (count_cats_const _ _ _ false); reflexivity|].
    split; [apply (count_cats_const _ _ _ false); reflexivity|].
    apply count_cats_const. intros c. reflexivity. }
  inv_split8; simpl.
  - rewrite count_by_app, (proj1 (Hcs s)), map_size_insert_None by exact Hns.
    rewrite I1, (C is_store_req). simpl. lia.
  - intros x. rewrite count_by_app, (proj1 (proj2 (Hcs x))).
    specialize (I2 x). rewrite (C (is_store_of x)) in I2. lia.
  - intros x Hx. apply in_app_or in Hx as [Hx|Hx].
    + apply I3. eapply take_out_in; eauto.
    + exfalso. apply in_concat in Hx as [l [Hl Hx]]. apply in_map_iff in Hl as [c [<- _]].
      destruct Hx as [Hx|[]]. discriminate.
  - intros x Hx. apply in_app_or in Hx as [Hx|Hx].
    + assert (x <> s) by (intros ->; contradiction).
      rewrite lookup_insert_ne by congruence. apply I3. eapply take_out_in; eauto.
    + exfalso. apply in_concat in Hx as [l [Hl Hx]]. apply in_map_iff in Hl as [c [<- _]].
      destruct Hx as [Hx|[]]. discriminate.
  - intros x k Hk. destruct (decide (x = s)) as [->|Hne].
    + exact Hps.
    + rewrite lookup_insert_ne in Hk by congruence. apply (I4 x k Hk).
  - intros x k Hk. rewrite count_by_app, (proj2 (proj2 (Hcs x))).
    destruct (decide (x = s)) as [->|Hne].
    + rewrite lookup_insert_eq in Hk. injection Hk as <-.
      rewrite bool_decide_true by reflexivity.
      destruct (I5 s Hns) as [I5a I5b]. rewrite (C (is_cat_of s)) in I5a. simpl in I5a. lia.
    + rewrite lookup_insert_ne in Hk by congruence.
      rewrite bool_decide_false by congruence.
      rewrite (proj2 (I4 x k Hk)), (C (is_cat_of x)). simpl. lia.
  - intros x Hx. destruct (decide (x = s)) as [->|Hne].
    + rewrite lookup_insert_eq in Hx. discriminate.
    + rewrite lookup_insert_ne in Hx by congruence.
      rewrite count_by_app, (proj2 (proj2 (Hcs x))), bool_decide_false by congruence.
      destruct (I5 x Hx) as [I5a _]. rewrite (C (is_cat_of x)) in I5a. simpl in I5a. lia.
  - intros x Hx. destruct (decide (x = s)) as [->|Hne].
    + rewrite lookup_insert_eq in Hx. discriminate.
    + rewrite lookup_insert_ne in Hx by congruence. exact (proj2 (I5 x Hx)).
Qed.

Lemma inv_cat_next (g : store_id -> nat) (sp : spider) (out rest : list request) (s : store_id)
  (c : category) (p : Z) :
  spider_inv g (mkWorld sp out) -> take_out (CatReq s c p) out = Some rest ->
  spider_inv g (mkWorld sp (rest ++ [CatReq s c (p + 1)])).
Proof.
  intros (I1 & I2 & I3 & I4 & I5) Ht. unfold spider_inv; simpl in *.
  pose proof (fun f => take_out_count _ _ _ f Ht) as C.
  assert (E : forall f, f (CatReq s c p) = f (CatReq s c (p + 1)) ->
                count_by f (rest ++ [CatReq s c (p + 1)]) = count_by f out).
  { intros f Hf. rewrite count_by_app, (C f), count_by_cons, Hf.
    destruct (f (CatReq s c (p + 1))); unfold count_by; simpl; lia. }
  inv_split8.
  - rewrite E by reflexivity. exact I1.
  - intros x. rewrite E by reflexivity. apply I2.
  - intros x Hx. apply in_app_or in Hx as [Hx|[Hx|[]]]; [|discriminate].
    apply I3. eapply take_out_in; eauto.
  - intros x Hx. apply in_app_or in Hx as [Hx|[Hx|[]]]; [|discriminate].
    apply I3. eapply take_out_in; eauto.
  - intros x k Hk. apply (I4 x k Hk).
  - intros x k Hk. rewrite E by reflexivity. exact (proj2 (I4 x k Hk)).
  - intros x Hx. rewrite E by reflexivity. exact (proj1 (I5 x Hx)).
  - intros x Hx. exact (proj2 (I5 x Hx)).
Qed.

Lemma inv_cat_done (g : store_id -> nat) (sp : spider) (out rest : list request) (s : store_id)
  (c : category) (p : Z) :
  spider_inv g (mkWorld sp out) -> take_out (CatReq s c p) out = Some rest ->
  spider_inv g (mkWorld (category_complete_for_store sp s) rest).
Proof.
  intros (I1 & I2 & I3 & I4 & I5) Ht. unfold spider_inv; simpl in *.
  pose proof (fun f => take_out_count _ _ _ f Ht) as C.
  assert (Hcs : count_by (is_cat_of s) out = S (count_by (is_cat_of s) rest)).
  { rewrite (C (is_cat_of s)). simpl. rewrite bool_decide_true by reflexivity. reflexivity. }
  unfold category_complete_for_store.
  destruct (store_category_status sp !! s) as [k|] eqn:Ek;
    [|exfalso; rewrite (proj1 (I5 s Ek)) in Hcs; discriminate].
  destruct (I4 s k Ek) as [Hps Hk]. rewrite Hcs in Hk.
  destruct (decide (k - 1 <= 0)) as [Hle|Hgt].
  - assert (Hsz : size (store_category_status sp) = S (size (delete s (store_category_status sp)))).
    { rewrite map_size_delete_Some by (exists k; exact Ek). pose proof (map_size_ne_0_lookup_2 (store_category_status sp) s ltac:(exists k; exact Ek)). lia. }
    destruct (decide (active_stores sp > 0)) as [Hpos|Hnpos];
      [|exfalso; rewrite I1 in Hnpos; lia].
    inv_split8; simpl.
    + rewrite I1, Hsz, (C is_store_req). simpl. lia.
    + intros x. specialize (I2 x). rewrite (C (is_store_of x)) in I2. simpl in I2. lia.
    + intros x Hx. apply I3. eapply take_out_in; eauto.
    + intros x Hx. destruct (decide (x = s)) as [->|Hxs]; [apply lookup_delete_eq|].
      rewrite lookup_delete_ne by congruence. apply I3. eapply take_out_in; eauto.
    + intros x k' Hk'. destruct (decide (x = s)) as [->|Hxs];
        [rewrite lookup_delete_eq in Hk'; discriminate|].
      rewrite lookup_delete_ne in Hk' by congruence. apply (I4 x k' Hk').
    + intros x k' Hk'. destruct (decide (x = s)) as [->|Hxs];
        [rewrite lookup_delete_eq in Hk'; discriminate|].
      rewrite lookup_delete_ne in Hk' by congruence.
      rewrite (proj2 (I4 x k' Hk')), (C (is_cat_of x)). simpl.
      rewrite bool_decide_false by congruence. reflexivity.
    + intros x Hx. destruct (decide (x = s)) as [->|Hxs]; [lia|].
      rewrite lookup_delete_ne in Hx by congruence.
      destruct (I5 x Hx) as [I5a _]. rewrite (C (is_cat_of x)) in I5a. simpl in I5a. lia.
    + intros x Hx. destruct (decide (x = s)) as [->|Hxs]; [lia|].
      rewrite lookup_delete_ne in Hx by congruence. exact (proj2 (I5 x Hx)).
  - inv_split8; simpl.
    + rewrite map_size_insert_Some by (exists k; exact Ek). rewrite I1, (C is_store_req). simpl. lia.
    + intros x. specialize (I2 x). rewrite (C (is_store_of x)) in I2. simpl in I2. lia.
    + intros x Hx. apply I3. eapply take_out_in; eauto.
    + intros x Hx. destruct (decide (x = s)) as [->|Hxs].
      * exfalso. pose proof (proj2 (I3 s (take_out_in _ _ _ _ Ht Hx))) as Hn. congruence.
      * rewrite lookup_insert_ne by congruence. apply I3. eapply take_out_in; eauto.
    + intros x k' Hk'. destruct (decide (x = s)) as [->|Hxs]; [exact Hps|].
      rewrite lookup_insert_ne in Hk' by congruence. apply (I4 x k' Hk').
    + intros x k' Hk'. destruct (decide (x = s)) as [->|Hxs].
      * rewrite lookup_insert_eq in Hk'. injection Hk' as <-. lia.
      * rewrite lookup_insert_ne in Hk' by congruence.
        rewrite (proj2 (I4 x k' Hk')), (C (is_cat_of x)). simpl.
        rewrite bool_decide_false by congruence. reflexivity.
    + intros x Hx. destruct (decide (x = s)) as [->|Hxs];
        [rewrite lookup_insert_eq in Hx; discriminate|].
      rewrite lookup_insert_ne in Hx by congruence.
      destruct (I5 x Hx) as [I5a _]. rewrite (C (is_cat_of x)) in I5a. simpl in I5a. lia.
    + intros x Hx. destruct (decide (x = s)) as [->|Hxs];
        [rewrite lookup_insert_eq in Hx; discriminate|].
      rewrite lookup_insert_ne in Hx by congruence. exact (proj2 (I5 x Hx)).
Qed.

(** Answering a category request whose [parse_category] raised: the
    request is gone and the store's counter is left as it was. *)
Lemma inv_cat_raise (g : store_id -> nat) (sp : spider) (out rest : list request) (s : store_id)
  (c : category) (p : Z) :
  spider_inv g (mkWorld sp out) -> take_out (CatReq s c p) out = Some rest ->
  spider_inv (fun x => (g x + if bool_decide (s = x) then 1 else 0)%nat) (mkWorld sp rest).
Proof.
  intros (I1 & I2 & I3 & I4 & I5) Ht. unfold spider_inv; simpl in *.
  pose proof (fun f => take_out_count _ _ _ f Ht) as C.
  inv_split8.
  - rewrite I1, (C is_store_req). simpl. lia.
  - intros x. specialize (I2 x). rewrite (C (is_store_of x)) in I2. simpl in I2. lia.
  - intros x Hx. apply I3. eapply take_out_in; eauto.
  - intros x Hx. apply I3. eapply take_out_in; eauto.
  - intros x k Hk. apply (I4 x k Hk).
  - intros x k Hk. rewrite (proj2 (I4 x k Hk)), (C (is_cat_of x)). simpl.
    destruct (bool_decide (s = x)); lia.
  - intros x Hx. destruct (I5 x Hx) as [I5a _]. rewrite (C (is_cat_of x)) in I5a. simpl in I5a.
    lia.
  - intros x Hx. destruct (I5 x Hx) as [I5a I5b]. rewrite (C (is_cat_of x)) in I5a. simpl in I5a.
    destruct (bool_decide (s = x)); simpl in *; lia.
Qed.

Lemma inv_step (g : store_id -> nat) (w w' : world) (e : event) :
  spider_inv g w -> wstep w e = Some w' ->
  spider_inv (fun s => (g s + if raised_page_of s e then 1 else 0)%nat) w'.
Proof.
  destruct w as [sp out]. intros Hi H. destruct e as [r resp|]; simpl in H.
  - destruct (take_out r out) as [rest|] eqn:Ht; [|discriminate].
    destruct (dispatch sp r resp) as [[sp' new]|] eqn:Ed; [|discriminate].
    injection H as <-.
    destruct r as [s|s c p], resp as [b| |d|]; simpl in Ed; try discriminate;
      injection Ed as Ed; try (rename H into Hn).
    + apply (spider_inv_ext g); [intros x; simpl; lia|].
      destruct b.
      * pose proof (inv_store_page g sp out rest s Hi Ht) as Hx. rewrite Ed in Hx. exact Hx.
      * unfold parse_store_page in Ed. injection Ed as <- <-. rewrite app_nil_r.
        exact (inv_drop_store g sp out rest s Hi Ht).
    + apply (spider_inv_ext g); [intros x; simpl; lia|].
      unfold handle_store_error in Ed.
      eapply inv_schedule; [|exact Ed]. eapply inv_drop_store; eauto.
    + unfold parse_category in Ed. destruct d as [|n|].
      * apply (spider_inv_ext g); [intros x; simpl; lia|].
        injection Ed as <- <-. rewrite app_nil_r. eapply inv_cat_done; eauto.
      * apply (spider_inv_ext g); [intros x; simpl; lia|].
        destruct (bool_decide _ && bool_decide _); injection Ed as <- <-.
        -- eapply inv_cat_next; eauto.
        -- rewrite app_nil_r. eapply inv_cat_done; eauto.
      * injection Ed as <- <-. rewrite app_nil_r. exact (inv_cat_raise g sp out rest s c p Hi Ht).
    + apply (spider_inv_ext g); [intros x; simpl; lia|].
      subst sp' new. rewrite app_nil_r. unfold handle_category_error. eapply inv_cat_done; eauto.
  - apply (spider_inv_ext g); [intros x; simpl; lia|].
    unfold spider_idle in H.
    destruct (decide _).
    + destruct (stores_queue sp).
      * injection H as <-. rewrite app_nil_r. exact Hi.
      * destruct (schedule_next_stores sp) as [sp' new] eqn:E.
        injection H as <-. eapply inv_schedule; eauto.
    + injection H as <-. rewrite app_nil_r. exact Hi.
Qed.

Lemma inv_reachable (P : Z) (stores : list store_id) (cats : list category) (w : world) :
  reachable P stores cats w -> exists g, spider_inv g w.
Proof.
  intros Hr. induction Hr as [|w e w' Hr IH Hs]; [exists (fun _ => 0%nat); apply inv_start|].
  destruct IH as [g Hg]. eexists. eapply inv_step; eauto.
Qed.

Lemma inv_run (es : list event) : forall (g : store_id -> nat) (w w' : world),
  spider_inv g w -> wrun w es = Some w' ->
  spider_inv (fun s => (g s + raised_pages s es)%nat) w'.
Proof.
  induction es as [|e es IH]; intros g w w' Hi H; simpl in H.
  - injection H as <-. apply (spider_inv_ext g); [intros x; unfold raised_pages; simpl; lia|exact Hi].
  - destruct (wstep w e) as [w1|] eqn:E; [|discriminate].
    pose proof (IH _ w1 w' (inv_step g w w1 e Hi E) H) as Hi'.
    apply (spider_inv_ext _ _ _ ltac:(intros x; reflexivity)) in Hi'.
    revert Hi'. apply spider_inv_ext. intros x. unfold raised_pages. simpl.
    destruct (raised_page_of x e); simpl; lia.
Qed.

(** X1: in every reachable state, [active_stores] equals the number of
    store-page requests in flight plus the number of stores whose
    category counter is open; in particular it is never negative. *)
Theorem active_stores_accounting (P : Z) (stores : list store_id) (cats : list category)
  (w : world) :
  reachable P stores cats w ->
  active_stores (wsp w) = Z.of_nat (count_by is_store_req (outstanding w))
                          + Z.of_nat (size (store_category_status (wsp w))) /\
  0 <= active_stores (wsp w).
Proof.
  intros Hr. destruct (inv_reachable P stores cats w Hr) as [g [Ha _]]. split; lia.
Qed.

Lemma active_stores_accounting_witness :
  reachable 1 ["A"; "B"] ["c1"; "c2"] spider_w1 /\
  active_stores (wsp spider_w1) = Z.of_nat (count_by is_store_req (outstanding spider_w1))
                                  + Z.of_nat (size (store_category_status (wsp spider_w1))) /\
  0 <= active_stores (wsp spider_w1).
Proof.
  assert (Hr : reachable 1 ["A"; "B"] ["c1"; "c2"] spider_w1).
  { apply (ParallelSpiderFacts.wrun_reachable 1 ["A"; "B"] ["c1"; "c2"] [Deliver (StoreReq "A") (RStorePage true)]
             (start_world 1 ["A"; "B"] ["c1"; "c2"])).
    - apply reach_start.
    - vm_compute. reflexivity. }
  split; [exact Hr|]. exact (active_stores_accounting 1 ["A"; "B"] ["c1"; "c2"] spider_w1 Hr).
Defined.

(** X2: in every state a run reaches, at most one store-page request per
    store is in flight, a store with a store-page request in flight is
    processed and has no category counter, a store whose counter is [k]
    has [k] minus the number of its category pages whose
    [parse_category] raised so far as category requests in flight, and
    a store with no counter has no category request in flight and no
    raised page. *)
Theorem category_counter_matches_requests (P : Z) (stores : list store_id)
  (cats : list category) (es : list event) (w : world) :
  wrun (start_world P stores cats) es = Some w ->
  (forall s, (count_by (is_store_of s) (outstanding w) <= 1)%nat) /\
  (forall s, In (StoreReq s) (outstanding w) ->
     s ∈ processed_stores (wsp w) /\ store_category_status (wsp w) !! s = None) /\
  (forall s k, store_category_status (wsp w) !! s = Some k ->
     k = Z.of_nat (count_by (is_cat_of s) (outstanding w) + raised_pages s es)) /\
  (forall s, store_category_status (wsp w) !! s = None ->
     count_by (is_cat_of s) (outstanding w) = 0%nat /\ raised_pages s es = 0%nat).
Proof.
  intros Hrun.
  destruct (inv_run es (fun _ => 0%nat) _ w (inv_start P stores cats) Hrun)
    as (_ & H2 & H3 & H4 & H5).
  split; [exact H2|]. split; [exact H3|]. split.
  - intros s k Hk. exact (proj2 (H4 s k Hk)).
  - exact H5.
Qed.

Lemma category_counter_matches_requests_witness :
  wrun (start_world 1 ["A"; "B"] ["c1"; "c2"]) spider_events2 = Some spider_w2 /\
  store_category_status (wsp spider_w2) !! "A" = Some 2 /\
  2 = Z.of_nat (count_by (is_cat_of "A") (outstanding spider_w2) + raised_pages "A" spider_events2).
Proof.
  assert (Hr : wrun (start_world 1 ["A"; "B"] ["c1"; "c2"]) spider_events2 = Some spider_w2)
    by (vm_compute; reflexivity).
  assert (Hk : store_category_status (wsp spider_w2) !! "A" = Some 2) by (vm_compute; reflexivity).
  split; [exact Hr|]. split; [exact Hk|].
  exact (proj1 (proj2 (proj2 (category_counter_matches_requests 1 ["A"; "B"] ["c1"; "c2"]
           spider_events2 spider_w2 Hr))) "A" 2 Hk).
Defined.

End SpiderCountingFacts.

(* ===================================================================== *)
(** * 21. Cooldowns, failures and scores in EnhancedProxyManager *)
(* ===================================================================== *)

Module EnhancedPMExtraFacts.
Import ProxyCommon EnhancedPM EnhancedPMFacts Scenarios EnhancedScenarios.

Lemma pool_candidates_eligible (m : manager) (now : Z) (base : Q) (l : list proxy_info)
  (url : string) (s : Q) (i : proxy_info) :
  In (url, s, i) (pool_candidates m now base l) ->
  In i l /\ proxy i = url /\ (url ∉ walmart_blocked_ips m) /\
  in_cooldown (stats_of m url) now = false /\ consecutive_failures (stats_of m url) < 3.
Proof.
  unfold pool_candidates. rewrite in_flat_map. intros [info [Hl Hin]].
  destruct (decide (proxy info ∈ walmart_blocked_ips m)) as [_|Hnb]; [destruct Hin|].
  destruct (in_cooldown _ _) eqn:Hc; [destruct Hin|].
  destruct (decide _) as [_|Hcf]; [destruct Hin|].
  destruct Hin as [Heq|[]]. injection Heq as <- _ <-.
  repeat split; auto; lia.
Qed.

Lemma available_eligible (m : manager) (now : Z) (url : string) (s : Q) (i : proxy_info) :
  In (url, s, i) (available_proxies m now) ->
  proxy i = url /\ (url ∉ walmart_blocked_ips m) /\
  in_cooldown (stats_of m url) now = false /\ consecutive_failures (stats_of m url) < 3.
Proof.
  unfold available_proxies. rewrite !in_app_iff.
  intros [H|[H|H]]; apply pool_candidates_eligible in H as (_ & H); exact H.
Qed.

Lemma pool_candidates_complete (m : manager) (now : Z) (base : Q) (l : list proxy_info)
  (info : proxy_info) :
  In info l -> proxy info ∉ walmart_blocked_ips m ->
  in_cooldown (stats_of m (proxy info)) now = false ->
  consecutive_failures (stats_of m (proxy info)) < 3 ->
  exists s, In (proxy info, s, info) (pool_candidates m now base l).
Proof.
  intros Hl Hb Hc Hf. exists (score base info (stats_of m (proxy info)) now).
  unfold pool_candidates. apply in_flat_map. exists info. split; [exact Hl|].
  destruct (decide (proxy info ∈ walmart_blocked_ips m)); [contradiction|].
  rewrite Hc. destruct (decide _); [lia|]. left; reflexivity.
Qed.

Lemma record_failure_consecutive (m : manager) (p : string) (b : bool) (now : Z) :
  consecutive_failures (stats_of (record_failure_body m p b now) p)
  = consecutive_failures (stats_of m p) + 1.
Proof.
  unfold record_failure_body. destruct b; [destruct (decide _)|];
    rewrite ?ProxyManagerFacts.enhanced_stats_blocked_set, ?stats_of_set_eq; try reflexivity.
Qed.

Lemma record_failure_cooldown (m : manager) (p : string) (b : bool) (now : Z) :
  exists t, cooldown_until (stats_of (record_failure_body m p b now) p) = Some t /\
            now + (if b then 1800 else 60) <= t.
Proof.
  unfold record_failure_body. destruct b.
  - destruct (decide _); [unfold set_blocked, stats_of; simpl; rewrite lookup_insert_eq
                          | rewrite stats_of_set_eq]; simpl; eexists; split; [reflexivity|lia
                          |reflexivity|lia].
  - rewrite stats_of_set_eq. simpl. eexists; split; [reflexivity|].
    destruct (decide _); [lia|]. destruct (decide _); lia.
Qed.

Lemma record_success_lock (m : manager) (p : string) (rt : option Q) (now : Z) :
  lock_held (record_success_body m p rt now) = lock_held m.
Proof. reflexivity. Qed.

Lemma record_success_blocked (m : manager) (p : string) (rt : option Q) (now : Z) :
  walmart_blocked_ips (record_success_body m p rt now) = walmart_blocked_ips m.
Proof. reflexivity. Qed.

Lemma record_success_pools (m : manager) (p : string) (rt : option Q) (now : Z) :
  residential_proxies (record_success_body m p rt now) = residential_proxies m /\
  mobile_proxies (record_success_body m p rt now) = mobile_proxies m /\
  datacenter_proxies (record_success_body m p rt now) = datacenter_proxies m.
Proof. repeat split. Qed.

Lemma get_proxy_body_other (m : manager) (ctx : option request_context) (now : Z) (r : rng)
  (url : string) (m' : manager) :
  get_proxy_body m ctx now r = Picked url m' ->
  forall q, q <> url -> stats_of m' q = stats_of m q.
Proof.
  unfold get_proxy_body. destruct (available_proxies m now); [discriminate|].
  intros H. injection H as Hu <-. intros q Hq. apply stats_of_set_ne. rewrite Hu. exact Hq.
Qed.

(** Calls that never return [p] while [self.lock] is stuck or [p] has
    three consecutive failures. *)
Lemma run_ops_consecutive (ops : list op) : forall (m : manager) (p : string),
  (lock_held m = true \/ 3 <= consecutive_failures (stats_of m p)) ->
  (forall rt t, ~ In (OpRecordSuccess p rt t) ops) ->
  Forall (fun o => o <> Some p) (fst (run_ops m ops)).
Proof.
  induction ops as [|o ops IH]; intros m p Hinv Hno; simpl; [constructor|].
  assert (Hno' : forall rt t, ~ In (OpRecordSuccess p rt t) ops)
    by (intros rt t Hin; apply (Hno rt t); right; exact Hin).
  destruct o as [ctx now r|q rt now|q b now].
  - unfold get_proxy. destruct (lock_held m) eqn:Hl.
    + pose proof (IH m p (or_introl Hl) Hno') as H1.
      destruct (run_ops m ops) as [outs mf]. simpl in *. constructor; [discriminate|exact H1].
    + destruct Hinv as [Hinv|Hinv]; [discriminate|].
      destruct (get_proxy_body m ctx now r) as [url m'|m'] eqn:Eb.
      * pose proof (get_proxy_body_other m ctx now r url m' Eb) as Hs.
        apply get_proxy_body_picked in Eb as [[s [i Hin]] [_ Hl']].
        destruct (available_eligible m now url s i Hin) as (_ & _ & _ & Hc).
        assert (Hne : url <> p) by (intros ->; lia).
        assert (Hinv' : lock_held m' = true \/ 3 <= consecutive_failures (stats_of m' p))
          by (right; rewrite Hs by congruence; exact Hinv).
        pose proof (IH m' p Hinv' Hno') as H1.
        destruct (run_ops m' ops) as [outs mf]. simpl in *. constructor; [|exact H1].
        intros Heq. injection Heq as Heq. exact (Hne Heq).
      * pose proof (IH (set_lock m' true) p (or_introl eq_refl) Hno') as H1.
        destruct (run_ops _ ops) as [outs mf]. simpl in *. constructor; [discriminate|exact H1].
  - assert (Hq : q <> p) by (intros ->; apply (Hno rt now); left; reflexivity).
    destruct (lock_held m) eqn:Hl; apply IH; auto.
    rewrite record_success_lock, Hl, record_success_stats_ne by congruence. exact Hinv.
  - destruct (lock_held m) eqn:Hl; apply IH; auto.
    rewrite record_failure_lock, Hl. destruct Hinv as [Hinv|Hinv]; [discriminate|].
    right. destruct (decide (q = p)) as [->|Hq].
    + rewrite record_failure_consecutive. lia.
    + rewrite record_failure_stats_ne by congruence. exact Hinv.
Qed.

Lemma stats_of_reset_all_score (m : manager) (q : string) :
  walmart_score (stats_of (reset_all m) q) = walmart_score (stats_of m q).
Proof.
  unfold stats_of, reset_all, set_all_stats; simpl. rewrite lookup_fmap.
  destruct (proxy_stats m !! q); reflexivity.
Qed.

Lemma score_bounded_success (m : manager) (p : string) (rt : option Q) (now : Z) :
  score_bounded m -> score_bounded (record_success_body m p rt now).
Proof.
  intros Hb q. destruct (decide (q = p)) as [->|Hq].
  - unfold record_success_body. rewrite stats_of_set_eq. simpl.
    destruct (Hb p) as [H1 H2]. split.
    + apply Q.min_glb; [discriminate|].
      apply (Qle_trans _ (walmart_score (stats_of m p))); [exact H1|].
      rewrite <- (Qplus_0_r (walmart_score (stats_of m p))) at 1.
      apply Qplus_le_r. discriminate.
    + apply Q.le_min_l.
  - rewrite record_success_stats_ne by exact Hq. apply Hb.
Qed.

Lemma score_bounded_failure (m : manager) (p : string) (b : bool) (now : Z) :
  score_bounded m -> score_bounded (record_failure_body m p b now).
Proof.
  intros Hb q. destruct (decide (q = p)) as [->|Hq].
  - destruct (Hb p) as [H1 H2].
    assert (Hd : forall d : Q, (0 <= d)%Q -> (walmart_score (stats_of m p) - d <= 100)%Q).
    { intros d Hd. apply (Qle_trans _ (walmart_score (stats_of m p))); [|exact H2].
      rewrite <- (Qplus_0_r (walmart_score (stats_of m p))) at 2.
      unfold Qminus. apply Qplus_le_r. rewrite <- (Qopp_involutive 0).
      apply Qopp_le_compat. exact Hd. }
    unfold record_failure_body. destruct b; [destruct (decide _)|];
      rewrite ?ProxyManagerFacts.enhanced_stats_blocked_set, ?stats_of_set_eq; simpl;
      (split; [|apply Q.max_lub; [discriminate|apply Hd; discriminate]]).
    + apply Q.le_max_l.
    + apply Q.le_max_l.
    + apply (Qle_trans _ (-20)); [discriminate|apply Q.le_max_l].
  - rewrite record_failure_stats_ne by exact Hq. apply Hb.
Qed.

Lemma score_bounded_get_proxy (m : manager) (ctx : option request_context) (now : Z) (r : rng) :
  score_bounded m ->
  match get_proxy m ctx now r with
  | Returned _ m' => score_bounded m'
  | Deadlocked m' => score_bounded m'
  end.
Proof.
  intros Hb. unfold get_proxy. destruct (lock_held m); [exact Hb|].
  destruct (get_proxy_body m ctx now r) as [url m'|m'] eqn:Eb.
  - intros q. destruct (decide (q = url)) as [->|Hq].
    + unfold get_proxy_body in Eb. destruct (available_proxies m now); [discriminate|].
      injection Eb as Hu <-. rewrite <- Hu, stats_of_set_eq. simpl. apply Hb.
    + rewrite (get_proxy_body_other m ctx now r url m' Eb q Hq). apply Hb.
  - apply get_proxy_body_retry in Eb as [_ ->]. intros q.
    change (stats_of (set_lock (reset_all m) true) q) with (stats_of (reset_all m) q).
    rewrite stats_of_reset_all_score. apply Hb.
Qed.

Lemma run_ops_score_bounded (ops : list op) : forall (m : manager),
  score_bounded m -> score_bounded (snd (run_ops m ops)).
Proof.
  induction ops as [|o ops IH]; intros m Hb; simpl; [exact Hb|].
  destruct o as [ctx now r|q rt now|q b now].
  - pose proof (score_bounded_get_proxy m ctx now r Hb) as H.
    destruct (get_proxy m ctx now r) as [url m'|m'];
      specialize (IH m' H); destruct (run_ops m' ops); exact IH.
  - destruct (lock_held m); apply IH; [exact Hb|]. apply score_bounded_success; exact Hb.
  - destruct (lock_held m); apply IH; [exact Hb|]. apply score_bounded_failure; exact Hb.
Qed.

(** X3: after [record_failure(p)] at time [t], [p] is not among the
    candidates of [get_proxy] at any time before [t] + 1 minute for an
    ordinary failure, or before [t] + 30 minutes for a bot detection. *)
Theorem failure_cooldown_excludes (m : manager) (p : string) (b : bool) (t now : Z) :
  now < t + (if b then 1800 else 60) ->
  forall s i, ~ In (p, s, i) (available_proxies (record_failure_body m p b t) now).
Proof.
  intros Hnow s i Hin.
  destruct (available_eligible _ now p s i Hin) as (_ & _ & Hc & _).
  destruct (record_failure_cooldown m p b t) as [t' [Ht Hle]].
  unfold in_cooldown in Hc. rewrite Ht in Hc.
  apply bool_decide_eq_false in Hc. lia.
Qed.

Lemma failure_cooldown_excludes_witness :
  59 < 0 + (if false then 1800 else 60) /\
  forall s i, ~ In ("P"%string, s, i)
                   (available_proxies (record_failure_body enhanced_pair "P" false 0) 59).
Proof.
  split; [simpl; lia|].
  apply (failure_cooldown_excludes enhanced_pair "P" false 0 59). simpl; lia.
Defined.

(** X4: a proxy with three or more consecutive failures is never returned
    by [get_proxy] again, in any sequence of calls, unless
    [record_success] is called for it; the emergency reset that clears
    the counter leaves [self.lock] held, so no call returns after it. *)
Theorem consecutive_failures_exclude (m : manager) (p : string) (ops : list op) :
  3 <= consecutive_failures (stats_of m p) ->
  (forall rt t, ~ In (OpRecordSuccess p rt t) ops) ->
  Forall (fun o => o <> Some p) (fst (run_ops m ops)).
Proof. intros H3 Hno. apply run_ops_consecutive; [right; exact H3|exact Hno]. Qed.

Lemma consecutive_failures_exclude_witness :
  3 <= consecutive_failures (stats_of enhanced_pair_three_failures "P") /\
  (forall rt t, ~ In (OpRecordSuccess "P" rt t)
     [OpGetProxy None 5000 rng0; OpRecordFailure "Q" false 5001; OpGetProxy None 6000 rng0]) /\
  Forall (fun o => o <> Some "P"%string)
    (fst (run_ops enhanced_pair_three_failures
       [OpGetProxy None 5000 rng0; OpRecordFailure "Q" false 5001; OpGetProxy None 6000 rng0])).
Proof.
  assert (H3 : 3 <= consecutive_failures (stats_of enhanced_pair_three_failures "P"))
    by (vm_compute; discriminate).
  assert (Hno : forall rt t, ~ In (OpRecordSuccess "P" rt t)
     [OpGetProxy None 5000 rng0; OpRecordFailure "Q" false 5001; OpGetProxy None 6000 rng0])
    by (intros rt t H; simpl in H; destruct H as [H|[H|[H|[]]]]; discriminate).
  split; [exact H3|]. split; [exact Hno|].
  exact (consecutive_failures_exclude enhanced_pair_three_failures "P" _ H3 Hno).
Defined.

(** X5: after [record_success(p)] for a pooled proxy [p] that is not
    Walmart-blocked, [p] is at once a candidate of [get_proxy] (its
    cooldown and consecutive failures are cleared), so the next
    [get_proxy] call returns a proxy without the emergency reset. *)
Theorem success_restores_eligibility (m : manager) (p : string) (info : proxy_info)
  (rt : option Q) (t now : Z) (ctx : option request_context) (r : rng) :
  lock_held m = false -> p ∉ walmart_blocked_ips m ->
  In info (residential_proxies m ++ mobile_proxies m ++ datacenter_proxies m) ->
  proxy info = p ->
  (exists s, In (p, s, info) (available_proxies (record_success_body m p rt t) now)) /\
  (exists url m', get_proxy (record_success_body m p rt t) ctx now r = Returned url m').
Proof.
  intros Hl Hb Hin Hp. subst p.
  set (m1 := record_success_body m (proxy info) rt t).
  assert (Hc : in_cooldown (stats_of m1 (proxy info)) now = false)
    by (unfold m1, record_success_body; rewrite stats_of_set_eq; reflexivity).
  assert (Hf : consecutive_failures (stats_of m1 (proxy info)) < 3)
    by (unfold m1, record_success_body; rewrite stats_of_set_eq; simpl; lia).
  assert (Hb1 : proxy info ∉ walmart_blocked_ips m1) by exact Hb.
  assert (Ha : exists s, In (proxy info, s, info) (available_proxies m1 now)).
  { unfold available_proxies. rewrite !in_app_iff in Hin.
    destruct Hin as [H|[H|H]].
    - destruct (pool_candidates_complete m1 now 100 _ info H Hb1 Hc Hf) as [s Hs].
      exists s. apply in_app_iff. left. exact Hs.
    - destruct (pool_candidates_complete m1 now 80 _ info H Hb1 Hc Hf) as [s Hs].
      exists s. apply in_app_iff. right. apply in_app_iff. left. exact Hs.
    - destruct (pool_candidates_complete m1 now 30 _ info H Hb1 Hc Hf) as [s Hs].
      exists s. apply in_app_iff. right. apply in_app_iff. right. exact Hs. }
  split; [exact Ha|].
  unfold get_proxy. change (lock_held m1) with (lock_held m). rewrite Hl.
  destruct (get_proxy_body m1 ctx now r) as [url m'|m'] eqn:Eb.
  - exists url, m'. reflexivity.
  - apply get_proxy_body_retry in Eb as [He _]. destruct Ha as [s Hs].
    rewrite He in Hs. destruct Hs.
Qed.

Lemma success_restores_eligibility_witness :
  lock_held enhanced_cooling = false /\
  ("P"%string ∉ walmart_blocked_ips enhanced_cooling) /\
  In (mkInfo "P" None None) (residential_proxies enhanced_cooling ++ mobile_proxies enhanced_cooling
                             ++ datacenter_proxies enhanced_cooling) /\
  proxy (mkInfo "P" None None) = "P"%string /\
  (exists s, In ("P"%string, s, mkInfo "P" None None)
               (available_proxies (record_success_body enhanced_cooling "P" None 50) 50)) /\
  (exists url m', get_proxy (record_success_body enhanced_cooling "P" None 50) None 50 rng0
                  = Returned url m').
Proof.
  assert (Hl : lock_held enhanced_cooling = false) by reflexivity.
  assert (Hb : "P"%string ∉ walmart_blocked_ips enhanced_cooling) by (vm_compute; set_solver).
  assert (Hin : In (mkInfo "P" None None) (residential_proxies enhanced_cooling
            ++ mobile_proxies enhanced_cooling ++ datacenter_proxies enhanced_cooling))
    by (simpl; left; reflexivity).
  assert (Hp : proxy (mkInfo "P" None None) = "P"%string) by reflexivity.
  split; [exact Hl|]. split; [exact Hb|]. split; [exact Hin|]. split; [exact Hp|].
  exact (success_restores_eligibility enhanced_cooling "P" _ None 50 50 None rng0 Hl Hb Hin Hp).
Defined.

(** X6: if every proxy's [walmart_score] lies between -50 and 100 (as
    for a fresh manager, where it is 0), it stays there after any
    sequence of [get_proxy], [record_success] and [record_failure]
    calls: successes cap it at 100, failures floor it at -20 or -50. *)
Theorem walmart_score_bounded (m : manager) (ops : list op) :
  (forall q, -50 <= walmart_score (stats_of m q) <= 100)%Q ->
  forall q, (-50 <= walmart_score (stats_of (snd (run_ops m ops)) q) <= 100)%Q.
Proof. intros Hb. exact (run_ops_score_bounded ops m Hb). Qed.

Lemma walmart_score_bounded_witness :
  (forall q, -50 <= walmart_score (stats_of enhanced_pair q) <= 100)%Q /\
  forall q, (-50 <= walmart_score (stats_of (snd (run_ops enhanced_pair
     [OpRecordSuccess "P" None 0; OpRecordFailure "Q" true 1; OpGetProxy None 2 rng0])) q) <= 100)%Q.
Proof.
  assert (Hb : forall q, (-50 <= walmart_score (stats_of enhanced_pair q) <= 100)%Q).
  { intros q. unfold stats_of. simpl. rewrite lookup_empty. simpl.
    split; discriminate. }
  split; [exact Hb|]. exact (walmart_score_bounded enhanced_pair _ Hb).
Defined.

End EnhancedPMExtraFacts.

(* ===================================================================== *)
(** * 22. Rate limits, cooldowns and fallback in AdaptiveProxyManager *)
(* ===================================================================== *)

Module AdaptivePMExtraFacts.
Import ProxyCommon AdaptivePM AdaptivePMFacts Scenarios.

Lemma reset_subnets_stats (m : manager) (now : Z) (q : string) :
  stats_of (reset_subnets m now) q = stats_of m q.
Proof. unfold reset_subnets. destruct (decide _); reflexivity. Qed.

Lemma candidate_fst (m : manager) (ctx : option request_context) (now : Z) (p : string)
  (x : string * Q) :
  candidate m ctx now p = Some x -> fst x = p.
Proof.
  unfold candidate, scan_proxy.
  destruct (match cooldown_until _ with Some t => _ | None => false end); [discriminate|].
  destruct (match last_used _ with Some t => _ | None => false end); [discriminate|].
  destruct (_calculate_dynamic_score m p now); [|discriminate].
  destruct ctx as [c|]; [destruct (ctx_truthy _)|]; [destruct (_ && _)| |];
    intros H; try discriminate; injection H as <-; reflexivity.
Qed.

Lemma available_candidate (m : manager) (ctx : option request_context) (now : Z) (p : string)
  (sc : Q) :
  In (p, sc) (available_proxies m ctx now) -> candidate m ctx now p = Some (p, sc).
Proof.
  unfold available_proxies. rewrite <- list_elem_of_In, list_elem_of_omap.
  intros [q [_ Hq]]. pose proof (candidate_fst _ _ _ _ _ Hq) as E. simpl in E.
  subst q. exact Hq.
Qed.

Lemma candidate_recent (m : manager) (ctx : option request_context) (now t : Z) (p : string) :
  last_used (stats_of m p) = Some t -> now - t < 2 -> candidate m ctx now p = None.
Proof.
  intros Hl Hn. unfold candidate, scan_proxy.
  destruct (match cooldown_until _ with Some t => _ | None => false end); [reflexivity|].
  rewrite Hl. rewrite bool_decide_eq_true_2; [reflexivity|].
  destruct (decide _); lia.
Qed.

Lemma candidate_cooling (m : manager) (ctx : option request_context) (now t : Z) (p : string) :
  cooldown_until (stats_of m p) = Some t -> now < t -> candidate m ctx now p = None.
Proof.
  intros Hc Hn. unfold candidate, scan_proxy. rewrite Hc. rewrite bool_decide_eq_true_2 by exact Hn.
  reflexivity.
Qed.

Lemma get_proxy_scored (m0 : manager) (ctx : option request_context) (now : Z) (r : rng)
  (p : string) (m' : manager) :
  available_proxies (reset_subnets m0 now) ctx now <> [] ->
  get_proxy m0 ctx now r = (PyReturn (Some p), m') ->
  last_used (stats_of m' p) = Some now /\ requests (stats_of m' p) = requests (stats_of m0 p) + 1.
Proof.
  intros Hne. unfold get_proxy.
  destruct (loop_raises (reset_subnets m0 now) ctx now); [intros H; discriminate H|].
  destruct (available_proxies (reset_subnets m0 now) ctx now) as [|first rest]; [congruence|].
  cbv zeta. intros H. injection H as Hp <-.
  rewrite Hp, !reset_subnets_stats.
  split; unfold stats_of at 1; simpl; rewrite lookup_insert_eq; reflexivity.
Qed.

Lemma clear_cooldowns_counts (l : list string) : forall (acc : manager) (q : string),
  requests (stats_of (fold_left (fun acc p =>
    let st := stats_of acc p in
    set_stats acc p (mkStats (requests st) (successes st) (failures st) (bot_detections st)
                             (last_used st) (last_success st) (last_failure st)
                             (avg_response_time st) None (base_score st))) l acc) q)
  = requests (stats_of acc q) /\
  last_used (stats_of (fold_left (fun acc p =>
    let st := stats_of acc p in
    set_stats acc p (mkStats (requests st) (successes st) (failures st) (bot_detections st)
                             (last_used st) (last_success st) (last_failure st)
                             (avg_response_time st) None (base_score st))) l acc) q)
  = last_used (stats_of acc q).
Proof.
  induction l as [|x l IH]; intros acc q; simpl; [split; reflexivity|].
  rewrite (proj1 (IH _ q)), (proj2 (IH _ q)).
  destruct (decide (q = x)) as [->|Hne].
  - rewrite adaptive_stats_of_set_eq. split; reflexivity.
  - rewrite adaptive_stats_of_set_ne by exact Hne. split; reflexivity.
Qed.

Lemma record_failure_cooldown_at_least (m : manager) (p et : string) (b : bool) (t : Z) :
  0 <= bot_detections (stats_of m p) ->
  exists u, cooldown_until (stats_of (record_failure m p et b t) p) = Some u /\
            t + 60 * (if b then 10 else 2) <= u.
Proof.
  intros Hbd. unfold record_failure. rewrite adaptive_stats_of_set_eq. simpl.
  eexists; split; [reflexivity|]. unfold cooldown_minutes. simpl. destruct b.
  - assert (1 <= (bot_detections (stats_of m p) + 1) ^ 2) by nia. lia.
  - destruct (Qlt_le_dec _ _); [lia|]. destruct (Qlt_le_dec _ _); lia.
Qed.

Lemma record_success_intervals (m : manager) (p : string) (rt : option Q) (ua : option string)
  (now t : Z) :
  last_used (stats_of m p) = Some t ->
  let ivs := successful_request_intervals (global_patterns m) in
  let ivs' := successful_request_intervals (global_patterns (record_success m p rt ua now)) in
  (exists pre, pre ++ ivs' = ivs ++ [now - t]) /\
  length ivs' = Nat.min 1000 (S (length ivs)).
Proof.
  intros Hl ivs ivs'. unfold ivs', record_success.
  cbn [global_patterns successful_request_intervals]. rewrite Hl. fold ivs.
  destruct (bool_decide (1000 < length (ivs ++ [(now - t)%Z]))%nat) eqn:E.
  - apply bool_decide_eq_true in E. rewrite length_app in E. cbn [length] in E. split.
    + exists (take (length (ivs ++ [(now - t)%Z]) - 1000)%nat (ivs ++ [now - t])). apply take_drop.
    + rewrite length_drop, length_app. cbn [length]. lia.
  - apply bool_decide_eq_false in E. rewrite length_app in E. cbn [length] in E. split.
    + exists []. reflexivity.
    + rewrite length_app. cbn [length]. lia.
Qed.

(** X7: a proxy that [get_proxy] selects by score gets [last_used] set
    to the call time, so for the next 2 seconds it is not a candidate of
    any [get_proxy] call, whatever its successes and failures; within that
    window it can only come back through the emergency fallback. *)
Theorem scored_pick_rate_limited (m0 : manager) (ctx : option request_context) (now : Z)
  (r : rng) (p : string) (m' : manager) :
  available_proxies (reset_subnets m0 now) ctx now <> [] ->
  get_proxy m0 ctx now r = (PyReturn (Some p), m') ->
  forall ctx' now' sc, now' < now + 2 ->
  ~ In (p, sc) (available_proxies (reset_subnets m' now') ctx' now').
Proof.
  intros Hne Hg ctx' now' sc Hn Hin.
  destruct (get_proxy_scored m0 ctx now r p m' Hne Hg) as [Hl _].
  apply available_candidate in Hin.
  rewrite (candidate_recent (reset_subnets m' now') ctx' now' now p) in Hin;
    [discriminate| |lia].
  rewrite reset_subnets_stats. exact Hl.
Qed.

Lemma scored_pick_rate_limited_witness :
  available_proxies (reset_subnets adaptive_pair 100) None 100 <> [] /\
  get_proxy adaptive_pair None 100 rng0 = (PyReturn (Some "P"%string), snd (get_proxy adaptive_pair None 100 rng0)) /\
  101 < 100 + 2 /\
  ~ In ("P"%string, 0%Q)
       (available_proxies (reset_subnets (snd (get_proxy adaptive_pair None 100 rng0)) 101) None 101).
Proof.
  assert (H1 : available_proxies (reset_subnets adaptive_pair 100) None 100 <> [])
    by (vm_compute; discriminate).
  assert (H2 : get_proxy adaptive_pair None 100 rng0
               = (PyReturn (Some "P"%string), snd (get_proxy adaptive_pair None 100 rng0)))
    by (vm_compute; reflexivity).
  assert (H3 : 101 < 100 + 2) by lia.
  split; [exact H1|]. split; [exact H2|]. split; [exact H3|].
  exact (scored_pick_rate_limited adaptive_pair None 100 rng0 "P" _ H1 H2 None 101 0 H3).
Defined.

(** X8: after [record_failure(p)] at time [t], [p] is not a candidate of
    [get_proxy] before [t] + 2 minutes, or before [t] + 10 minutes when a
    bot was detected (bot-detection counts start at 0). *)
Theorem adaptive_failure_cooldown_excludes (m : manager) (p et : string) (b : bool) (t now : Z)
  (ctx : option request_context) (sc : Q) :
  0 <= bot_detections (stats_of m p) ->
  now < t + 60 * (if b then 10 else 2) ->
  ~ In (p, sc) (available_proxies (reset_subnets (record_failure m p et b t) now) ctx now).
Proof.
  intros Hbd Hn Hin. apply available_candidate in Hin.
  destruct (record_failure_cooldown_at_least m p et b t Hbd) as [u [Hu Hle]].
  rewrite (candidate_cooling _ ctx now u p) in Hin; [discriminate| |lia].
  rewrite reset_subnets_stats. exact Hu.
Qed.

Lemma adaptive_failure_cooldown_excludes_witness :
  0 <= bot_detections (stats_of adaptive_pair "P") /\
  599 < 0 + 60 * (if true then 10 else 2) /\
  ~ In ("P"%string, 0%Q)
       (available_proxies (reset_subnets (record_failure adaptive_pair "P" "blocked" true 0) 599)
          None 599).
Proof.
  assert (H1 : 0 <= bot_detections (stats_of adaptive_pair "P")) by (vm_compute; discriminate).
  assert (H2 : 599 < 0 + 60 * (if true then 10 else 2)) by (simpl; lia).
  split; [exact H1|]. split; [exact H2|].
  exact (adaptive_failure_cooldown_excludes adaptive_pair "P" "blocked" true 0 599 None 0 H1 H2).
Defined.

(** X9: when no proxy is a candidate, [get_proxy] either raises
    [AttributeError] (scoring a proxy met a location that is not a
    dict), keeping only the subnet reset, or returns a random listed
    proxy (or None for an empty list) without counting a request: the
    [requests] and [last_used] of every proxy are left unchanged, while
    every listed proxy's cooldown is cleared. *)
Theorem fallback_counts_no_request (m0 : manager) (ctx : option request_context) (now : Z)
  (r : rng) :
  available_proxies (reset_subnets m0 now) ctx now = [] ->
  (loop_raises (reset_subnets m0 now) ctx now = true ->
   get_proxy m0 ctx now r = (PyAttributeError, reset_subnets m0 now)) /\
  (loop_raises (reset_subnets m0 now) ctx now = false ->
   (forall x, fst (get_proxy m0 ctx now r) = PyReturn (Some x) -> In x (proxies m0)) /\
   (fst (get_proxy m0 ctx now r) = PyReturn None <-> proxies m0 = []) /\
   (forall q, requests (stats_of (snd (get_proxy m0 ctx now r)) q) = requests (stats_of m0 q) /\
              last_used (stats_of (snd (get_proxy m0 ctx now r)) q) = last_used (stats_of m0 q)) /\
   (forall q, In q (proxies m0) ->
              cooldown_until (stats_of (snd (get_proxy m0 ctx now r)) q) = None)).
Proof.
  intros Ha. split.
  - intros Hl. unfold get_proxy. rewrite Hl. reflexivity.
  - intros Hl. unfold get_proxy. rewrite Hl, Ha. cbn [fst snd].
    destruct (clear_cooldowns_spec (reset_subnets m0 now)) as [Hp Hc].
    rewrite Hp, reset_subnets_proxies in *. split; [|split; [|split]].
    + intros x Hx. injection Hx as Hx. apply (ProxyCommonFacts.choice_in r). exact Hx.
    + split.
      * intros H. injection H as H. destruct (proxies m0) as [|a l] eqn:E; [reflexivity|].
        exfalso. destruct (ProxyManagerFacts.choice_some r (a :: l)) as [y Hy];
          [discriminate|]. congruence.
      * intros ->. reflexivity.
    + intros q. unfold clear_cooldowns.
      rewrite (proj1 (clear_cooldowns_counts _ _ q)), (proj2 (clear_cooldowns_counts _ _ q)).
      rewrite !reset_subnets_stats. split; reflexivity.
    + intros q Hq. apply Hc. exact Hq.
Qed.

(** At the retry of a request whose last proxy ["P"] is the only one,
    and whose location is [null], the call raises. *)
Lemma fallback_counts_no_request_witness :
  available_proxies (reset_subnets adaptive_null_location 0) (Some retry_ctx) 0 = [] /\
  loop_raises (reset_subnets adaptive_null_location 0) (Some retry_ctx) 0 = true /\
  get_proxy adaptive_null_location (Some retry_ctx) 0 rng0
    = (PyAttributeError, reset_subnets adaptive_null_location 0).
Proof.
  assert (Ha : available_proxies (reset_subnets adaptive_null_location 0) (Some retry_ctx) 0 = [])
    by (vm_compute; reflexivity).
  assert (Hl : loop_raises (reset_subnets adaptive_null_location 0) (Some retry_ctx) 0 = true)
    by (vm_compute; reflexivity).
  split; [exact Ha|]. split; [exact Hl|].
  exact (proj1 (fallback_counts_no_request adaptive_null_location (Some retry_ctx) 0 rng0 Ha) Hl).
Defined.

(** X10: [record_success] for a proxy that has been used keeps the newest
    intervals: the new list is the old one with the latest interval
    appended and, if needed, its oldest entries dropped, so it holds
    min(1000, n + 1) entries for an old length [n], the latest one last. *)
Theorem success_intervals_keep_newest (m : manager) (p : string) (rt : option Q)
  (ua : option string) (now t : Z) :
  last_used (stats_of m p) = Some t ->
  (exists pre, pre ++ successful_request_intervals (global_patterns (record_success m p rt ua now))
               = successful_request_intervals (global_patterns m) ++ [now - t]) /\
  length (successful_request_intervals (global_patterns (record_success m p rt ua now)))
    = Nat.min 1000 (S (length (successful_request_intervals (global_patterns m)))) /\
  last (successful_request_intervals (global_patterns (record_success m p rt ua now)))
    = Some (now - t).
Proof.
  intros Hl. destruct (record_success_intervals m p rt ua now t Hl) as [[pre Hpre] Hlen].
  split; [exists pre; exact Hpre|]. split; [exact Hlen|].
  destruct (successful_request_intervals (global_patterns (record_success m p rt ua now)))
    as [|x l] eqn:E using rev_ind.
  - simpl in Hlen. lia.
  - rewrite app_assoc in Hpre. apply app_inj_tail in Hpre as [_ ->]. apply last_snoc.
Qed.

Lemma success_intervals_keep_newest_witness :
  last_used (stats_of (Scenarios.adaptive_cooling) "P") = Some 0 /\
  last (successful_request_intervals
          (global_patterns (record_success (Scenarios.adaptive_cooling) "P" None None 50)))
    = Some 50.
Proof.
  assert (Hl : last_used (stats_of (Scenarios.adaptive_cooling) "P") = Some 0)
    by reflexivity.
  split; [exact Hl|].
  destruct (success_intervals_keep_newest (Scenarios.adaptive_cooling) "P" None None 50 0 Hl)
    as (_ & _ & Hlast).
  exact Hlast.
Defined.

End AdaptivePMExtraFacts.

(* ===================================================================== *)
(** * 23. Proofs about the ProxyManager of helpers.py *)
(* ===================================================================== *)

Module HelpersPMFacts.
Import ProxyCommon ProxyCommonFacts HelpersPM.

Lemma insert_desc_head_max {A} (f : A -> Q) (x : A) (l : list A) :
  head_max f l -> head_max f (insert_desc f x l).
Proof.
  destruct l as [|a l]; simpl; [constructor|]. intros Hl.
  destruct (Qle_bool (f x) (f a)) eqn:E; simpl.
  - apply Qle_bool_iff in E. apply Forall_forall. intros y Hy.
    apply list_elem_of_In, insert_desc_in in Hy as [->|Hy]; [exact E|].
    rewrite Forall_forall in Hl. apply Hl. apply list_elem_of_In. exact Hy.
  - assert (Hax : (f a <= f x)%Q).
    { apply Qlt_le_weak. apply Qnot_le_lt. intros H. apply Qle_bool_iff in H. congruence. }
    constructor; [exact Hax|]. eapply Forall_impl; [exact Hl|]. simpl. intros y Hy.
    eapply Qle_trans; eauto.
Qed.

Lemma sort_desc_head_max {A} (f : A -> Q) (l : list A) : head_max f (sort_desc f l).
Proof.
  unfold sort_desc. assert (H0 : head_max f (@nil A)) by exact I.
  revert H0. generalize (@nil A) as acc. induction l as [|x l IH]; intros acc Hacc; simpl.
  - exact Hacc.
  - apply IH. apply insert_desc_head_max. exact Hacc.
Qed.

Lemma sort_desc_head {A} (f : A -> Q) (l : list A) (x : A) :
  head (sort_desc f l) = Some x -> In x l /\ forall y, In y l -> (f y <= f x)%Q.
Proof.
  intros Hh. pose proof (sort_desc_head_max f l) as Hm.
  destruct (sort_desc f l) as [|a s] eqn:E; [discriminate|]. injection Hh as ->.
  split; [apply (sort_desc_in f); rewrite E; left; reflexivity|].
  intros y Hy. apply (sort_desc_in f) in Hy. rewrite E in Hy. destruct Hy as [->|Hy].
  - apply Qle_refl.
  - simpl in Hm. rewrite Forall_forall in Hm. apply Hm. apply list_elem_of_In. exact Hy.
Qed.

Lemma sort_desc_nonempty {A} (f : A -> Q) (l : list A) :
  l <> [] -> exists x, head (sort_desc f l) = Some x.
Proof.
  intros Hne. destruct (sort_desc f l) as [|a s] eqn:E; [|exists a; reflexivity].
  destruct l as [|b l]; [congruence|]. exfalso.
  assert (Hb : In b (sort_desc f (b :: l))) by (apply sort_desc_in; left; reflexivity).
  rewrite E in Hb. destruct Hb.
Qed.

Lemma reset_scores_spec (by_url : gmap string Q) (urls : list string) :
  forall sc, (forall u, In u urls -> is_Some (by_url !! u)) ->
  exists sc', reset_scores by_url urls sc = Some sc' /\
    (forall u, In u urls -> sc' !! u = by_url !! u) /\
    (forall u, ~ In u urls -> sc' !! u = sc !! u).
Proof.
  induction urls as [|x urls IH]; intros sc Hu; simpl.
  - exists sc. split; [reflexivity|]. split; [intros u []|intros; reflexivity].
  - destruct (Hu x (or_introl eq_refl)) as [q Hq]. rewrite Hq.
    destruct (IH (<[x := q]> sc)) as [sc' [E [H1 H2]]]; [intros u Hin; apply Hu; right; exact Hin|].
    exists sc'. split; [exact E|]. split.
    + intros u [<-|Hin]; [|apply H1; exact Hin].
      destruct (In_dec (fun a b => decide (a = b)) x urls) as [Hin|Hnin]; [apply H1; exact Hin|].
      rewrite H2 by exact Hnin. rewrite lookup_insert_eq. symmetry; exact Hq.
    + intros u Hn. rewrite H2 by (intros Hin; apply Hn; right; exact Hin).
      rewrite lookup_insert_ne; [reflexivity|]. intros ->. apply Hn. left; reflexivity.
Qed.

Lemma in_available (m : manager) (u : string) (s : Q) :
  In (u, s) (available m) <->
  In u (proxies m) /\ (u ∉ failed_proxies m) /\ s = default 0%Q (proxy_scores m !! u).
Proof.
  unfold available. rewrite in_map_iff. split.
  - intros [v [Hv Hin]]. injection Hv as -> ->.
    apply list_elem_of_In, list_elem_of_filter in Hin as [Hf Hin].
    apply list_elem_of_In in Hin. auto.
  - intros (Hin & Hf & ->). exists u. split; [reflexivity|].
    apply list_elem_of_In, list_elem_of_filter. split; [exact Hf|apply list_elem_of_In; exact Hin].
Qed.

Lemma get_proxy_wf (m : manager) :
  wf m -> exists o m', get_proxy m = Some (o, m') /\ wf m' /\ proxies m' = proxies m /\
                       proxy_by_url m' = proxy_by_url m.
Proof.
  intros Hw. unfold get_proxy.
  assert (Hstep : exists avail m1,
    (match available m with
     | [] => match reset_scores (proxy_by_url m) (proxies m) (proxy_scores m) with
             | Some sc => Some (map (fun url => (url, default 0%Q (sc !! url))) (proxies m),
                                mkManager (proxies m) (proxy_by_url m) sc ∅)
             | None => None
             end
     | avail => Some (avail, m)
     end) = Some (avail, m1) /\ wf m1 /\ proxies m1 = proxies m /\
            proxy_by_url m1 = proxy_by_url m /\
            (forall u s, In (u, s) avail -> In u (proxies m))).
  { destruct (available m) as [|a l] eqn:E.
    - destruct (reset_scores_spec (proxy_by_url m) (proxies m) (proxy_scores m))
        as [sc [Hsc [H1 _]]]; [intros u Hu; apply (Hw u Hu)|].
      rewrite Hsc. eexists _, _. split; [reflexivity|]. split; [|split; [reflexivity|split; [reflexivity|]]].
      + intros u Hu. simpl. split; [apply (Hw u Hu)|]. rewrite (H1 u Hu). apply (Hw u Hu).
      + intros u s Hin. apply in_map_iff in Hin as [v [Hv Hin]]. injection Hv as -> _. exact Hin.
    - eexists _, _. split; [reflexivity|]. split; [exact Hw|]. split; [reflexivity|]. split; [reflexivity|].
      intros u s Hin. rewrite <- E in Hin. apply in_available in Hin. tauto. }
  destruct Hstep as [avail [m1 [Hs [Hw1 [Hp1 [Hb1 Hav]]]]]]. rewrite Hs.
  destruct (head (sort_desc snd avail)) as [[best s]|] eqn:Eh.
  - destruct (sort_desc_head snd avail (best, s) Eh) as [Hin _].
    assert (Hbest : In best (proxies m1)) by (rewrite Hp1; exact (Hav best s Hin)).
    destruct (proj2 (Hw1 best Hbest)) as [v Hv]. rewrite Hv.
    eexists _, _. split; [reflexivity|]. split; [|split; assumption].
    intros u Hu. split; [apply (Hw1 u Hu)|]. simpl.
    destruct (decide (u = best)) as [->|Hne]; [rewrite lookup_insert_eq; eexists; reflexivity|].
    rewrite lookup_insert_ne by congruence. apply (Hw1 u Hu).
  - eexists _, _. split; [reflexivity|]. split; [exact Hw1|]. split; assumption.
Qed.

Lemma record_failure_wf (m : manager) (p : string) : wf m -> wf (record_failure m p).
Proof.
  intros Hw u Hu. split; [apply (Hw u Hu)|]. simpl.
  destruct (decide (u = p)) as [->|Hne]; [rewrite lookup_insert_eq; eexists; reflexivity|].
  rewrite lookup_insert_ne by congruence. apply (Hw u Hu).
Qed.

Lemma record_success_wf (m : manager) (p : string) : wf m -> wf (record_success m p).
Proof.
  intros Hw u Hu. split; [apply (Hw u Hu)|]. simpl.
  destruct (decide (u = p)) as [->|Hne]; [rewrite lookup_insert_eq; eexists; reflexivity|].
  rewrite lookup_insert_ne by congruence. apply (Hw u Hu).
Qed.

Lemma pick_weighted_in (r : Q) (xs : list string) : forall (ws : list Q) (upto : Q) (p : string),
  pick_weighted r upto (zip xs ws) = Some p -> In p xs.
Proof.
  induction xs as [|x xs IH]; intros [|w ws] upto p; simpl; try discriminate.
  destruct (Qle_bool r (upto + w)); [intros H; injection H as <-; left; reflexivity|].
  intros H. right. exact (IH ws _ p H).
Qed.

Lemma pick_weighted_found (r : Q) (xs : list string) : forall (ws : list Q) (upto : Q),
  xs <> [] -> length xs = length ws -> (r <= fold_left Qplus ws upto)%Q ->
  exists p, pick_weighted r upto (zip xs ws) = Some p.
Proof.
  induction xs as [|x xs IH]; intros [|w ws] upto Hne Hlen Hr; simpl in *;
    try congruence.
  destruct (Qle_bool r (upto + w)) eqn:E; [eexists; reflexivity|].
  destruct xs as [|x' xs'].
  - destruct ws; [|discriminate]. simpl in Hr. apply Qle_bool_iff in Hr. congruence.
  - apply IH; [discriminate|lia|exact Hr].
Qed.

Lemma fold_left_Qplus_ge (ws : list Q) : forall (a : Q),
  Forall (fun w => 1 <= w)%Q ws -> (a + inject_Z (Z.of_nat (length ws)) <= fold_left Qplus ws a)%Q.
Proof.
  induction ws as [|w ws IH]; intros a Hf; simpl.
  - rewrite Qplus_0_r. apply Qle_refl.
  - inversion Hf as [|? ? Hw Hf']; subst.
    eapply Qle_trans; [|apply IH; exact Hf'].
    rewrite Nat2Z.inj_succ, <- Z.add_1_r, inject_Z_plus.
    change (inject_Z 1) with 1%Q. lra.
Qed.

Lemma weights_ge_1 (m : manager) (avail : list string) :
  Forall (fun w => 1 <= w)%Q (weights m avail).
Proof.
  unfold weights. apply Forall_forall. intros w Hw.
  apply list_elem_of_In, in_map_iff in Hw as [p [<- _]]. apply Q.le_max_l.
Qed.

Lemma helpers_best_working_core (m : manager) (u0 : string) :
  wf m -> In u0 (proxies m) -> u0 ∉ failed_proxies m ->
  exists best m', get_proxy m = Some (Some best, m') /\
    In best (proxies m) /\ (best ∉ failed_proxies m) /\
    failed_proxies m' = failed_proxies m /\
    forall u, In u (proxies m) -> u ∉ failed_proxies m ->
      (default 0 (proxy_scores m !! u) <= default 0 (proxy_scores m !! best))%Q.
Proof.
  intros Hw Hu0 Hf0. unfold get_proxy.
  assert (Ha : In (u0, default 0%Q (proxy_scores m !! u0)) (available m))
    by (apply in_available; auto).
  destruct (available m) as [|a l] eqn:E; [destruct Ha|].
  cbv zeta. cbn iota.
  destruct (sort_desc_nonempty snd (a :: l)) as [[best s] Eh]; [discriminate|].
  rewrite Eh. destruct (sort_desc_head snd _ _ Eh) as [Hin Hmax].
  rewrite <- E in Hin. apply in_available in Hin as (Hb & Hfb & ->).
  destruct (proj2 (Hw best Hb)) as [v Hv]. rewrite Hv.
  eexists _, _. split; [reflexivity|]. split; [exact Hb|]. split; [exact Hfb|].
  split; [reflexivity|]. intros u Hu Hfu.
  apply (Hmax (u, default 0%Q (proxy_scores m !! u))). rewrite <- E. apply in_available. auto.
Qed.

(** X11: while some listed proxy is not failed, [get_proxy] returns one
    that is not failed and whose score is the highest among the listed
    non-failed proxies (a missing score counting as 0); the failed set is
    left as it is. *)
Theorem helpers_get_proxy_best_working (m : manager) (u0 : string) :
  wf m -> In u0 (proxies m) -> u0 ∉ failed_proxies m ->
  exists best m', get_proxy m = Some (Some best, m') /\
    In best (proxies m) /\ (best ∉ failed_proxies m) /\
    failed_proxies m' = failed_proxies m /\
    forall u, In u (proxies m) -> u ∉ failed_proxies m ->
      (default 0 (proxy_scores m !! u) <= default 0 (proxy_scores m !! best))%Q.
Proof. intros; apply (helpers_best_working_core m u0); assumption. Qed.

Lemma helpers_get_proxy_best_working_witness :
  wf (hpm_b_failed) /\
  In "a"%string ["a"; "b"] /\ ("a"%string ∉ ({[ "b" ]} : gset string)) /\
  exists best m', get_proxy (hpm_b_failed)
                  = Some (Some best, m') /\ best = "a"%string.
Proof.
  set (m := hpm_b_failed).
  assert (Hw : wf m).
  { intros u Hu. simpl in Hu. destruct Hu as [<-|[<-|[]]]; split; eexists; reflexivity. }
  assert (Hu : In "a"%string (proxies m)) by (left; reflexivity).
  assert (Hf : "a"%string ∉ failed_proxies m) by (simpl; set_solver).
  split; [exact Hw|]. split; [exact Hu|]. split; [exact Hf|].
  destruct (helpers_get_proxy_best_working m "a" Hw Hu Hf) as (best & m' & Hg & Hb & Hfb & _).
  exists best, m'. split; [exact Hg|].
  simpl in Hb. destruct Hb as [<-|[<-|[]]]; [reflexivity|]. exfalso. apply Hfb. simpl. set_solver.
Defined.

(** X12: when every listed proxy has failed, [get_proxy] clears the
    failed set, resets the listed proxies' scores to their loaded
    [quality_score], and returns a listed proxy of highest quality score;
    the other listed proxies keep the reset score. *)
Theorem helpers_get_proxy_all_failed_reset (m : manager) :
  wf m -> proxies m <> [] -> (forall u, In u (proxies m) -> u ∈ failed_proxies m) ->
  exists best m', get_proxy m = Some (Some best, m') /\
    failed_proxies m' = ∅ /\ In best (proxies m) /\
    (forall u, In u (proxies m) ->
       (default 0 (proxy_by_url m !! u) <= default 0 (proxy_by_url m !! best))%Q) /\
    (forall u, In u (proxies m) -> u <> best -> proxy_scores m' !! u = proxy_by_url m !! u).
Proof.
  intros Hw Hne Hall. unfold get_proxy.
  assert (Ha : available m = []).
  { destruct (available m) as [|[u s] l] eqn:E; [reflexivity|].
    assert (Hin : In (u, s) (available m)) by (rewrite E; left; reflexivity).
    apply in_available in Hin as (Hu & Hf & _). exfalso. exact (Hf (Hall u Hu)). }
  rewrite Ha.
  destruct (reset_scores_spec (proxy_by_url m) (proxies m) (proxy_scores m))
    as [sc [Hsc [H1 _]]]; [intros u Hu; apply (Hw u Hu)|].
  rewrite Hsc. cbv zeta. cbn iota.
  destruct (sort_desc_nonempty snd (map (fun url => (url, default 0%Q (sc !! url))) (proxies m)))
    as [[best s] Eh]; [destruct (proxies m); [congruence|discriminate]|].
  rewrite Eh. destruct (sort_desc_head snd _ _ Eh) as [Hin Hmax].
  apply in_map_iff in Hin as [b [Hbe Hb]]. injection Hbe as -> <-.
  cbn [proxy_scores]. destruct (proj1 (Hw best Hb)) as [q Hq].
  rewrite (H1 best Hb), Hq.
  eexists _, _. split; [reflexivity|]. split; [reflexivity|]. split; [exact Hb|]. split.
  - intros u Hu. rewrite <- (H1 u Hu), <- (H1 best Hb).
    apply (Hmax (u, default 0%Q (sc !! u))). apply in_map_iff. exists u. auto.
  - intros u Hu Hneq. simpl. rewrite lookup_insert_ne by congruence. apply H1. exact Hu.
Qed.

Lemma helpers_get_proxy_all_failed_reset_witness :
  wf (hpm_all_failed) /\
  ["a"%string; "b"%string] <> [] /\
  (forall u, In u ["a"%string; "b"%string] -> u ∈ ({[ "a"; "b" ]} : gset string)) /\
  exists best m', get_proxy (hpm_all_failed)
                  = Some (Some best, m') /\ failed_proxies m' = ∅.
Proof.
  set (m := hpm_all_failed).
  assert (Hw : wf m).
  { intros u Hu. simpl in Hu. destruct Hu as [<-|[<-|[]]]; split; eexists; reflexivity. }
  assert (Hne : proxies m <> []) by discriminate.
  assert (Hall : forall u, In u (proxies m) -> u ∈ failed_proxies m).
  { intros u Hu. simpl in Hu. destruct Hu as [<-|[<-|[]]]; simpl; set_solver. }
  split; [exact Hw|]. split; [exact Hne|]. split; [exact Hall|].
  destruct (helpers_get_proxy_all_failed_reset m Hw Hne Hall) as (best & m' & Hg & Hf & _).
  exists best, m'. split; [exact Hg|exact Hf].
Defined.

Lemma run_ops_total_of_wf (ops : list op) :
  forall m, wf m -> exists outs mf, run_ops m ops = Some (outs, mf).
Proof.
  induction ops as [|o ops IH]; intros m Hw; simpl; [eexists _, _; reflexivity|].
  destruct o as [|p|p].
  - destruct (get_proxy_wf m Hw) as (o & m' & Hg & Hw' & _). rewrite Hg.
    destruct (IH m' Hw') as (outs & mf & Hr). rewrite Hr. eexists _, _; reflexivity.
  - apply IH. apply record_failure_wf. exact Hw.
  - apply IH. apply record_success_wf. exact Hw.
Qed.

(** X13: from a state where every listed proxy has a loaded object and a
    score (as [_load_and_sort_proxies] leaves it), no sequence of
    [get_proxy], [record_failure] and [record_success] calls raises a
    [KeyError]. *)
Theorem helpers_run_ops_no_key_error (ops : list op) :
  forall m, wf m -> exists outs mf, run_ops m ops = Some (outs, mf).
Proof. intros m Hw. exact (run_ops_total_of_wf ops m Hw). Qed.

Lemma helpers_run_ops_no_key_error_witness :
  wf (hpm_fresh) /\
  exists outs mf, run_ops (hpm_fresh)
    [OpRecordFailure "a"; OpRecordFailure "b"; OpGetProxy; OpGetProxy] = Some (outs, mf).
Proof.
  set (m := hpm_fresh).
  assert (Hw : wf m).
  { intros u Hu. simpl in Hu. destruct Hu as [<-|[<-|[]]]; split; eexists; reflexivity. }
  split; [exact Hw|]. exact (helpers_run_ops_no_key_error _ m Hw).
Defined.

Lemma get_random_proxy_spec (m : manager) (rc : rng) (r : Q) :
  (get_random_proxy m rc r = None <-> forall u, In u (proxies m) -> u ∈ failed_proxies m) /\
  (forall p, get_random_proxy m rc r = Some p -> In p (proxies m) /\ p ∉ failed_proxies m).
Proof.
  assert (Hin : forall p, get_random_proxy m rc r = Some p ->
                  In p (filter (fun p => p ∉ failed_proxies m) (proxies m))).
  { unfold get_random_proxy. intros p.
    destruct (filter _ (proxies m)) as [|a l] eqn:E; [discriminate|].
    destruct (Qeq_bool _ 0).
    - apply choice_in.
    - destruct (pick_weighted _ _ _) as [q|] eqn:Ep.
      + intros H; injection H as <-. exact (pick_weighted_in _ _ _ _ _ Ep).
      + intros H. apply list_elem_of_In. apply last_Some_elem_of. exact H. }
  split.
  - split.
    + intros Hn u Hu. destruct (decide (u ∈ failed_proxies m)) as [Hf|Hf]; [exact Hf|].
      exfalso. revert Hn. unfold get_random_proxy.
      assert (Hu' : u ∈ filter (fun p => p ∉ failed_proxies m) (proxies m))
        by (apply list_elem_of_filter; split; [exact Hf|apply list_elem_of_In; exact Hu]).
      destruct (filter _ (proxies m)) as [|a l]; [inversion Hu'|].
      destruct (Qeq_bool _ 0).
      * destruct (ProxyManagerFacts.choice_some rc (a :: l)) as [y Hy]; [discriminate|].
        rewrite Hy. discriminate.
      * destruct (pick_weighted _ _ _); [discriminate|].
        destruct (last (a :: l)) eqn:El; [discriminate|]. apply last_None in El. discriminate.
    + intros Hall. destruct (get_random_proxy m rc r) as [p|] eqn:E; [|reflexivity].
      exfalso. pose proof (Hin p eq_refl) as E'. apply list_elem_of_In, list_elem_of_filter in E' as [Hf Hp].
      apply Hf, Hall, list_elem_of_In, Hp.
  - intros p Hp. apply Hin, list_elem_of_In, list_elem_of_filter in Hp as [Hf Hp].
    split; [apply list_elem_of_In; exact Hp|exact Hf].
Qed.

(** X14: [get_random_proxy] returns [None] exactly when every listed
    proxy has failed, and otherwise a listed proxy that has not failed,
    whatever the draws. *)
Theorem get_random_proxy_not_failed (m : manager) (rc : rng) (r : Q) :
  (get_random_proxy m rc r = None <-> forall u, In u (proxies m) -> u ∈ failed_proxies m) /\
  (forall p, get_random_proxy m rc r = Some p -> In p (proxies m) /\ p ∉ failed_proxies m).
Proof. intros; apply (get_random_proxy_spec m rc r); assumption. Qed.

(** X15: the [random.choice] branch and the final [available_proxies[-1]]
    of [get_random_proxy] are dead: the weights are at least 1, so their
    total is at least the number of non-failed proxies, and for any draw
    [r] up to the total the weighted loop itself returns a proxy. *)
Theorem get_random_proxy_loop_returns (m : manager) (rc : rng) (r : Q) :
  let avail := filter (fun p => p ∉ failed_proxies m) (proxies m) in
  avail <> [] ->
  (r <= fold_left Qplus (weights m avail) 0)%Q ->
  (inject_Z (Z.of_nat (length avail)) <= fold_left Qplus (weights m avail) 0)%Q /\
  exists p, pick_weighted r 0 (zip avail (weights m avail)) = Some p /\
            get_random_proxy m rc r = Some p.
Proof.
  intros avail Hne Hr.
  assert (Htot : (inject_Z (Z.of_nat (length avail)) <= fold_left Qplus (weights m avail) 0)%Q).
  { pose proof (fold_left_Qplus_ge (weights m avail) 0 (weights_ge_1 m avail)) as H.
    unfold weights in H at 1. rewrite length_map in H. rewrite Qplus_0_l in H. exact H. }
  split; [exact Htot|].
  destruct (pick_weighted_found r avail (weights m avail) 0 Hne) as [p Hp];
    [unfold weights; rewrite length_map; reflexivity|exact Hr|].
  exists p. split; [exact Hp|].
  assert (H1 : (1 <= inject_Z (Z.of_nat (length avail)))%Q).
  { change 1%Q with (inject_Z 1). rewrite <- Zle_Qle.
    destruct avail; [congruence|simpl; lia]. }
  assert (Hq : Qeq_bool (fold_left Qplus (weights m avail) 0%Q) 0 = false).
  { destruct (Qeq_bool _ 0) eqn:Eq; [|reflexivity].
    apply Qeq_bool_iff in Eq. exfalso. lra. }
  unfold get_random_proxy. fold avail. clearbody avail.
  destruct avail as [|a l]; [congruence|]. rewrite Hq, Hp. reflexivity.
Qed.

Lemma get_random_proxy_loop_returns_witness :
  filter (fun p => p ∉ failed_proxies (hpm_weighted))
    (proxies (hpm_weighted)) <> [] /\
  (4 <= fold_left Qplus (weights (hpm_weighted)
          (filter (fun p => p ∉ failed_proxies (hpm_weighted))
             (proxies (hpm_weighted)))) 0)%Q /\
  get_random_proxy (hpm_weighted) (mkRng false 0) 4 = Some "b"%string.
Proof.
  set (m := hpm_weighted).
  assert (Hne : filter (fun p => p ∉ failed_proxies m) (proxies m) <> [])
    by (vm_compute; discriminate).
  assert (Hr : (4 <= fold_left Qplus (weights m (filter (fun p => p ∉ failed_proxies m)
                                                   (proxies m))) 0)%Q)
    by (vm_compute; discriminate).
  split; [exact Hne|]. split; [exact Hr|].
  destruct (get_random_proxy_loop_returns m (mkRng false 0) 4 Hne Hr) as [_ [p [Hp Hg]]].
  rewrite Hg. vm_compute in Hp. congruence.
Defined.

(** X16: if no listed URL is the empty string, [get_random_proxy_dict]
    returns [None] exactly when every listed proxy has failed. *)
Theorem random_proxy_dict_none_iff (m : manager) (rc : rng) (r : Q) :
  (forall u, In u (proxies m) -> u <> EmptyString) ->
  (get_random_proxy_dict m rc r = None <-> forall u, In u (proxies m) -> u ∈ failed_proxies m).
Proof.
  intros Hne. destruct (get_random_proxy_spec m rc r) as [Hnone Hsome].
  unfold get_random_proxy_dict. rewrite <- Hnone.
  destruct (get_random_proxy m rc r) as [p|] eqn:E; [|tauto].
  destruct (Hsome p eq_refl) as [Hp Hf].
  rewrite decide_True by (split; [apply Hne; exact Hp|exact Hf]).
  split; discriminate.
Qed.

Lemma random_proxy_dict_none_iff_witness :
  (forall u, In u (proxies (hpm_a_failed)) -> u <> EmptyString) /\
  (get_random_proxy_dict (hpm_a_failed) (mkRng false 0) 1 = None <->
   forall u, In u (proxies (hpm_a_failed)) ->
     u ∈ failed_proxies (hpm_a_failed)).
Proof.
  assert (Hne : forall u, In u (proxies (hpm_a_failed)) -> u <> EmptyString).
  { intros u Hu. simpl in Hu. destruct Hu as [<-|[<-|[]]]; discriminate. }
  split; [exact Hne|]. exact (random_proxy_dict_none_iff _ (mkRng false 0) 1 Hne).
Defined.

(** X17: [record_failure] of a proxy that is not listed and not yet
    failed lowers the ["working_proxies"] figure of [get_stats] by one
    while the proxies [get_proxy] can choose from are unchanged; the
    figure is the list length minus the failed-set size, so it can go
    below zero. *)
Theorem working_proxies_counts_unlisted (m : manager) (p : string) :
  ~ In p (proxies m) -> p ∉ failed_proxies m ->
  working_proxies (record_failure m p) = working_proxies m - 1 /\
  available (record_failure m p) = available m.
Proof.
  intros Hp Hf. split.
  - unfold working_proxies, record_failure; simpl.
    rewrite size_union by set_solver. rewrite size_singleton. lia.
  - unfold available, record_failure; simpl.
    assert (Hfl : filter (fun url => url ∉ {[p]} ∪ failed_proxies m) (proxies m)
                  = filter (fun url => url ∉ failed_proxies m) (proxies m)).
    { clear Hf. induction (proxies m) as [|x l IH]; [reflexivity|].
      assert (Hx : x <> p) by (intros ->; apply Hp; left; reflexivity).
      assert (Hl : ~ In p l) by (intros Hin; apply Hp; right; exact Hin).
      rewrite !filter_cons.
      destruct (decide (x ∉ {[p]} ∪ failed_proxies m)), (decide (x ∉ failed_proxies m));
        [rewrite IH by exact Hl; reflexivity|set_solver|set_solver|exact (IH Hl)]. }
    rewrite Hfl. apply map_ext_in. intros u Hu.
    rewrite lookup_insert_ne; [reflexivity|]. intros ->. apply Hp.
    apply list_elem_of_In, list_elem_of_filter in Hu as [_ Hu]. apply list_elem_of_In. exact Hu.
Qed.

Lemma working_proxies_counts_unlisted_witness :
  ~ In "z"%string (proxies (hpm_empty)) /\ ("z"%string ∉ failed_proxies (hpm_empty)) /\
  working_proxies (record_failure (hpm_empty) "z") = -1.
Proof.
  assert (Hp : ~ In "z"%string (proxies (hpm_empty))) by (intros []).
  assert (Hf : "z"%string ∉ failed_proxies (hpm_empty)) by (simpl; set_solver).
  split; [exact Hp|]. split; [exact Hf|].
  rewrite (proj1 (working_proxies_counts_unlisted _ "z" Hp Hf)). reflexivity.
Defined.

End HelpersPMFacts.

(* ===================================================================== *)
(** * 24. Proofs about the unified browser middleware *)
(* ===================================================================== *)

Module UnifiedMWFacts.
Import ProxyCommon BrowserPool BrowserPoolFacts UnifiedMW HelpersPM HelpersPMFacts.

Lemma unified_pstep_total (p : pool) (ev : event) (p' : pool) :
  unified_pstep p ev = Some p' -> (total p' <= total p)%nat /\ pool_size p' = pool_size p.
Proof.
  destruct ev as [k ok|rc np dok|k res i np]; simpl.
  - apply (pstep_total Hybrid p (EvCreated k ok)).
  - apply (pstep_total Hybrid p (EvAcquire 0 None false)).
  - unfold unified_release. destruct (in_use p !! k) as [b|] eqn:Ek; [|discriminate].
    assert (Hd : (length (delete k (in_use p)) = length (in_use p) - 1)%nat)
      by (apply length_delete; rewrite Ek; eexists; reflexivity).
    assert (Hlt := lookup_lt_Some _ _ _ Ek).
    destruct res as [|e].
    + intros H. apply put_spec in H as [Ht [Hs _]]. unfold total in *; simpl in *. lia.
    + intros H. injection H as <-. unfold spawn, total; simpl.
      rewrite List.length_app; simpl. lia.
Qed.

Lemma unified_prun_total (evs : list event) : forall (p : pool),
  (total (unified_prun p evs) <= total p)%nat /\ pool_size (unified_prun p evs) = pool_size p.
Proof.
  induction evs as [|ev evs IH]; intros p; simpl; [split; [lia|reflexivity]|].
  destruct (unified_pstep p ev) as [p'|] eqn:E; simpl.
  - destruct (unified_pstep_total p ev p' E) as [H1 H2]. destruct (IH p') as [H3 H4]. lia.
  - exact (IH p).
Qed.

(** X18: the pool of the unified middleware ([middlewares.py]) never
    holds more sessions (being created, queued or checked out) than
    [browser_pool_size], whatever the order of creations, requests and
    releases; a failed request's browser is quit before its single
    replacement thread starts. *)
Theorem unified_pool_never_exceeds_size (size : nat) (proxy_of : nat -> string)
  (evs : list event) :
  (total (unified_prun (unified_opened size proxy_of) evs) <= size)%nat /\
  pool_size (unified_prun (unified_opened size proxy_of) evs) = size.
Proof.
  destruct (unified_prun_total evs (unified_opened size proxy_of)) as [H1 H2].
  rewrite H2. unfold total, unified_opened in *; simpl in *.
  rewrite List.length_map, List.length_seq in H1. split; [lia|reflexivity].
Qed.

(** X19: when a request through the unified middleware fails (a bot
    page, a blocked redirect or a driver error), its browser is not put
    back; its proxy is marked failed, and the replacement browser gets
    a different proxy, as long as another listed proxy has not failed. *)
Theorem unified_failure_replaces_proxy (p : pool) (m : HelpersPM.manager) (b : browser_info)
  (pg : upage) (idx : nat) (u : string) :
  wf m -> pg <> UOk ->
  In u (proxies m) -> u <> bproxy b -> u ∉ failed_proxies m ->
  exists np m2,
    _release_browser p (snd (_execute_browser_request m b pg)) (fst (_execute_browser_request m b pg)) b idx
      = Some (spawn p idx np, m2) /\
    np <> bproxy b /\ pool_queue (spawn p idx np) = pool_queue p /\
    bproxy b ∈ failed_proxies m2.
Proof.
  intros Hw Hpg Hu Hne Hf.
  assert (Hex : exists e, _execute_browser_request m b pg
                          = (Failed e, record_failure m (bproxy b))).
  { destruct pg; [congruence| | |]; eexists; reflexivity. }
  destruct Hex as [e He]. rewrite He. cbn [fst snd _release_browser].
  assert (Hw1 : wf (record_failure m (bproxy b))) by (apply record_failure_wf; exact Hw).
  assert (Hf1 : u ∉ failed_proxies (record_failure m (bproxy b))) by (simpl; set_solver).
  destruct (helpers_best_working_core (record_failure m (bproxy b)) u Hw1 Hu Hf1)
    as (best & m2 & Hg & _ & Hfb & Hfm & _).
  rewrite Hg. exists best, m2. split; [reflexivity|]. split.
  - intros ->. apply Hfb. simpl. set_solver.
  - split; [reflexivity|]. rewrite Hfm. simpl. set_solver.
Qed.

(** A fresh unified pool of two browsers, one of them out with proxy ["a"]. *)
Lemma unified_failure_replaces_proxy_witness :
  HelpersPM.wf HelpersPM.hpm_fresh /\
  exists np m2,
    _release_browser (mkPool 2 [] [] [] 1)
      (snd (_execute_browser_request HelpersPM.hpm_fresh (mkBrowser 0 "a" false 0) URobot))
      (fst (_execute_browser_request HelpersPM.hpm_fresh (mkBrowser 0 "a" false 0) URobot))
      (mkBrowser 0 "a" false 0) 0
      = Some (spawn (mkPool 2 [] [] [] 1) 0 np, m2) /\
    np <> "a"%string.
Proof.
  assert (Hw : HelpersPM.wf HelpersPM.hpm_fresh).
  { intros u Hu. simpl in Hu. destruct Hu as [<-|[<-|[]]]; split; eexists; reflexivity. }
  split; [exact Hw|].
  assert (Hu : In "b"%string (HelpersPM.proxies HelpersPM.hpm_fresh)) by (right; left; reflexivity).
  assert (Hf : "b"%string ∉ HelpersPM.failed_proxies HelpersPM.hpm_fresh) by (simpl; set_solver).
  destruct (unified_failure_replaces_proxy (mkPool 2 [] [] [] 1) HelpersPM.hpm_fresh
              (mkBrowser 0 "a" false 0) URobot 0 "b" Hw ltac:(discriminate) Hu
              ltac:(discriminate) Hf) as (np & m2 & Hr & Hnp & _ & _).
  exists np, m2. split; [exact Hr | exact Hnp].
Defined.

End UnifiedMWFacts.

(* ===================================================================== *)
(** * 25. Proofs about the bot-detection checks *)
(* ===================================================================== *)

Module BotCheckFacts.
Import BotCheck.

Lemma hybrid_loop_found (inds : list string) (t s url : string) :
  hybrid_loop inds t s url = true -> existsb (fun i => py_in i t || py_in i s) inds = true.
Proof.
  induction inds as [|i r IH]; simpl; [discriminate|].
  destruct (py_in i t || py_in i s) eqn:E; simpl; [reflexivity|]. exact IH.
Qed.

Lemma hybrid_loop_spec (inds : list string) (t s url : string) :
  hybrid_loop inds t s url = true <->
  exists i, In i inds /\ (py_in i t || py_in i s) = true /\
            (String.eqb i "challenge" && py_in "/ip/" url) = false.
Proof.
  induction inds as [|i r IH]; simpl.
  - split; [discriminate|]. intros (? & [] & _).
  - destruct (py_in i t || py_in i s) eqn:E.
    + destruct (String.eqb i "challenge" && py_in "/ip/" url) eqn:C.
      * rewrite IH. split.
        -- intros (j & Hj & H1 & H2). exists j. auto.
        -- intros (j & [<-|Hj] & H1 & H2); [congruence|]. exists j. auto.
      * split; [intros _; exists i; auto|reflexivity].
    + rewrite IH. split.
      * intros (j & Hj & H1 & H2). exists j. auto.
      * intros (j & [<-|Hj] & H1 & H2); [congruence|]. exists j. auto.
Qed.

(** X20: every page the hybrid middleware's check flags as a bot check is
    also flagged by the enhanced middleware's check: each hybrid indicator
    is an enhanced one, and the hybrid check only adds an exception. *)
Theorem hybrid_bot_check_implies_enhanced (pg : page) :
  hybrid_check pg = true -> enhanced_check pg = true.
Proof.
  unfold hybrid_check, enhanced_check. intros H.
  apply hybrid_loop_found in H.
  apply existsb_exists in H as (i & Hi & Hf).
  assert (Hin : In i enhanced_indicators).
  { simpl in Hi. unfold enhanced_indicators.
    repeat (destruct Hi as [<-|Hi]; [simpl; tauto|]). destruct Hi. }
  replace (existsb _ enhanced_indicators) with true; [reflexivity|].
  symmetry. apply existsb_exists. exists i. split; assumption.
Qed.

Lemma hybrid_bot_check_implies_enhanced_witness :
  hybrid_check robot_page = true /\ enhanced_check robot_page = true.
Proof.
  assert (H : hybrid_check robot_page = true) by reflexivity.
  split; [exact H|]. exact (hybrid_bot_check_implies_enhanced robot_page H).
Defined.

(** X21: on a URL containing ["/ip/"], a page whose lowered title or
    source contains ["challenge"] but no other hybrid indicator is not
    flagged by the hybrid check, while the enhanced check flags it. *)
Theorem challenge_on_product_page (pg : page) :
  py_in "/ip/" (current_url pg) = true ->
  (py_in "challenge" (py_lower (title pg)) || py_in "challenge" (py_lower (page_source pg))) = true ->
  (forall i, In i hybrid_indicators -> i <> "challenge"%string ->
     (py_in i (py_lower (title pg)) || py_in i (py_lower (page_source pg))) = false) ->
  hybrid_check pg = false /\ enhanced_check pg = true.
Proof.
  intros Hu Hc Hother. split.
  - destruct (hybrid_check pg) eqn:E; [|reflexivity]. exfalso.
    unfold hybrid_check in E. apply hybrid_loop_spec in E as (i & Hi & Hf & Hx).
    destruct (decide (i = "challenge"%string)) as [->|Hne].
    + rewrite Hu in Hx. discriminate.
    + rewrite (Hother i Hi Hne) in Hf. discriminate.
  - unfold enhanced_check.
    replace (existsb _ enhanced_indicators) with true; [reflexivity|].
    symmetry. apply existsb_exists. exists "challenge"%string.
    split; [simpl; tauto|exact Hc].
Qed.

Lemma challenge_on_product_page_witness :
  hybrid_check product_challenge_page = false /\ enhanced_check product_challenge_page = true.
Proof.
  apply challenge_on_product_page.
  - reflexivity.
  - reflexivity.
  - intros i Hi Hne. simpl in Hi.
    repeat (destruct Hi as [<-|Hi]; [first [reflexivity | congruence]|]). destruct Hi.
Defined.

End BotCheckFacts.

(* ===================================================================== *)
(** * 26. Proofs about loading in EnhancedProxyManager *)
(* ===================================================================== *)

Module EnhancedLoadFacts.
Import BotCheck EnhancedLoad.

Lemma load_inv_empty : load_inv empty_lstate.
Proof. repeat split; constructor. Qed.

Lemma categorize_inv (st st' : lstate) (e : raw_entry) :
  load_inv st -> _categorize_proxy st e = Some st' -> load_inv st'.
Proof.
  intros (Hp & Hr & Hm & Hd & Hs). unfold _categorize_proxy.
  destruct (proxy_info_of e) as [[u d]|]; [|discriminate].
  destruct (is_socks d) eqn:Es; [intros [= <-]; repeat split; assumption|].
  destruct (is_residential d); [|destruct (is_mobile d)]; intros [= <-]; unfold load_inv; simpl;
    (split; [rewrite Hp, <- !app_assoc|]);
    repeat split; try apply Forall_app_2; try assumption; try (repeat constructor; assumption).
  - apply Permutation_app_head. rewrite app_assoc. apply Permutation_app_comm.
  - apply Permutation_app_head, Permutation_app_head, Permutation_app_comm.
  - reflexivity.
Qed.

Lemma categorize_all_inv (l : list raw_entry) :
  forall st, load_inv st -> load_inv (categorize_all st l).
Proof.
  induction l as [|e r IH]; intros st H; simpl; [exact H|].
  destruct (_categorize_proxy st e) eqn:E; [|exact H].
  apply IH. exact (categorize_inv st l e H E).
Qed.

Lemma categorize_step (st st' : lstate) (e : raw_entry) :
  _categorize_proxy st e = Some st' ->
  st' = st \/ exists x, all_proxies st' = all_proxies st ++ [x].
Proof.
  unfold _categorize_proxy. destruct (proxy_info_of e) as [[u d]|]; [|discriminate].
  destruct (is_socks d); [intros [= <-]; left; reflexivity|].
  destruct (is_residential d); [|destruct (is_mobile d)]; intros [= <-]; right; eexists; reflexivity.
Qed.

Lemma categorize_all_prefix (l : list raw_entry) :
  forall st, exists suf, all_proxies (categorize_all st l) = all_proxies st ++ suf.
Proof.
  induction l as [|e r IH]; intros st; simpl; [exists []; rewrite app_nil_r; reflexivity|].
  destruct (_categorize_proxy st e) eqn:E; [|exists []; rewrite app_nil_r; reflexivity].
  destruct (IH l) as [suf Hs]. rewrite Hs.
  destruct (categorize_step _ _ _ E) as [->|[x Hx]]; [exists suf; reflexivity|].
  rewrite Hx, <- app_assoc. eexists; reflexivity.
Qed.

Lemma categorize_all_unchanged (l : list raw_entry) :
  forall st, all_proxies (categorize_all st l) = all_proxies st -> categorize_all st l = st.
Proof.
  induction l as [|e r IH]; intros st; simpl; [reflexivity|].
  destruct (_categorize_proxy st e) eqn:E; [|reflexivity].
  destruct (categorize_step _ _ _ E) as [->|[x Hx]]; [apply IH|].
  intros H. exfalso. destruct (categorize_all_prefix r l) as [suf Hs].
  rewrite Hs, Hx in H. apply (f_equal length) in H. rewrite !length_app in H. simpl in H. lia.
Qed.

Lemma py_filter_opt_some (f : entry -> option bool) (l : list entry) :
  forall r, py_filter_opt f l = Some r ->
  r = List.filter (fun x => default false (f x)) l /\ Forall (fun x => is_Some (f x)) l.
Proof.
  induction l as [|x l IH]; intros r; simpl; [intros [= <-]; split; [reflexivity|constructor]|].
  destruct (f x) as [b|] eqn:Ef; [|discriminate].
  destruct (py_filter_opt f l) as [r'|] eqn:E2; [|discriminate].
  intros [= <-]. destruct (IH r' eq_refl) as [-> HF].
  split; [destruct b; reflexivity|]. constructor; [rewrite Ef; eexists; reflexivity|exact HF].
Qed.

Lemma py_filter_opt_none (f : entry -> option bool) (l : list entry) :
  py_filter_opt f l = None <-> exists x, In x l /\ f x = None.
Proof.
  induction l as [|x l IH]; simpl.
  - split; [discriminate|]. intros (? & [] & _).
  - destruct (f x) as [b|] eqn:Ef.
    + destruct (py_filter_opt f l) as [r|] eqn:E2.
      * split; [discriminate|]. intros (y & [<-|Hy] & Hn); [congruence|].
        assert (Hc : Some r = None) by (apply IH; exists y; auto). discriminate.
      * split; [intros _|reflexivity]. destruct (proj1 IH eq_refl) as (y & Hy & Hn).
        exists y. auto.
    + split; [intros _; exists x; auto|reflexivity].
Qed.

Lemma filter_complement_perm (p : entry -> bool) (l : list entry) :
  List.filter p l ++ List.filter (fun x => negb (p x)) l ≡ₚ l.
Proof.
  induction l as [|x l IH]; simpl; [reflexivity|].
  destruct (p x); simpl.
  - constructor. exact IH.
  - rewrite <- Permutation_middle. constructor. exact IH.
Qed.

Lemma perm_list_filter (p : entry -> bool) (l1 l2 : list entry) :
  l1 ≡ₚ l2 -> List.filter p l1 ≡ₚ List.filter p l2.
Proof.
  induction 1 as [|x l1 l2 _ IH|x y l|l1 l2 l3 _ IH1 _ IH2]; simpl.
  - reflexivity.
  - destruct (p x); [constructor|]; exact IH.
  - destruct (p x), (p y); try reflexivity; constructor.
  - etransitivity; eassumption.
Qed.

Lemma filter_all_false (p : entry -> bool) (l : list entry) :
  Forall (fun x => p x = false) l -> List.filter p l = [].
Proof. induction 1 as [|x l Hx _ IH]; simpl; [reflexivity|]. rewrite Hx. exact IH. Qed.

Lemma us_first_some (l r : list entry) : us_first l = Some r -> r ≡ₚ l /\ us_ordered r.
Proof.
  unfold us_first.
  destruct (py_filter_opt is_us l) as [us|] eqn:E1; [|discriminate].
  destruct (py_filter_opt (fun x => negb <$> is_us x) l) as [ot|] eqn:E2; [|discriminate].
  intros [= <-].
  apply py_filter_opt_some in E1 as [-> HF]. apply py_filter_opt_some in E2 as [-> _].
  rewrite List.Forall_forall in HF.
  assert (He : List.filter (fun x => default false (negb <$> is_us x)) l
             = List.filter (fun x => negb (default false (is_us x))) l).
  { apply filter_ext_in. intros x Hx. destruct (HF x Hx) as [b Hb]. rewrite Hb. reflexivity. }
  rewrite He. split; [apply filter_complement_perm|].
  eexists _, _. split; [reflexivity|]. split; apply List.Forall_forall; intros x Hx;
    apply filter_In in Hx as [Hx Hb]; destruct (HF x Hx) as [c Hc]; rewrite Hc in Hb |- *;
    destruct c; simpl in Hb; congruence.
Qed.

Lemma us_first_none (l : list entry) :
  us_first l = None <-> exists x, In x l /\ is_us x = None.
Proof.
  unfold us_first.
  destruct (py_filter_opt is_us l) as [us|] eqn:E1.
  - destruct (py_filter_opt (fun x => negb <$> is_us x) l) as [ot|] eqn:E2.
    + split; [discriminate|]. intros (x & Hx & Hn).
      apply py_filter_opt_some in E1 as [_ HF]. rewrite List.Forall_forall in HF.
      destruct (HF x Hx) as [b Hb]. congruence.
    + split; [intros _|reflexivity]. apply py_filter_opt_none in E2 as (x & Hx & Hn).
      exists x. split; [exact Hx|]. destruct (is_us x); [discriminate|reflexivity].
  - split; [intros _|reflexivity]. apply py_filter_opt_none. exact E1.
Qed.

Lemma is_us_none (x : entry) : is_us x = None <-> r_location (e_info x) = LocOther.
Proof. unfold is_us. destruct (r_location (e_info x)); split; congruence. Qed.

Lemma walmart_filters_core (st st' : lstate) :
  _apply_walmart_filters st = Some st' ->
  all_proxies st' = all_proxies st /\ proxy_stats st' = proxy_stats st /\
  residential_proxies st' ≡ₚ residential_proxies st /\
  mobile_proxies st' ≡ₚ mobile_proxies st /\
  datacenter_proxies st' ≡ₚ List.filter dc_keep (datacenter_proxies st) /\
  us_ordered (residential_proxies st') /\ us_ordered (mobile_proxies st') /\
  us_ordered (datacenter_proxies st').
Proof.
  unfold _apply_walmart_filters.
  destruct (us_first (residential_proxies st)) as [r|] eqn:E1; [|discriminate].
  destruct (us_first (mobile_proxies st)) as [m|] eqn:E2; [|discriminate].
  destruct (us_first (List.filter dc_keep (datacenter_proxies st))) as [d|] eqn:E3; [|discriminate].
  intros [= <-]. simpl.
  apply us_first_some in E1 as [P1 O1]. apply us_first_some in E2 as [P2 O2].
  apply us_first_some in E3 as [P3 O3]. tauto.
Qed.

Lemma load_reaches (p f : option (list raw_entry)) :
  exists st2, load_inv st2 /\ _load_and_categorize_proxies p f = _apply_walmart_filters st2.
Proof.
  unfold _load_and_categorize_proxies.
  set (st1 := match p with Some l => categorize_all empty_lstate l | None => empty_lstate end).
  assert (H1 : load_inv st1).
  { unfold st1. destruct p; [apply categorize_all_inv|]; apply load_inv_empty. }
  eexists. split; [|reflexivity].
  destruct (all_proxies st1); [destruct f|]; try apply categorize_all_inv; exact H1.
Qed.

Lemma categorize_all_pools (l : list raw_entry) : forall st,
  let st' := categorize_all st l in
  all_proxies st' = all_proxies st ++ categorized l /\
  residential_proxies st' = residential_proxies st ++ List.filter (in_pool "residential") (categorized l) /\
  mobile_proxies st' = mobile_proxies st ++ List.filter (in_pool "mobile") (categorized l) /\
  datacenter_proxies st' = datacenter_proxies st ++ List.filter (in_pool "datacenter") (categorized l).
Proof.
  induction l as [|e r IH]; intros st; cbn [categorize_all categorized].
  - rewrite !app_nil_r. repeat split.
  - unfold _categorize_proxy. destruct (proxy_info_of e) as [[u d]|].
    + destruct (is_socks d); [apply IH|].
      unfold category_of. destruct (is_residential d); [|destruct (is_mobile d)];
        lazymatch goal with |- context [categorize_all ?s r] =>
          destruct (IH s) as (H1 & H2 & H3 & H4) end; simpl in *;
        rewrite H1, H2, H3, H4, <- !app_assoc; repeat split.
    + rewrite !app_nil_r. repeat split.
Qed.

(** X22: loading a proxy list appends, for each element up to the first
    one on which [.get] raises, nothing if it is a SOCKS proxy and
    otherwise its entry [mkEntry url info (category_of info)] to
    [all_proxies] and to the pool of that category (residential if its
    type, flag or ISP says so, else mobile if its type or ISP says so,
    else datacenter), in the order of the list; so [all_proxies] is a
    rearrangement of the three pools, each holding only entries of its
    category, none of them SOCKS. *)
Theorem categorized_pools_partition (l : list raw_entry) :
  let st := categorize_all empty_lstate l in
  all_proxies st = categorized l /\
  residential_proxies st = List.filter (in_pool "residential") (categorized l) /\
  mobile_proxies st = List.filter (in_pool "mobile") (categorized l) /\
  datacenter_proxies st = List.filter (in_pool "datacenter") (categorized l) /\
  all_proxies st ≡ₚ residential_proxies st ++ mobile_proxies st ++ datacenter_proxies st /\
  Forall (fun x => e_category x = "residential"%string) (residential_proxies st) /\
  Forall (fun x => e_category x = "mobile"%string) (mobile_proxies st) /\
  Forall (fun x => e_category x = "datacenter"%string) (datacenter_proxies st) /\
  Forall (fun x => is_socks (e_info x) = false) (all_proxies st).
Proof.
  intros st. destruct (categorize_all_pools l empty_lstate) as (H1 & H2 & H3 & H4).
  split; [exact H1|]. split; [exact H2|]. split; [exact H3|]. split; [exact H4|].
  apply categorize_all_inv, load_inv_empty.
Qed.

(** X23: when [_apply_walmart_filters] succeeds, each pool keeps its
    entries with the US ones moved first, the datacenter pool loses
    exactly its bad-provider entries, and [all_proxies] and the stats are
    not changed (bad-provider proxies stay in [all_proxies]). *)
Theorem walmart_filters_spec (st st' : lstate) :
  _apply_walmart_filters st = Some st' ->
  all_proxies st' = all_proxies st /\ proxy_stats st' = proxy_stats st /\
  residential_proxies st' ≡ₚ residential_proxies st /\
  mobile_proxies st' ≡ₚ mobile_proxies st /\
  datacenter_proxies st' ≡ₚ List.filter dc_keep (datacenter_proxies st) /\
  us_ordered (residential_proxies st') /\ us_ordered (mobile_proxies st') /\
  us_ordered (datacenter_proxies st').
Proof. apply walmart_filters_core. Qed.

Lemma walmart_filters_spec_witness :
  exists st', _apply_walmart_filters demo_state = Some st' /\
              all_proxies st' = all_proxies demo_state /\
              residential_proxies st' ≡ₚ residential_proxies demo_state.
Proof.
  eexists. assert (H : _apply_walmart_filters demo_state = Some _) by (vm_compute; reflexivity).
  split; [exact H|].
  destruct (walmart_filters_spec demo_state _ H) as (Ha & _ & Hr & _). auto.
Defined.

(** X24: [_apply_walmart_filters] raises exactly when a residential or
    mobile proxy, or a datacenter proxy it keeps, has a ["location"] that
    is not a dict. *)
Theorem walmart_filters_raise (st : lstate) :
  _apply_walmart_filters st = None <->
  exists x, In x (residential_proxies st ++ mobile_proxies st ++
                  List.filter dc_keep (datacenter_proxies st)) /\
            r_location (e_info x) = LocOther.
Proof.
  unfold _apply_walmart_filters.
  setoid_rewrite <- is_us_none. setoid_rewrite in_app_iff. setoid_rewrite in_app_iff.
  destruct (us_first (residential_proxies st)) as [r|] eqn:E1.
  - destruct (us_first (mobile_proxies st)) as [m|] eqn:E2.
    + destruct (us_first (List.filter dc_keep (datacenter_proxies st))) as [d|] eqn:E3.
      * split; [discriminate|]. intros (x & [Hx|[Hx|Hx]] & Hn).
        -- assert (C : us_first (residential_proxies st) = None)
             by (apply us_first_none; eauto). congruence.
        -- assert (C : us_first (mobile_proxies st) = None)
             by (apply us_first_none; eauto). congruence.
        -- assert (C : us_first (List.filter dc_keep (datacenter_proxies st)) = None)
             by (apply us_first_none; eauto). congruence.
      * split; [intros _|reflexivity]. apply us_first_none in E3 as (x & Hx & Hn). eauto.
    + split; [intros _|reflexivity]. apply us_first_none in E2 as (x & Hx & Hn). eauto.
  - split; [intros _|reflexivity]. apply us_first_none in E1 as (x & Hx & Hn). eauto.
Qed.

(** X25: the fallback file is read only when the primary list yields no
    usable proxy (every entry before its first malformed one is SOCKS):
    then loading is the same as with no primary file; otherwise the
    fallback file plays no part. *)
Theorem fallback_only_without_primary (l : list raw_entry) (fb : option (list raw_entry)) :
  _load_and_categorize_proxies (Some l) fb =
  match all_proxies (categorize_all empty_lstate l) with
  | [] => _load_and_categorize_proxies None fb
  | _ :: _ => _load_and_categorize_proxies (Some l) None
  end.
Proof.
  unfold _load_and_categorize_proxies. cbv zeta.
  destruct (all_proxies (categorize_all empty_lstate l)) eqn:E.
  - rewrite (categorize_all_unchanged l empty_lstate E). reflexivity.
  - reflexivity.
Qed.

(** X26: after a successful load, every pooled proxy is in [all_proxies]
    and is not SOCKS, the datacenter pool has no bad provider, and the
    [total_proxies] of [get_stats_summary] (the length of [all_proxies])
    is the sum of the three pools plus the bad-provider datacenter proxies
    the filter dropped. *)
Theorem loaded_total_counts (p f : option (list raw_entry)) (st : lstate) :
  _load_and_categorize_proxies p f = Some st ->
  (forall x, In x (residential_proxies st ++ mobile_proxies st ++ datacenter_proxies st) ->
     In x (all_proxies st) /\ is_socks (e_info x) = false) /\
  Forall (fun x => dc_keep x = true) (datacenter_proxies st) /\
  length (all_proxies st) =
    (length (residential_proxies st) + length (mobile_proxies st) +
     length (datacenter_proxies st) +
     length (List.filter (fun x => String.eqb (e_category x) "datacenter" && negb (dc_keep x))
               (all_proxies st)))%nat.
Proof.
  destruct (load_reaches p f) as (st2 & (Hp & Hr & Hm & Hd & Hs) & ->). intros Hf.
  destruct (walmart_filters_core _ _ Hf) as (Ha & _ & P1 & P2 & P3 & _).
  rewrite Ha. rewrite List.Forall_forall in Hs.
  split; [|split].
  - intros x Hx. assert (Hx2 : In x (all_proxies st2)).
    { eapply Permutation_in; [symmetry; exact Hp|].
      rewrite !in_app_iff in Hx |- *. destruct Hx as [Hx|[Hx|Hx]].
      - left. eapply Permutation_in; [exact P1|exact Hx].
      - right; left. eapply Permutation_in; [exact P2|exact Hx].
      - right; right. eapply Permutation_in in Hx; [|exact P3].
        apply filter_In in Hx. tauto. }
    split; [exact Hx2|]. apply Hs, Hx2.
  - apply List.Forall_forall. intros x Hx. eapply Permutation_in in Hx; [|exact P3].
    apply filter_In in Hx. tauto.
  - rewrite (Permutation_length P1), (Permutation_length P2), (Permutation_length P3).
    rewrite (Permutation_length Hp).
    rewrite (Permutation_length (perm_list_filter _ _ _ Hp)).
    rewrite !List.filter_app, !length_app.
    rewrite (filter_all_false _ (residential_proxies st2)).
    2:{ eapply Forall_impl; [exact Hr|]. intros x ->. reflexivity. }
    rewrite (filter_all_false _ (mobile_proxies st2)).
    2:{ eapply Forall_impl; [exact Hm|]. intros x ->. reflexivity. }
    rewrite (filter_ext_in (fun x => String.eqb (e_category x) "datacenter" && negb (dc_keep x))
               (fun x => negb (dc_keep x)) (datacenter_proxies st2)).
    2:{ intros x Hx. rewrite List.Forall_forall in Hd. rewrite (Hd x Hx). reflexivity. }
    pose proof (List.filter_length dc_keep (datacenter_proxies st2)). simpl. lia.
Qed.

Lemma loaded_total_counts_witness :
  exists st, _load_and_categorize_proxies (Some demo_entries) None = Some st /\
    length (all_proxies st) = 3%nat /\ length (datacenter_proxies st) = 0%nat /\
    length (all_proxies st) =
    (length (residential_proxies st) + length (mobile_proxies st) +
     length (datacenter_proxies st) +
     length (List.filter (fun x => String.eqb (e_category x) "datacenter" && negb (dc_keep x))
               (all_proxies st)))%nat.
Proof.
  eexists.
  assert (H : _load_and_categorize_proxies (Some demo_entries) None = Some _)
    by (vm_compute; reflexivity).
  split; [exact H|]. split; [vm_compute; reflexivity|]. split; [vm_compute; reflexivity|].
  destruct (loaded_total_counts _ _ _ H) as (_ & _ & Hl). exact Hl.
Defined.

End EnhancedLoadFacts.

(* ===================================================================== *)
(** * 27. Proofs about loading in the ProxyManager of helpers.py *)
(* ===================================================================== *)

Module HelpersLoadFacts.
Import HelpersPM HelpersPMFacts HelpersLoad.

Lemma hacc_inv_empty : hacc_inv hacc_empty.
Proof. intros u []. Qed.

Lemma load_step_inv (acc : hacc) (d : hraw) : hacc_inv acc -> hacc_inv (load_step acc d).
Proof.
  intros H. unfold load_step.
  destruct (existsb _ _); [exact H|].
  destruct (h_url_of d) as [u|]; [|exact H].
  assert (Hb : forall v, In v (residential acc ++ high_quality acc ++ medium_quality acc ++
                               low_quality acc) \/ v = u ->
                 is_Some (<[u := default 0%Q (h_quality_score d)]> (by_url acc) !! v)).
  { intros v [Hv| ->]; [|rewrite lookup_insert_eq; eexists; reflexivity].
    destruct (decide (v = u)) as [->|Hne]; [rewrite lookup_insert_eq; eexists; reflexivity|].
    rewrite lookup_insert_ne by congruence. apply H, Hv. }
  repeat match goal with |- context [if ?c then _ else _] => destruct c end;
    intros v Hv; cbn [residential high_quality medium_quality low_quality by_url] in Hv |- *;
    apply Hb; repeat rewrite in_app_iff in Hv; repeat rewrite in_app_iff; cbn [In] in Hv;
    intuition (subst; try tauto; try (right; reflexivity)).
Qed.

Lemma load_loop_inv (l : list hentry) :
  forall acc acc', hacc_inv acc -> load_loop acc l = Some acc' -> hacc_inv acc'.
Proof.
  induction l as [|[d|] r IH]; intros acc acc' H; simpl.
  - intros [= <-]. exact H.
  - apply IH, load_step_inv, H.
  - discriminate.
Qed.

Lemma load_loop_none (l : list hentry) :
  forall acc, load_loop acc l = None <-> In HOther l.
Proof.
  induction l as [|[d|] r IH]; intros acc; simpl.
  - split; [discriminate|intros []].
  - rewrite IH. split; [right; assumption|intros [H|H]; [discriminate|exact H]].
  - split; [intros _; left; reflexivity|reflexivity].
Qed.

Lemma load_loaded_spec (data : option (list hentry)) (m : manager) :
  _load_and_sort_proxies data = Some m ->
  failed_proxies m = ∅ /\ wf m.
Proof.
  destruct data as [l|]; simpl.
  - destruct (load_loop hacc_empty l) as [acc|] eqn:E; [|discriminate].
    pose proof (load_loop_inv l _ _ hacc_inv_empty E) as Hi.
    destruct (reset_scores_spec (by_url acc)
                (residential acc ++ high_quality acc ++ medium_quality acc ++ low_quality acc) ∅ Hi)
      as (sc & Hr & Hs & _).
    rewrite Hr. intros [= <-]. split; [reflexivity|].
    intros u Hu. simpl in Hu |- *. split; [apply Hi, Hu|]. rewrite (Hs u Hu). apply Hi, Hu.
  - intros [= <-]. split; [reflexivity|]. intros u [].
Qed.

(** X28: a ProxyManager that [_load_and_sort_proxies] loads has no failed
    proxy and an object and a score for each listed URL, so no sequence
    of [get_proxy], [record_failure] and [record_success] calls on it
    raises a [KeyError]. *)
Theorem loaded_helpers_never_key_error (data : option (list hentry)) (m : manager) :
  _load_and_sort_proxies data = Some m ->
  failed_proxies m = ∅ /\ wf m /\
  forall ops, exists outs mf, run_ops m ops = Some (outs, mf).
Proof.
  intros H. destruct (load_loaded_spec data m H) as [Hf Hw].
  split; [exact Hf|]. split; [exact Hw|]. intros ops. exact (run_ops_total_of_wf ops m Hw).
Qed.

Lemma loaded_helpers_never_key_error_witness :
  exists m, _load_and_sort_proxies (Some helpers_demo) = Some m /\
    proxies m = ["https://h.example:8080"; "http://u:p@r.example:9000"; "http://1.1.1.1:80"]%string /\
    exists outs mf, run_ops m [OpRecordFailure "http://1.1.1.1:80"; OpGetProxy; OpGetProxy]
                    = Some (outs, mf).
Proof.
  eexists. assert (H : _load_and_sort_proxies (Some helpers_demo) = Some _)
    by (vm_compute; reflexivity).
  split; [exact H|]. split; [vm_compute; reflexivity|].
  destruct (loaded_helpers_never_key_error _ _ H) as (_ & _ & Hr). apply Hr.
Defined.

(** X29: [_load_and_sort_proxies] raises out of [__init__] exactly when
    the file's list holds an element that is not a dict: only a missing
    file and invalid JSON are caught. *)
Theorem helpers_load_raises_iff (data : option (list hentry)) :
  _load_and_sort_proxies data = None <-> exists l, data = Some l /\ In HOther l.
Proof.
  destruct data as [l|]; simpl.
  - destruct (load_loop hacc_empty l) as [acc|] eqn:E.
    + pose proof (load_loop_inv l _ _ hacc_inv_empty E) as Hi.
      destruct (reset_scores_spec (by_url acc)
                  (residential acc ++ high_quality acc ++ medium_quality acc ++ low_quality acc) ∅ Hi)
        as (sc & Hr & _). rewrite Hr.
      split; [discriminate|]. intros (l' & [= <-] & Ho).
      apply (load_loop_none l hacc_empty) in Ho. congruence.
    + split; [intros _|reflexivity]. exists l. split; [reflexivity|].
      apply (load_loop_none l hacc_empty). exact E.
  - split; [discriminate|]. intros (l & [=] & _).
Qed.

End HelpersLoadFacts.

(* ===================================================================== *)
(** * 28. Proofs about the request interval of AdaptiveProxyManager *)
(* ===================================================================== *)

Module AdaptiveIntervalFacts.

Lemma filter_lt_none (z : Z) (l : list Z) :
  Forall (fun x => ~ (x < z)%Z) l -> filter (fun x => (x < z)%Z) l = [].
Proof.
  induction 1 as [|x l Hx _ IHl]; [reflexivity|].
  rewrite filter_cons_False by exact Hx. exact IHl.
Qed.

Lemma sorted_nth_counts (s : list Z) :
  StronglySorted Z.le s -> forall k, (k < length s)%nat ->
  (length (filter (fun x => (x < nth k s 0)%Z) s) <= k)%nat /\
  (length (filter (fun x => (nth k s 0 < x)%Z) s) <= length s - 1 - k)%nat.
Proof.
  induction 1 as [|a s Hs IH Ha]; intros k Hk; simpl in Hk; [lia|].
  rewrite List.Forall_forall in Ha.
  destruct k as [|k]; simpl.
  - rewrite filter_cons_False by lia. rewrite filter_cons_False by lia.
    rewrite filter_lt_none; [simpl; split; [lia|]|].
    + pose proof (length_filter (fun x => a < x) s). lia.
    + apply List.Forall_forall. intros x Hx. specialize (Ha x Hx). lia.
  - destruct (IH k ltac:(lia)) as [H1 H2].
    assert (Haz : a <= nth k s 0) by (apply Ha, nth_In; lia).
    rewrite filter_cons_False with (P := fun x => nth k s 0 < x) by lia.
    rewrite filter_cons. destruct (decide (a < nth k s 0)); simpl; lia.
Qed.

(** X27: with more than ten recorded intervals,
    [get_optimal_request_interval] returns a median of them: one of the
    intervals, with at most half of them smaller and at most half larger. *)
Theorem optimal_interval_is_median (m : AdaptivePM.manager) (draw : Q) :
  let iv := AdaptivePM.successful_request_intervals (AdaptivePM.global_patterns m) in
  (10 < length iv)%nat ->
  exists z, AdaptiveInterval.get_optimal_request_interval m draw = inject_Z z /\ In z iv /\
    (2 * length (filter (fun x => (x < z)%Z) iv) <= length iv)%nat /\
    (2 * length (filter (fun x => (z < x)%Z) iv) <= length iv)%nat.
Proof.
  intros iv Hn. unfold AdaptiveInterval.get_optimal_request_interval. fold iv.
  replace (Nat.ltb 10 (length iv)) with true by (symmetry; apply Nat.ltb_lt; exact Hn).
  set (s := merge_sort Z.le iv).
  assert (Hp : s ≡ₚ iv) by apply merge_sort_Permutation.
  assert (Hl : length s = length iv) by (apply Permutation_length; exact Hp).
  assert (Hk : (length s / 2 < length s)%nat) by (apply Nat.div_lt; lia).
  exists (nth (length s / 2) s 0). split; [reflexivity|]. split.
  - eapply Permutation_in; [exact Hp|]. apply nth_In. exact Hk.
  - destruct (sorted_nth_counts s (StronglySorted_merge_sort Z.le iv) _ Hk) as [H1 H2].
    rewrite <- (Permutation_length (filter_Permutation _ _ _ Hp)).
    rewrite <- (Permutation_length (filter_Permutation (fun x => nth (length s / 2) s 0 < x) _ _ Hp)).
    rewrite <- Hl.
    pose proof (Nat.div_mod (length s) 2 ltac:(lia)).
    pose proof (Nat.mod_upper_bound (length s) 2 ltac:(lia)).
    split; lia.
Qed.

Lemma optimal_interval_is_median_witness :
  AdaptiveInterval.get_optimal_request_interval AdaptiveInterval.adaptive_intervals 3 = inject_Z 6 /\
  exists z, AdaptiveInterval.get_optimal_request_interval AdaptiveInterval.adaptive_intervals 3
            = inject_Z z /\
    In z (AdaptivePM.successful_request_intervals
            (AdaptivePM.global_patterns AdaptiveInterval.adaptive_intervals)).
Proof.
  split; [vm_compute; reflexivity|].
  destruct (optimal_interval_is_median AdaptiveInterval.adaptive_intervals 3
              ltac:(vm_compute; lia)) as (z & Hz & Hin & _).
  exists z. split; [exact Hz|exact Hin].
Defined.

End AdaptiveIntervalFacts.
